(** * Text stylization over a DOM subtree

    A shallow embedding of [src/textstylization.js] (class [TextStylization]):
    the offset resolver [_findNodeAndOffsetGroups], the span mutator
    [_applyToNode] / [_applyToWholeNode] / [applyToRanges] and the style
    remover [clear] / [clearElement].

    The DOM subtree under [rootElement] is an ordered tree whose nodes carry
    an identity (a number); a JavaScript reference to an attached node is that
    number, a freshly created and not yet attached node is a value.  Mutation
    is explicit state passing over [document]; a JavaScript [TypeError] or
    DOM exception is [None]. *)

From Stdlib Require Import List ZArith String Ascii Bool Lia Arith PeanoNat.
Import ListNotations.

Set Warnings "-register-all".
Local Open Scope Z_scope.

(* ================================================================== *)
(** ** JavaScript strings *)

Module JsString.

Definition length (s : string) : Z := Z.of_nat (String.length s).

Definition clamp (len x : Z) : Z := Z.max 0 (Z.min x len).

(** [String.prototype.substring(a, b)]: both indices are clamped to
    [0, length] and swapped when [a > b]. *)
Definition substring (s : string) (a b : Z) : string :=
  let a' := clamp (length s) a in
  let b' := clamp (length s) b in
  let lo := Z.min a' b' in
  let hi := Z.max a' b' in
  String.substring (Z.to_nat lo) (Z.to_nat (hi - lo)) s.

Definition newline : string := String (ascii_of_nat 10) EmptyString.

End JsString.

(* ================================================================== *)
(** ** The DOM tree *)

Inductive Node : Type :=
| Text (id : nat) (nodeValue : string)
| Element (id : nat) (tagName : string) (classList : list string)
          (childNodes : list Node).

Definition nodeId (n : Node) : nat :=
  match n with Text i _ => i | Element i _ _ _ => i end.

Definition isText (n : Node) : bool :=
  match n with Text _ _ => true | Element _ _ _ _ => false end.

Fixpoint firstSome {A : Type} (l : list (option A)) : option A :=
  match l with
  | [] => None
  | Some a :: _ => Some a
  | None :: l' => firstSome l'
  end.

(** Identities of a subtree, in document order. *)
Fixpoint ids (n : Node) : list nat :=
  match n with
  | Text i _ => [i]
  | Element i _ _ ch => i :: flat_map ids ch
  end.

(** The node a reference points to. *)
Fixpoint find (i : nat) (n : Node) : option Node :=
  if Nat.eqb (nodeId n) i then Some n
  else match n with
       | Text _ _ => None
       | Element _ _ _ ch => firstSome (map (find i) ch)
       end.

(** [node.parentNode], as a reference. *)
Fixpoint parentOf (i : nat) (n : Node) : option nat :=
  match n with
  | Text _ _ => None
  | Element p _ _ ch =>
      if existsb (fun c => Nat.eqb (nodeId c) i) ch then Some p
      else firstSome (map (parentOf i) ch)
  end.

(** Replace the node with identity [i] by [f] of it. *)
Fixpoint update (i : nat) (f : Node -> Node) (n : Node) {struct n} : Node :=
  if Nat.eqb (nodeId n) i then f n
  else match n with
       | Text _ _ => n
       | Element j tg cl ch => Element j tg cl (map (update i f) ch)
       end.

(** Detach the node with identity [i] from its parent. *)
Fixpoint detach (i : nat) (n : Node) : Node :=
  match n with
  | Text _ _ => n
  | Element j tg cl ch =>
      Element j tg cl
        (filter (fun c => negb (Nat.eqb (nodeId c) i)) (map (detach i) ch))
  end.

(** Text nodes of a subtree in document order: what a [TreeWalker] with
    [SHOW_TEXT] visits. *)
Fixpoint textNodes (n : Node) : list (nat * string) :=
  match n with
  | Text i v => [(i, v)]
  | Element _ _ _ ch => flat_map textNodes ch
  end.

(** [createTreeWalker(root, SHOW_TEXT)]: the root itself is never visited. *)
Definition treeWalker (root : Node) : list (nat * string) :=
  match root with
  | Text _ _ => []
  | Element _ _ _ ch => flat_map textNodes ch
  end.

(** Elements of a subtree matching the selector [tag.cls], document order. *)
Fixpoint matching (tag cls : string) (n : Node) : list nat :=
  match n with
  | Text _ _ => []
  | Element i tg cl ch =>
      (if String.eqb tg tag && existsb (String.eqb cls) cl then [i] else [])
        ++ flat_map (matching tag cls) ch
  end.

(** The concatenation of all text payloads, in document order. *)
Definition textContent (n : Node) : string :=
  fold_right String.append EmptyString (map snd (textNodes n)).

(* ------------------------------------------------------------------ *)
(** *** Child lists *)

(** Position [ref] in a child list and insert before it; [ref = None] is
    [null] and appends; a [ref] that is not a child is a [NotFoundError]. *)
Fixpoint insertBeforeIn (newNode : Node) (ref : option nat) (ch : list Node)
  : option (list Node) :=
  match ref with
  | None => Some (ch ++ [newNode])
  | Some r =>
      match ch with
      | [] => None
      | c :: ch' =>
          if Nat.eqb (nodeId c) r then Some (newNode :: c :: ch')
          else option_map (cons c) (insertBeforeIn newNode ref ch')
      end
  end.

Fixpoint nextSiblingIn (i : nat) (ch : list Node) : option Node :=
  match ch with
  | [] => None
  | c :: ch' =>
      if Nat.eqb (nodeId c) i then hd_error ch' else nextSiblingIn i ch'
  end.

Fixpoint previousSiblingIn (i : nat) (ch : list Node) : option Node :=
  match ch with
  | [] => None
  | c :: ch' =>
      match ch' with
      | [] => None
      | c' :: _ =>
          if Nat.eqb (nodeId c') i then Some c else previousSiblingIn i ch'
      end
  end.

Definition setChildNodes (ch : list Node) (n : Node) : Node :=
  match n with
  | Text _ _ => n
  | Element j tg cl _ => Element j tg cl ch
  end.

Definition childNodesOf (n : Node) : list Node :=
  match n with
  | Text _ _ => []
  | Element _ _ _ ch => ch
  end.

(** [DOMTokenList.add] and [DOMTokenList.remove]. *)
Definition tokenAdd (c : string) (cl : list string) : list string :=
  if existsb (String.eqb c) cl then cl else cl ++ [c].

Definition tokenRemove (c : string) (cl : list string) : list string :=
  filter (fun x => negb (String.eqb c x)) cl.

Definition classListAdd (c : string) (n : Node) : Node :=
  match n with
  | Text _ _ => n
  | Element j tg cl ch => Element j tg (tokenAdd c cl) ch
  end.

Definition classListRemove (c : string) (n : Node) : Node :=
  match n with
  | Text _ _ => n
  | Element j tg cl ch => Element j tg (tokenRemove c cl) ch
  end.

Definition setNodeValueOf (v : string) (n : Node) : Node :=
  match n with
  | Text i _ => Text i v
  | Element _ _ _ _ => n
  end.

(* ================================================================== *)
(** ** The document: the subtree under the root, and the next identity *)

Record document : Type := mkDocument {
  rootElement : Node;
  nextId : nat
}.

Definition withRoot (d : document) (r : Node) : document :=
  mkDocument r (nextId d).

Notation "x <- e ;; k" :=
  (match e with Some x => k | None => None end)
  (at level 61, e at next level, right associativity, only parsing).
Notation "' p <- e ;; k" :=
  (match e with Some p => k | None => None end)
  (at level 61, p pattern, e at next level, right associativity, only parsing).

Module Dom.

Definition createElement (d : document) (tag : string) : Node * document :=
  (Element (nextId d) tag [] [], mkDocument (rootElement d) (S (nextId d))).

Definition createTextNode (d : document) (v : string) : Node * document :=
  (Text (nextId d) v, mkDocument (rootElement d) (S (nextId d))).

(** [node.nodeValue]: [None] is [null] (an element). *)
Definition nodeValue (d : document) (i : nat) : option string :=
  match find i (rootElement d) with
  | Some (Text _ v) => Some v
  | _ => None
  end.

Definition isTextNode (d : document) (i : nat) : bool :=
  match find i (rootElement d) with
  | Some (Text _ _) => true
  | _ => false
  end.

Definition parentNode (d : document) (i : nat) : option nat :=
  parentOf i (rootElement d).

Definition childNodes (d : document) (i : nat) : option (list Node) :=
  match find i (rootElement d) with
  | Some n => Some (childNodesOf n)
  | None => None
  end.

Definition nextSibling (d : document) (i : nat) : option nat :=
  p <- parentNode d i ;;
  ch <- childNodes d p ;;
  option_map nodeId (nextSiblingIn i ch).

Definition previousSibling (d : document) (i : nat) : option nat :=
  p <- parentNode d i ;;
  ch <- childNodes d p ;;
  option_map nodeId (previousSiblingIn i ch).

Definition setNodeValue (d : document) (i : nat) (v : string) : document :=
  withRoot d (update i (setNodeValueOf v) (rootElement d)).

Definition classListAdd (d : document) (i : nat) (c : string) : document :=
  withRoot d (update i (classListAdd c) (rootElement d)).

Definition classListRemove (d : document) (i : nat) (c : string) : document :=
  withRoot d (update i (classListRemove c) (rootElement d)).

(** [parent.insertBefore(newNode, ref)].  A node that is attached is
    first removed from its old parent, as the DOM does. *)
Definition insertBefore (d : document) (parent : nat) (newNode : Node)
           (ref : option nat) : option document :=
  let r := detach (nodeId newNode) (rootElement d) in
  match find parent r with
  | Some (Element _ _ _ ch) =>
      ch' <- insertBeforeIn newNode ref ch ;;
      Some (withRoot d (update parent (setChildNodes ch') r))
  | _ => None
  end.

Definition appendChild (d : document) (parent : nat) (newNode : Node)
  : option document :=
  insertBefore d parent newNode None.

(** [parent.removeChild(child)]: [NotFoundError] when [child] is not a
    child of [parent]. *)
Definition removeChild (d : document) (parent child : nat) : option document :=
  match find parent (rootElement d) with
  | Some (Element _ _ _ ch) =>
      if existsb (fun c => Nat.eqb (nodeId c) child) ch
      then Some (withRoot d
             (update parent
                (setChildNodes
                   (filter (fun c => negb (Nat.eqb (nodeId c) child)) ch))
                (rootElement d)))
      else None
  | _ => None
  end.

(** The node behind a reference, to pass an attached node as an argument. *)
Definition deref (d : document) (i : nat) : option Node :=
  find i (rootElement d).

Definition querySelectorAll (d : document) (tag cls : string) : list nat :=
  match rootElement d with
  | Text _ _ => []
  | Element _ _ _ ch => flat_map (matching tag cls) ch
  end.

End Dom.

(** [container.appendChild(child)] on a container that is not attached yet. *)
Definition appendChildDetached (container child : Node) : Node :=
  match container with
  | Text _ _ => container
  | Element j tg cl ch => Element j tg cl (ch ++ [child])
  end.

(* ================================================================== *)
(** ** The engine *)

Record NodeAndOffset : Type := mkNodeAndOffset {
  node : nat;
  offset : Z
}.

Record TextSelection : Type := mkTextSelection {
  selStart : Z;
  selEnd : Z
}.

Definition NodeGroup : Type := list NodeAndOffset.

(** The [positions] array of [_findNodeAndOffsetGroups]: start and end of
    every selection, in input order. *)
Fixpoint positionsOf (textSelections : list TextSelection) : list Z :=
  match textSelections with
  | [] => []
  | s :: rest => selStart s :: selEnd s :: positionsOf rest
  end.

(** State of the search between two text nodes.  The JavaScript array
    [nodeAndOffsetGroups] is [groups ++ [nodeAndOffsets]]: the variable
    [nodeAndOffsets] always aliases its last entry. *)
Record Search : Type := mkSearch {
  position : Z;
  positions : list Z;
  isFindingTextSelectionEndPos : bool;
  groups : list NodeGroup;
  nodeAndOffsets : NodeGroup
}.

(** The inner [while (position >= workerPosStart && position <= workerPosEnd)]
    loop on one text node; [inl] is the [return] from inside the loop. *)
Fixpoint searchInNode (currentNode : nat) (workerPosStart workerPosEnd : Z)
         (position : Z) (positions : list Z) (isEnd : bool)
         (groups : list NodeGroup) (nodeAndOffsets : NodeGroup)
         {struct positions} : list NodeGroup + Search :=
  if (workerPosStart <=? position) && (position <=? workerPosEnd) then
    let nodeAndOffsets :=
      nodeAndOffsets ++ [mkNodeAndOffset currentNode (position - workerPosStart)] in
    let '(isEnd', groups', nodeAndOffsets') :=
      if isEnd then (false, groups ++ [nodeAndOffsets], [])
      else (true, groups, nodeAndOffsets) in
    match positions with
    | [] => inl (groups' ++ [nodeAndOffsets'])
    | p :: ps =>
        searchInNode currentNode workerPosStart workerPosEnd p ps
                     isEnd' groups' nodeAndOffsets'
    end
  else inr (mkSearch position positions isEnd groups nodeAndOffsets).

(** The [while (treeWalker.nextNode())] loop and the code after it.
    [lastNode] and [lastLength] are [treeWalker.currentNode] and the length
    of its payload ([0] for the root element, whose [nodeValue] is [null]). *)
Fixpoint searchNodes (nodes : list (nat * string)) (lastNode : nat)
         (lastLength : Z) (workerPosStart : Z) (s : Search)
  : list NodeGroup :=
  match nodes with
  | [] =>
      groups s ++ [nodeAndOffsets s ++ [mkNodeAndOffset lastNode lastLength]]
  | (currentNode, nodeValue) :: rest =>
      let nodeValueLength := JsString.length nodeValue in
      let workerPosEnd := workerPosStart + nodeValueLength - 1 in
      let nodeAndOffsets :=
        if isFindingTextSelectionEndPos s && (workerPosEnd <? position s)
        then nodeAndOffsets s ++ [mkNodeAndOffset currentNode 0]
        else nodeAndOffsets s in
      match searchInNode currentNode workerPosStart workerPosEnd
              (position s) (positions s) (isFindingTextSelectionEndPos s)
              (groups s) nodeAndOffsets with
      | inl result => result
      | inr s' =>
          searchNodes rest currentNode nodeValueLength
                      (workerPosStart + nodeValueLength) s'
      end
  end.

Definition rootLength (root : Node) : Z :=
  match root with
  | Text _ v => JsString.length v
  | Element _ _ _ _ => 0
  end.

Definition _findNodeAndOffsetGroups (d : document)
           (textSelections : list TextSelection) : list NodeGroup :=
  let root := rootElement d in
  match positionsOf textSelections with
  | [] =>
      (* [positions.shift()] is [undefined]: every comparison is false *)
      [[mkNodeAndOffset
          (last (map fst (treeWalker root)) (nodeId root))
          (last (map (fun nv => JsString.length (snd nv)) (treeWalker root))
                (rootLength root))]]
  | position :: positions =>
      searchNodes (treeWalker root) (nodeId root) (rootLength root) 0
                  (mkSearch position positions false [] [])
  end.

Section Engine.

Variable className : string.

(** [_applyToWholeNode(node)]: returns the affected element. *)
Definition _applyToWholeNode (d : document) (node : nat)
  : option (document * nat) :=
  parentNode <- Dom.parentNode d node ;;
  siblings <- Dom.childNodes d parentNode ;;
  if Nat.eqb (List.length siblings) 1 then
    Some (Dom.classListAdd d parentNode className, parentNode)
  else
    let '(textNodeContainer, d1) := Dom.createElement d "span" in
    let textNodeContainer := classListAdd className textNodeContainer in
    d2 <- Dom.insertBefore d1 parentNode textNodeContainer (Some node) ;;
    self <- Dom.deref d2 node ;;
    d3 <- Dom.appendChild d2 (nodeId textNodeContainer) self ;;
    Some (d3, nodeId textNodeContainer).

(** [_applyToNode(node, startOffset, endOffset)]: returns the affected or
    newly created container elements. *)
Definition _applyToNode (d : document) (node : nat)
           (startOffset endOffset : Z) : option (document * list nat) :=
  if startOffset =? endOffset then Some (d, [])
  else
    nodeValue <- Dom.nodeValue d node ;;
    if (startOffset =? 0) && (endOffset =? JsString.length nodeValue) then
      '(d1, affectedNode) <- _applyToWholeNode d node ;;
      Some (d1, [affectedNode])
    else
      parentNode <- Dom.parentNode d node ;;
      if startOffset =? 0 then
        let '(headNodeContainer, d1) := Dom.createElement d "span" in
        let headNodeContainer := classListAdd className headNodeContainer in
        let headNodeValue :=
          JsString.substring nodeValue startOffset endOffset in
        let '(headTextNode, d2) := Dom.createTextNode d1 headNodeValue in
        let headNodeContainer :=
          appendChildDetached headNodeContainer headTextNode in
        d3 <- Dom.insertBefore d2 parentNode headNodeContainer (Some node) ;;
        let originalTextNodeValueRemain :=
          JsString.substring nodeValue endOffset (JsString.length nodeValue) in
        let d4 := Dom.setNodeValue d3 node originalTextNodeValueRemain in
        Some (d4, [nodeId headNodeContainer])
      else
        let headNodeValue := JsString.substring nodeValue 0 startOffset in
        let d1 := Dom.setNodeValue d node headNodeValue in
        let nextSiblingNode := Dom.nextSibling d1 node in
        let '(middleNodeContainer, d2) := Dom.createElement d1 "span" in
        let middleNodeContainer := classListAdd className middleNodeContainer in
        let middleNodeValue :=
          JsString.substring nodeValue startOffset endOffset in
        let '(middleTextNode, d3) := Dom.createTextNode d2 middleNodeValue in
        let middleNodeContainer :=
          appendChildDetached middleNodeContainer middleTextNode in
        d4 <- Dom.insertBefore d3 parentNode middleNodeContainer
                               nextSiblingNode ;;
        if endOffset <? JsString.length nodeValue then
          let tailTextNodeValue :=
            JsString.substring nodeValue endOffset
                               (JsString.length nodeValue) in
          let '(tailTextNode, d5) := Dom.createTextNode d4 tailTextNodeValue in
          d6 <- Dom.insertBefore d5 parentNode tailTextNode nextSiblingNode ;;
          Some (d6, [nodeId middleNodeContainer])
        else
          Some (d4, [nodeId middleNodeContainer]).

(** [node.nodeValue === '\n'] *)
Definition isLineBreak (d : document) (i : nat) : bool :=
  match Dom.nodeValue d i with
  | Some v => String.eqb v JsString.newline
  | None => false
  end.

(** The loop over the middle nodes,
    [for (let idx = nodeAndOffsets.length - 2; idx > 0; idx--)];
    the argument [n] is [idx + 1] at the loop test. *)
Fixpoint applyToMiddleNodes (d : document) (nodeAndOffsets : NodeGroup)
         (n : nat) (affectedNodes : list nat) : option (document * list nat) :=
  match n with
  | O => Some (d, affectedNodes)
  | S O => Some (d, affectedNodes)
  | S (S _ as idx) =>
      nao <- nth_error nodeAndOffsets idx ;;
      if isLineBreak d (node nao) then
        applyToMiddleNodes d nodeAndOffsets idx affectedNodes
      else
        '(d1, affected) <- _applyToWholeNode d (node nao) ;;
        applyToMiddleNodes d1 nodeAndOffsets idx (affectedNodes ++ [affected])
  end.

(** The body of the loop of [applyToRanges] for one group, before the final
    [affectedNodes.reverse()]. *)
Definition applyToGroup (d : document) (nodeAndOffsets : NodeGroup)
  : option (document * list nat) :=
  let len := List.length nodeAndOffsets in
  if Nat.eqb len 2
     && Nat.eqb (node (nth 0 nodeAndOffsets (mkNodeAndOffset 0 0)))
                (node (nth 1 nodeAndOffsets (mkNodeAndOffset 0 0)))
  then
    first <- nth_error nodeAndOffsets 0 ;;
    second <- nth_error nodeAndOffsets 1 ;;
    _applyToNode d (node first) (offset first) (offset second)
  else if Nat.leb 2 len then
    let tailIdx := (len - 1)%nat in
    tailNodeAndOffset <- nth_error nodeAndOffsets tailIdx ;;
    '(d1, affectedNodes) <-
       (if 0 <? offset tailNodeAndOffset
        then _applyToNode d (node tailNodeAndOffset) 0
                          (offset tailNodeAndOffset)
        else Some (d, [])) ;;
    '(d2, affectedNodes) <-
       applyToMiddleNodes d1 nodeAndOffsets (len - 1) affectedNodes ;;
    headNodeAndOffset <- nth_error nodeAndOffsets 0 ;;
    headNodeValue <- Dom.nodeValue d2 (node headNodeAndOffset) ;;
    '(d3, nodes) <-
       _applyToNode d2 (node headNodeAndOffset) (offset headNodeAndOffset)
                    (JsString.length headNodeValue) ;;
    Some (d3, affectedNodes ++ nodes)
  else Some (d, []).

(** The loop over the groups, [for (let idx = length - 1; idx >= 0; idx--)];
    the argument [n] is [idx + 1] at the loop test. *)
Fixpoint applyToGroups (d : document) (nodeAndOffsetGroups : list NodeGroup)
         (n : nat) (affectedNodeGroups : list (list nat))
  : option (document * list (list nat)) :=
  match n with
  | O => Some (d, affectedNodeGroups)
  | S idx =>
      nodeAndOffsets <- nth_error nodeAndOffsetGroups idx ;;
      '(d1, affectedNodes) <- applyToGroup d nodeAndOffsets ;;
      applyToGroups d1 nodeAndOffsetGroups idx
                    (affectedNodeGroups ++ [rev affectedNodes])
  end.

Definition applyToRanges (d : document) (textSelections : list TextSelection)
  : option (document * list (list nat)) :=
  match textSelections with
  | [] => Some (d, [])
  | _ =>
      let nodeAndOffsetGroups := _findNodeAndOffsetGroups d textSelections in
      '(d1, affectedNodeGroups) <-
         applyToGroups d nodeAndOffsetGroups
                       (List.length nodeAndOffsetGroups) [] ;;
      Some (d1, rev affectedNodeGroups)
  end.

(** [clearElement(element)] *)
Definition clearElement (d : document) (element : nat) : option document :=
  self <- Dom.deref d element ;;
  match self with
  | Text _ _ => None
  | Element _ _ cl ch =>
      match ch with
      | [Text textNode _ as firstChild] =>
          if list_eq_dec string_dec cl [className] then
            parentNode <- Dom.parentNode d element ;;
            d1 <- Dom.insertBefore d parentNode firstChild (Some element) ;;
            d2 <- Dom.removeChild d1 parentNode element ;;
            d3 <- match Dom.previousSibling d2 textNode with
                  | Some previousSiblingNode =>
                      if Dom.isTextNode d2 previousSiblingNode then
                        pv <- Dom.nodeValue d2 previousSiblingNode ;;
                        tv <- Dom.nodeValue d2 textNode ;;
                        Dom.removeChild
                          (Dom.setNodeValue d2 textNode (pv ++ tv)%string)
                          parentNode previousSiblingNode
                      else Some d2
                  | None => Some d2
                  end ;;
            match Dom.nextSibling d3 textNode with
            | Some nextSiblingNode =>
                if Dom.isTextNode d3 nextSiblingNode then
                  tv <- Dom.nodeValue d3 textNode ;;
                  nv <- Dom.nodeValue d3 nextSiblingNode ;;
                  Dom.removeChild
                    (Dom.setNodeValue d3 textNode (tv ++ nv)%string)
                    parentNode nextSiblingNode
                else Some d3
            | None => Some d3
            end
          else Some (Dom.classListRemove d element className)
      | _ => Some (Dom.classListRemove d element className)
      end
  end.

(** The loop of [clear], [for (let idx = count - 1; idx >= 0; idx--)]. *)
Fixpoint clearElements (d : document) (spanElementList : list nat) (n : nat)
  : option document :=
  match n with
  | O => Some d
  | S idx =>
      element <- nth_error spanElementList idx ;;
      d1 <- clearElement d element ;;
      clearElements d1 spanElementList idx
  end.

Definition clear (d : document) : option (document * nat) :=
  let spanElementList := Dom.querySelectorAll d "span" className in
  let spanElementCount := List.length spanElementList in
  d1 <- clearElements d spanElementList spanElementCount ;;
  Some (d1, spanElementCount).

End Engine.

(* ================================================================== *)
(** ** Vocabulary of the specification and of its proof

    The notions in which the behaviour of the engine is stated: segments of
    strings, tree contexts, the leaves of the document in order with their
    styling, the shape of the tree, what the resolver and the mutator compute
    range by range, and the documents of the examples. *)

(** *** Lists, tree contexts and well-formed documents *)

(** The segment [[a, b)] of a list. *)
Definition seg {A : Type} (a b : nat) (l : list A) : list A :=
  firstn (b - a) (skipn a l).

Definition disjoint {A : Type} (l1 l2 : list A) : Prop :=
  forall a, In a l1 -> In a l2 -> False.

Record Frame : Type := mkFrame {
  frameId : nat;
  frameTag : string;
  frameClass : list string;
  before : list Node;
  after : list Node
}.

Definition fill (f : Frame) (x : Node) : Node :=
  Element (frameId f) (frameTag f) (frameClass f) (before f ++ x :: after f).

(** Innermost frame first. *)
Fixpoint plug (C : list Frame) (x : Node) : Node :=
  match C with
  | [] => x
  | f :: C' => plug C' (fill f x)
  end.

(** Node identities are distinct and below the next identity to hand out. *)
Definition wellFormed (d : document) : Prop :=
  NoDup (ids (rootElement d)) /\
  Forall (fun i => (i < nextId d)%nat) (ids (rootElement d)).

(** The document is some context around the element [p] with children [ch]. *)
Definition focused (d : document) (C : list Frame) (p : nat) (tg : string)
           (cl : list string) (ch : list Node) : Prop :=
  rootElement d = plug C (Element p tg cl ch).

(** *** What the mutator builds *)

(** A new container with one text child, as [_applyToNode] builds it. *)
Definition styledSpan (cls : string) (k : nat) (v : string) : Node :=
  Element k "span" [cls] [Text (S k) v].

(** What replaces the text node [n] with payload [v] when only a part
    [[s, e)] of it is styled, and the next identity afterwards: the split
    the specification describes. *)
Definition splitPieces (cls : string) (k n : nat) (v : string) (s e : Z)
  : list Node * nat :=
  let len := JsString.length v in
  if s =? 0 then
    ([styledSpan cls k (JsString.substring v 0 e);
      Text n (JsString.substring v e len)], S (S k))
  else if e <? len then
    ([Text n (JsString.substring v 0 s);
      styledSpan cls k (JsString.substring v s e);
      Text (S (S k)) (JsString.substring v e len)], S (S (S k)))
  else
    ([Text n (JsString.substring v 0 s);
      styledSpan cls k (JsString.substring v s e)], S (S k)).

(** What replaces the text node when it is wrapped whole and has siblings. *)
Definition wholeWrap (d : document) (cls : string) (C : list Frame)
           (p : nat) (tg : string) (cl : list string)
           (pre : list Node) (self : Node) (post : list Node)
  : document * nat :=
  match (pre ++ post)%list with
  | [] => (withRoot d (plug C (Element p tg (tokenAdd cls cl) [self])), p)
  | _ :: _ =>
      (mkDocument
         (plug C (Element p tg cl
                    (pre ++ Element (nextId d) "span" [cls] [self] :: post)))
         (S (nextId d)),
       nextId d)
  end.

(** *** The examples of the test suite and the wording of the specification *)

(** [<div>0123456789abcdefghij</div>] *)
Definition exampleDocument : document :=
  mkDocument (Element 0 "div" [] [Text 1 "0123456789abcdefghij"]) 2.

(** The notation of the specification's examples: a container with labels
    is written [<labels>...</labels>], one without labels is not shown. *)
Fixpoint markup (n : Node) : string :=
  match n with
  | Text _ v => v
  | Element _ _ cl ch =>
      let inner := fold_right String.append EmptyString (map markup ch) in
      match cl with
      | [] => inner
      | _ => ("<" ++ String.concat " " cl ++ ">" ++ inner ++
              "</" ++ String.concat " " cl ++ ">")%string
      end
  end.

(** The interior nodes of a group as the specification words it: from last
    to first, a node whose payload is the line break is skipped, every other
    one is wrapped whole. *)
Fixpoint wrapInterior (cls : string) (lastToFirst : list NodeAndOffset)
         (d : document) (affectedNodes : list nat)
  : option (document * list nat) :=
  match lastToFirst with
  | [] => Some (d, affectedNodes)
  | x :: rest =>
      if isLineBreak d (node x) then wrapInterior cls rest d affectedNodes
      else
        '(d1, affected) <- _applyToWholeNode cls d (node x) ;;
        wrapInterior cls rest d1 (affectedNodes ++ [affected])
  end.

(** Merging the relocated leaf with its neighbours, as the specification
    words it: a text sibling right before (after) is absorbed. *)
Definition mergeBefore (pre : list Node) : list Node * string :=
  match rev pre with
  | Text _ pv :: rest => (rev rest, pv)
  | _ => (pre, EmptyString)
  end.

Definition mergeAfter (post : list Node) : list Node * string :=
  match post with
  | Text _ nv :: rest => (rest, nv)
  | _ => (post, EmptyString)
  end.

Definition totalLength (nodes : list (nat * string)) : Z :=
  fold_right (fun nv acc => JsString.length (snd nv) + acc) 0 nodes.

(** The reading of the specification for offsets left over after the last
    text leaf: one pair [(lastLeaf, length)] for each of them. *)
Definition everyPendingResolved (d : document)
           (textSelections : list TextSelection) : Prop :=
  let walked := treeWalker (rootElement d) in
  let lastNode := last (map fst walked) (nodeId (rootElement d)) in
  let lastLength :=
    last (map (fun nv => JsString.length (snd nv)) walked)
         (rootLength (rootElement d)) in
  List.concat (_findNodeAndOffsetGroups d textSelections) =
  map (fun _ => mkNodeAndOffset lastNode lastLength)
      (positionsOf textSelections).

(** *** Leaves, styling and the shape of the tree *)

(** Whether an element carries the class. *)
Definition carries (cls : string) (cl : list string) : bool :=
  existsb (String.eqb cls) cl.

(** The text leaves of a subtree in document order, each with its payload
    and whether it lies under an element that carries the class ([inherited]
    says so for the ancestors of the subtree). *)
Fixpoint styledLeaves (cls : string) (inherited : bool) (n : Node)
  : list (nat * string * bool) :=
  match n with
  | Text i v => [(i, v, inherited)]
  | Element _ _ cl ch =>
      flat_map (styledLeaves cls (inherited || carries cls cl)) ch
  end.

(** Two text nodes next to each other in a child list. *)
Fixpoint adjacentText (ch : list Node) : bool :=
  match ch with
  | a :: rest =>
      match rest with
      | b :: _ => (isText a && isText b) || adjacentText rest
      | [] => false
      end
  | [] => false
  end.

(** No element of the subtree has two text children next to each other. *)
Fixpoint normalized (n : Node) : bool :=
  match n with
  | Text _ _ => true
  | Element _ _ _ ch => negb (adjacentText ch) && forallb normalized ch
  end.

(** Every element of the subtree is a [span]. *)
Fixpoint allSpans (n : Node) : bool :=
  match n with
  | Text _ _ => true
  | Element _ tg _ ch => String.eqb tg "span" && forallb allSpans ch
  end.

(** The documented precondition of the module: under the root there is
    only text and [span] elements. *)
Definition spansUnder (root : Node) : bool :=
  forallb allSpans (childNodesOf root).

(** The elements of a subtree that carry the class, whatever their tag. *)
Fixpoint carriersOf (cls : string) (n : Node) : list nat :=
  match n with
  | Text _ _ => []
  | Element i _ cl ch =>
      (if carries cls cl then [i] else []) ++ flat_map (carriersOf cls) ch
  end.

Definition carriersUnder (cls : string) (root : Node) : list nat :=
  flat_map (carriersOf cls) (childNodesOf root).

(** What the mutator and the remover keep of the shape of the tree. *)
Definition shapeKept (r r' : Node) : Prop :=
  (normalized r = true -> normalized r' = true) /\
  (spansUnder r = true -> spansUnder r' = true).

Definition firstIsText (ch : list Node) : bool :=
  match ch with x :: _ => isText x | [] => false end.

Definition lastIsText (ch : list Node) : bool := firstIsText (rev ch).

Definition tagOf (n : Node) : option string :=
  match n with Text _ _ => None | Element _ tg _ _ => Some tg end.

(** The leaves of the document under its root, with their styling. *)
Definition leaves (cls : string) (d : document) : list (nat * string * bool) :=
  styledLeaves cls false (rootElement d).

(** What a leaf [(n, v, b)] becomes under [_applyToNode(n, s, e)], [k] being
    the next identity. *)
Definition leafPieces (k n : nat) (v : string) (b : bool) (s e : Z)
  : list (nat * string * bool) :=
  let len := JsString.length v in
  if s =? e then [(n, v, b)]
  else if (s =? 0) && (e =? len) then [(n, v, true)]
  else if s =? 0 then
    [(S k, JsString.substring v 0 e, true); (n, JsString.substring v e len, b)]
  else if e <? len then
    [(n, JsString.substring v 0 s, b); (S k, JsString.substring v s e, true);
     (S (S k), JsString.substring v e len, b)]
  else
    [(n, JsString.substring v 0 s, b); (S k, JsString.substring v s e, true)].

(** *** Groups and the state of the search *)

(** A group the mutator can take: from two entries on, every node is a
    text leaf of the document, and two entries on the same node have their
    offsets in order. *)
Definition groupOk (leafIds : list nat) (g : NodeGroup) : Prop :=
  ((2 <= List.length g)%nat -> Forall (fun x => In (node x) leafIds) g) /\
  (forall a b, g = [a; b] -> node a = node b -> offset a <= offset b).

Definition rangesOk (ps : list Z) : Prop :=
  exists sels, ps = positionsOf sels /\
               Forall (fun r => selStart r <= selEnd r) sels.

(** The group under construction while the leaf [c] is examined: empty
    when a start is searched; otherwise it begins with the start pair, which
    is on an earlier leaf or on [c] itself with an offset that the end
    searched cannot precede. *)
Definition currentOk (visited : list nat) (c : nat) (ws we pos : Z)
           (isEnd : bool) (cur : NodeGroup) : Prop :=
  if isEnd then
    exists a o ints,
      cur = mkNodeAndOffset a o :: ints /\
      ((In a visited /\ Forall (fun x => In (node x) (c :: visited)) ints) \/
       (a = c /\ ints = [] /\ o <= pos - ws /\ o <= we - ws))
  else cur = [].

Definition pendingOk (isEnd : bool) (pos : Z) (poss : list Z) : Prop :=
  if isEnd then rangesOk poss else rangesOk (pos :: poss).

(** *** Content of the leaves and what the remover leaves *)

Definition leafId (l : nat * string * bool) : nat := fst (fst l).

Definition leafValue (l : nat * string * bool) : string := snd (fst l).

Definition leafText (ls : list (nat * string * bool)) : string :=
  fold_right String.append EmptyString (map leafValue ls).

(** The state of the document while the groups of [d0] are applied. *)
Definition preserved (className : string) (d0 d : document) : Prop :=
  wellFormed d /\ isText (rootElement d) = false /\
  incl (map leafId (leaves className d0)) (map leafId (leaves className d)) /\
  leafText (leaves className d) = leafText (leaves className d0) /\
  shapeKept (rootElement d0) (rootElement d).

(** What [clearElement] leaves of the children of the parent. *)
Definition clearedChildren (className : string) (pre post : list Node)
           (e : nat) (tge : string) (cle : list string) (che : list Node)
  : list Node :=
  match che with
  | [Text t v] =>
      if list_eq_dec string_dec cle [className] then
        (fst (mergeBefore pre) ++
         Text t ((snd (mergeBefore pre) ++ v) ++ snd (mergeAfter post))%string
           :: fst (mergeAfter post))%list
      else (pre ++ Element e tge (tokenRemove className cle) che :: post)%list
  | _ => (pre ++ Element e tge (tokenRemove className cle) che :: post)%list
  end.

Definition joined (l : list string) : string :=
  fold_right String.append EmptyString l.

Definition selected (tag cls : string) (root : Node) : list nat :=
  flat_map (matching tag cls) (childNodesOf root).

(** *** The group of a range *)

Definition pairs0 (M : list (nat * string)) : NodeGroup :=
  map (fun x => mkNodeAndOffset (fst x) 0) M.

Fixpoint ascending (lo : Z) (ps : list Z) : Prop :=
  match ps with
  | [] => True
  | p :: rest => lo <= p /\ ascending p rest
  end.

(** The group of the range [[s, e)] over the leaves [W]: the start lies in
    a leaf [(n, v)] after the leaves [P]; the end lies in the same leaf, or
    in a later leaf after the leaves [M] in between, or beyond the text. *)
Inductive GroupAt (W : list (nat * string)) (s e : Z) : NodeGroup -> Prop :=
| GroupSame (P S : list (nat * string)) (n : nat) (v : string) :
    W = (P ++ (n, v) :: S)%list ->
    totalLength P <= s -> s <= e ->
    e <= totalLength P + JsString.length v - 1 ->
    GroupAt W s e [mkNodeAndOffset n (s - totalLength P);
                   mkNodeAndOffset n (e - totalLength P)]
| GroupMulti (P M S : list (nat * string)) (n m : nat) (v w : string) :
    W = (P ++ (n, v) :: M ++ (m, w) :: S)%list ->
    totalLength P <= s -> s <= totalLength P + JsString.length v - 1 ->
    totalLength (P ++ (n, v) :: M) <= e ->
    e <= totalLength (P ++ (n, v) :: M) + JsString.length w - 1 ->
    GroupAt W s e
            (mkNodeAndOffset n (s - totalLength P) :: pairs0 M ++
             [mkNodeAndOffset m (e - totalLength (P ++ (n, v) :: M))])
| GroupEndSame (P : list (nat * string)) (n : nat) (v : string) :
    W = (P ++ [(n, v)])%list ->
    totalLength P <= s -> s <= totalLength P + JsString.length v - 1 ->
    totalLength W <= e ->
    GroupAt W s e [mkNodeAndOffset n (s - totalLength P);
                   mkNodeAndOffset n (JsString.length v)]
| GroupEndMulti (P M : list (nat * string)) (n m : nat) (v w : string) :
    W = (P ++ (n, v) :: M ++ [(m, w)])%list ->
    totalLength P <= s -> s <= totalLength P + JsString.length v - 1 ->
    totalLength W <= e ->
    GroupAt W s e
            (mkNodeAndOffset n (s - totalLength P) ::
             pairs0 (M ++ [(m, w)]) ++
             [mkNodeAndOffset m (JsString.length w)]).

(** The result of the search: a group for each range whose start lies in
    the text, then at most leftovers of at most one entry; the ranges
    without a group start at or after the end of the text. *)
Definition Resolved (W : list (nat * string)) (sels : list TextSelection)
           (result : list NodeGroup) : Prop :=
  exists realSels dropped realGroups junk,
    sels = (realSels ++ dropped)%list /\
    result = (realGroups ++ junk)%list /\
    Forall2 (fun r g => GroupAt W (selStart r) (selEnd r) g)
            realSels realGroups /\
    Forall (fun g => (List.length g <= 1)%nat) junk /\
    Forall (fun r => totalLength W <= selStart r) dropped.

(** The state of the search while the leaf [(n, v)] is examined, [V] being
    the leaves before it. *)
Definition searching (W : list (nat * string)) (sels : list TextSelection)
           (V : list (nat * string)) (n : nat) (v : string)
           (pos : Z) (poss : list Z) (isEnd : bool)
           (gs : list NodeGroup) (cur : NodeGroup) : Prop :=
  let ws := totalLength V in
  let we := ws + JsString.length v - 1 in
  exists done pending,
    Forall2 (fun r g => GroupAt W (selStart r) (selEnd r) g) done gs /\
    ws <= pos /\ ascending pos poss /\
    if isEnd then
      exists sCur,
        sels = (done ++ mkTextSelection sCur pos :: pending)%list /\
        poss = positionsOf pending /\
        ((exists P h w M,
             V = (P ++ (h, w) :: M)%list /\
             totalLength P <= sCur /\
             sCur <= totalLength P + JsString.length w - 1 /\
             ((we < pos /\
               cur = mkNodeAndOffset h (sCur - totalLength P)
                       :: pairs0 (M ++ [(n, v)])) \/
              (pos <= we /\
               cur = mkNodeAndOffset h (sCur - totalLength P) :: pairs0 M)))
         \/
         (ws <= sCur /\ sCur <= we /\ sCur <= pos /\
          cur = [mkNodeAndOffset n (sCur - ws)]))
    else
      cur = [] /\ pos :: poss = positionsOf pending /\
      sels = (done ++ pending)%list.

(** The state of the search between two leaves. *)
Definition walking (W : list (nat * string)) (sels : list TextSelection)
           (V : list (nat * string)) (s : Search) : Prop :=
  exists done pending,
    Forall2 (fun r g => GroupAt W (selStart r) (selEnd r) g) done (groups s) /\
    totalLength V <= position s /\
    ascending (position s) (positions s) /\
    if isFindingTextSelectionEndPos s then
      exists sCur P h w M,
        sels = (done ++ mkTextSelection sCur (position s) :: pending)%list /\
        positions s = positionsOf pending /\
        V = (P ++ (h, w) :: M)%list /\
        totalLength P <= sCur /\
        sCur <= totalLength P + JsString.length w - 1 /\
        nodeAndOffsets s =
        mkNodeAndOffset h (sCur - totalLength P) :: pairs0 M
    else
      nodeAndOffsets s = [] /\
      position s :: positions s = positionsOf pending /\
      sels = (done ++ pending)%list.

Definition lastVisited (V : list (nat * string)) (lastNode : nat)
           (lastLength : Z) : Prop :=
  V = [] \/
  exists V0 lv, V = (V0 ++ [(lastNode, lv)])%list /\
                lastLength = JsString.length lv.

(** *** Characters, their styling and the untouched front *)

Definition textLen (ls : list (nat * string * bool)) : Z :=
  totalLength (map fst ls).

(** Whether the character at index [i] of the text lies in a leaf under an
    element that carries the class. *)
Fixpoint styledAt (ls : list (nat * string * bool)) (i : Z) : bool :=
  match ls with
  | [] => false
  | (_, v, b) :: rest =>
      if i <? JsString.length v then b
      else styledAt rest (i - JsString.length v)
  end.

(** The payload of the leaf that holds the character at index [i]. *)
Fixpoint valueAt (W : list (nat * string)) (i : Z) : option string :=
  match W with
  | [] => None
  | (_, v) :: rest =>
      if i <? JsString.length v then Some v
      else valueAt rest (i - JsString.length v)
  end.

Definition covers (ls : list (nat * string * bool)) (lo hi : Z) : Prop :=
  forall i, lo <= i < hi -> styledAt ls i = true.

Definition monotone (F F' : list (nat * string * bool)) : Prop :=
  textLen F = textLen F' /\
  forall i, 0 <= i -> styledAt F i = true -> styledAt F' i = true.

Definition startsNonempty (R : list (nat * string * bool)) : Prop :=
  match R with
  | [] => True
  | (_, v, _) :: _ => 0 < JsString.length v
  end.

(** While the groups are applied from last to first, the leaves before the
    index [T] are those of the original list [F0]: whole leaves [A], then
    possibly the first [T - textLen A] characters of the next one. *)
Definition front (F0 F : list (nat * string * bool)) (T : Z) : Prop :=
  exists A R part S,
    F0 = (A ++ R)%list /\ F = (A ++ part ++ S)%list /\
    T = textLen A + textLen part /\ startsNonempty R /\
    (part = [] \/
     exists n v b v' b' R',
       R = (n, v, b) :: R' /\ part = [(n, v', b')] /\
       0 < JsString.length v' < JsString.length v).

Definition good (d : document) : Prop :=
  wellFormed d /\ isText (rootElement d) = false.

(** What the loop over the interior nodes does to a leaf. *)
Definition wrapWhole (l : nat * string * bool) : nat * string * bool :=
  let '(x, vx, bx) := l in
  (x, vx, bx || negb (String.eqb vx JsString.newline)).

(** Every character of [[s, e)] is styled, but for the line breaks that
    make up a whole leaf after the one in which the range starts. *)
Definition coveredButLineBreaks (F0 F' : list (nat * string * bool))
           (s e : Z) : Prop :=
  forall i, s <= i < e -> i < textLen F0 ->
    styledAt F' i = true \/
    (valueAt (map fst F0) i = Some JsString.newline /\ s < i).

Definition groupDone (cls : string) (F0 : list (nat * string * bool))
           (d : document) (g : NodeGroup) (s e : Z) : Prop :=
  exists d' aff T',
    applyToGroup cls d g = Some (d', aff) /\ good d' /\
    front F0 (leaves cls d') T' /\ s <= T' /\
    monotone (leaves cls d) (leaves cls d') /\
    coveredButLineBreaks F0 (leaves cls d') s e.

Fixpoint ascendingTo (lo : Z) (ps : list Z) (hi : Z) : Prop :=
  match ps with
  | [] => lo <= hi
  | p :: rest => lo <= p /\ ascendingTo p rest hi
  end.

(** [<div><span>abc</span>\n<span>def</span></div>], the line break being a
    text node between the two elements. *)
Definition lineBreakDocument : document :=
  mkDocument
    (Element 0 "div" []
       [Element 1 "span" [] [Text 2 "abc"];
        Text 3 JsString.newline;
        Element 4 "span" [] [Text 5 "def"]]) 6.

(** Coverage as the specification words it: after [applyToRanges] every
    character of every requested range lies in a leaf under an element that
    carries the class. *)
Definition everyCharacterStyled (cls : string) (d : document)
           (textSelections : list TextSelection) : Prop :=
  exists d' affectedNodeGroups,
    applyToRanges cls d textSelections = Some (d', affectedNodeGroups) /\
    forall r i, In r textSelections -> selStart r <= i < selEnd r ->
                styledAt (leaves cls d') i = true.

(** *** Further notions: entries of the resolver and examples *)

(** An entry of a group is a boundary point of the tree: a text leaf with
    an offset between 0 and the length of its payload, or, when the tree
    has no text at all, the root with its own length. *)
Definition entryOk (d : document) (x : NodeAndOffset) : Prop :=
  (exists v, In (node x, v) (treeWalker (rootElement d)) /\
             0 <= offset x <= JsString.length v) \/
  (treeWalker (rootElement d) = [] /\
   x = mkNodeAndOffset (nodeId (rootElement d))
                       (rootLength (rootElement d))).

(** [<div>012<span class="foo">345</span>6789abcdefghij</div>] *)
Definition styledDocument : document :=
  mkDocument
    (Element 0 "div" []
       [Text 1 "012"; Element 2 "span" ["foo"%string] [Text 3 "345"];
        Text 4 "6789abcdefghij"]) 5.

(** Going from the leaves [F] to the leaves [F'], styling was added only
    to characters at an index in [[lo, hi)]. *)
Definition styledOnlyIn (F F' : list (nat * string * bool)) (lo hi : Z)
  : Prop :=
  textLen F = textLen F' /\
  forall i, 0 <= i -> styledAt F' i = true ->
            styledAt F i = true \/ lo <= i < hi.

(** What applying the group of the range [[s, e)] does, with nothing styled
    outside the range. *)
Definition groupExact (cls : string) (F0 : list (nat * string * bool))
           (d : document) (g : NodeGroup) (s e : Z) : Prop :=
  exists d' aff T',
    applyToGroup cls d g = Some (d', aff) /\ good d' /\
    front F0 (leaves cls d') T' /\ s <= T' /\
    monotone (leaves cls d) (leaves cls d') /\
    coveredButLineBreaks F0 (leaves cls d') s e /\
    styledOnlyIn (leaves cls d) (leaves cls d') s e.

(** The element [m] of the document carries the class. *)
Definition carrier (cls : string) (d : document) (m : nat) : Prop :=
  In m (carriersOf cls (rootElement d)).

(** Every element that carries the class in [d] still does in [d']. *)
Definition carriersGrow (cls : string) (d d' : document) : Prop :=
  forall i, carrier cls d i -> carrier cls d' i.

(** Two lists of leaves style the same characters. *)
Definition sameStyling (F F' : list (nat * string * bool)) : Prop :=
  textLen F = textLen F' /\
  forall i, 0 <= i -> styledAt F i = styledAt F' i.

(** A leaf with its styling set to [b]. *)
Definition recolor (b : bool) (l : nat * string * bool)
  : nat * string * bool :=
  (fst (fst l), snd (fst l), b).

(** The result of the "cross style" test:
    [<div>01234<span class="foo">56789<span class="bar">abc</span></span>
    <span class="bar">def</span>ghij</div>] *)
Definition twoStylesDocument : document :=
  mkDocument
    (Element 0 "div" []
       [Text 1 "01234";
        Element 2 "span" ["foo"%string]
          [Text 3 "56789"; Element 4 "span" ["bar"%string] [Text 5 "abc"]];
        Element 6 "span" ["bar"%string] [Text 7 "def"];
        Text 8 "ghij"]) 9.

(* ================================================================== *)
(** ** Facts on strings and lists *)

Section StringFacts.

Lemma chars_append (a b : string) :
  list_ascii_of_string (a ++ b) =
  (list_ascii_of_string a ++ list_ascii_of_string b)%list.
Proof. induction a as [|c a IH]; simpl; [reflexivity | now rewrite IH]. Qed.

Lemma chars_length (s : string) :
  List.length (list_ascii_of_string s) = String.length s.
Proof. induction s as [|c s IH]; simpl; [reflexivity | now rewrite IH]. Qed.

Lemma chars_substring (s : string) :
  forall n m, list_ascii_of_string (String.substring n m s) =
              firstn m (skipn n (list_ascii_of_string s)).
Proof.
  induction s as [|c s IH]; intros n m.
  - destruct n, m; reflexivity.
  - destruct n as [|n].
    + destruct m as [|m]; simpl; [reflexivity | now rewrite IH].
    + simpl. apply IH.
Qed.

Lemma chars_inj (a b : string) :
  list_ascii_of_string a = list_ascii_of_string b -> a = b.
Proof.
  intros H. rewrite <- (string_of_list_ascii_of_string a),
              <- (string_of_list_ascii_of_string b).
  now rewrite H.
Qed.

Lemma firstn_plus {A : Type} (n m : nat) :
  forall l : list A,
    firstn (n + m) l = (firstn n l ++ firstn m (skipn n l))%list.
Proof.
  induction n as [|n IH]; intros [|x l]; simpl; try reflexivity.
  - now rewrite firstn_nil.
  - now rewrite IH.
Qed.

Lemma seg_app {A : Type} (l : list A) (a b c : nat) :
  (a <= b)%nat -> (b <= c)%nat ->
  (seg a b l ++ seg b c l)%list = seg a c l.
Proof.
  unfold seg. intros Hab Hbc.
  replace (c - a)%nat with ((b - a) + (c - b))%nat by lia.
  rewrite firstn_plus. f_equal.
  rewrite skipn_skipn. do 2 f_equal. lia.
Qed.

Lemma seg_all {A : Type} (l : list A) : seg 0 (List.length l) l = l.
Proof. unfold seg. simpl. rewrite Nat.sub_0_r. apply firstn_all. Qed.

Lemma seg_nil {A : Type} (l : list A) (a : nat) : seg a a l = [].
Proof. unfold seg. now rewrite Nat.sub_diag. Qed.

Lemma chars_jsSubstring (v : string) (a b : Z) :
  let A := Z.to_nat (JsString.clamp (JsString.length v) a) in
  let B := Z.to_nat (JsString.clamp (JsString.length v) b) in
  list_ascii_of_string (JsString.substring v a b) =
  seg (Nat.min A B) (Nat.max A B) (list_ascii_of_string v).
Proof.
  intros A B. unfold JsString.substring. rewrite chars_substring.
  unfold seg. subst A B. unfold JsString.clamp.
  f_equal; [| f_equal]; lia.
Qed.

Lemma clamp_range (len x : Z) :
  0 <= len -> 0 <= JsString.clamp len x <= len.
Proof. unfold JsString.clamp. lia. Qed.

Lemma jsLength_nonneg (v : string) : 0 <= JsString.length v.
Proof. unfold JsString.length. lia. Qed.

(** Splitting a payload at one offset loses nothing, whatever the offset. *)
Lemma substring_split2 (v : string) (e : Z) :
  (JsString.substring v 0 e ++
   JsString.substring v e (JsString.length v))%string = v.
Proof.
  apply chars_inj. rewrite chars_append, !chars_jsSubstring.
  pose proof (jsLength_nonneg v) as HL.
  pose proof (clamp_range (JsString.length v) e HL) as He.
  replace (Z.to_nat (JsString.clamp (JsString.length v) 0)) with 0%nat
    by (unfold JsString.clamp; lia).
  replace (Z.to_nat (JsString.clamp (JsString.length v) (JsString.length v)))
    with (List.length (list_ascii_of_string v))
    by (rewrite chars_length; unfold JsString.clamp, JsString.length; lia).
  set (E := Z.to_nat (JsString.clamp (JsString.length v) e)).
  assert (HE : (E <= List.length (list_ascii_of_string v))%nat)
    by (rewrite chars_length; unfold JsString.length in *; lia).
  rewrite Nat.min_0_l, Nat.max_0_l, Nat.min_l, Nat.max_r by lia.
  rewrite seg_app by lia. apply seg_all.
Qed.

(** Splitting a payload at two ordered offsets loses nothing either. *)
Lemma substring_split3 (v : string) (s e : Z) :
  s <= e ->
  (JsString.substring v 0 s ++ JsString.substring v s e ++
   (if (e <? JsString.length v)%Z
    then JsString.substring v e (JsString.length v) else EmptyString))%string = v.
Proof.
  intros Hse. apply chars_inj. rewrite !chars_append.
  pose proof (jsLength_nonneg v) as HL.
  pose proof (clamp_range (JsString.length v) e HL) as He.
  pose proof (clamp_range (JsString.length v) s HL) as Hs.
  assert (Htail :
    list_ascii_of_string
      (if e <? JsString.length v
       then JsString.substring v e (JsString.length v) else EmptyString) =
    seg (Z.to_nat (JsString.clamp (JsString.length v) e))
        (List.length (list_ascii_of_string v)) (list_ascii_of_string v)).
  { rewrite chars_length. destruct (Z.ltb_spec e (JsString.length v)).
    - rewrite chars_jsSubstring. f_equal;
        unfold JsString.clamp, JsString.length in *; lia.
    - replace (Z.to_nat (JsString.clamp (JsString.length v) e))
        with (String.length v)
        by (unfold JsString.clamp, JsString.length in *; lia).
      now rewrite seg_nil. }
  rewrite Htail, !chars_jsSubstring.
  replace (Z.to_nat (JsString.clamp (JsString.length v) 0)) with 0%nat
    by (unfold JsString.clamp; lia).
  set (E := Z.to_nat (JsString.clamp (JsString.length v) e)).
  set (S := Z.to_nat (JsString.clamp (JsString.length v) s)).
  assert (HS : (S <= E)%nat) by (unfold S, E, JsString.clamp; lia).
  assert (HE : (E <= List.length (list_ascii_of_string v))%nat)
    by (rewrite chars_length; unfold JsString.length in *; lia).
  rewrite Nat.min_0_l, Nat.max_0_l, Nat.min_l, Nat.max_r by lia.
  rewrite !seg_app by lia. apply seg_all.
Qed.

End StringFacts.

(* ================================================================== *)
(** ** Reasoning on trees *)

Lemma Node_induction (P : Node -> Prop) :
  (forall i v, P (Text i v)) ->
  (forall i tg cl ch, Forall P ch -> P (Element i tg cl ch)) ->
  forall n, P n.
Proof.
  intros P_Text P_Element. fix IH 1.
  intros [i v | i tg cl ch]; [apply P_Text | apply P_Element].
  induction ch as [|c ch IHch]; constructor; [apply IH | exact IHch].
Qed.

Lemma NoDup_app_iff {A : Type} (l1 l2 : list A) :
  NoDup (l1 ++ l2) <-> NoDup l1 /\ NoDup l2 /\ disjoint l1 l2.
Proof.
  unfold disjoint. split.
  - intros H. split; [| split].
    + eapply NoDup_app_remove_r; eauto.
    + eapply NoDup_app_remove_l; eauto.
    + induction l1 as [|x l1 IH]; simpl in *; [tauto |].
      inversion H; subst. intros a [-> | Ha] Hb.
      * apply H2. apply in_or_app. now right.
      * eapply IH; eauto.
  - intros (H1 & H2 & H3).
    apply NoDup_app; auto; intros a Ha Hb; eapply H3; eauto.
Qed.

Lemma disjoint_app_l {A : Type} (a b c : list A) :
  disjoint (a ++ b) c <-> disjoint a c /\ disjoint b c.
Proof.
  unfold disjoint. split.
  - intros H. split; intros x Hx; apply H; apply in_or_app; auto.
  - intros [H1 H2] x Hx. apply in_app_or in Hx. destruct Hx; eauto.
Qed.

Lemma disjoint_app_r {A : Type} (a b c : list A) :
  disjoint a (b ++ c) <-> disjoint a b /\ disjoint a c.
Proof.
  unfold disjoint. split.
  - intros H. split; intros x Hx Hy; apply (H x Hx); apply in_or_app; auto.
  - intros [H1 H2] x Hx Hy. apply in_app_or in Hy. destruct Hy; eauto.
Qed.

Lemma disjoint_cons_l {A : Type} (x : A) (a c : list A) :
  disjoint (x :: a) c <-> ~ In x c /\ disjoint a c.
Proof.
  unfold disjoint. simpl. split.
  - intros H. split; [intros Hx; eapply H; eauto | intros y Hy; eauto].
  - intros [H1 H2] y [-> | Hy]; eauto.
Qed.

Lemma disjoint_cons_r {A : Type} (x : A) (a c : list A) :
  disjoint a (x :: c) <-> ~ In x a /\ disjoint a c.
Proof.
  unfold disjoint. simpl. split.
  - intros H. split; [intros Hx; eapply H; eauto | intros y Hy Hc; eauto].
  - intros [H1 H2] y Hy [-> | Hc]; eauto.
Qed.

Lemma disjoint_nil_l {A : Type} (c : list A) : disjoint [] c <-> True.
Proof. unfold disjoint. simpl. tauto. Qed.

Lemma disjoint_nil_r {A : Type} (c : list A) : disjoint c [] <-> True.
Proof. unfold disjoint. simpl. tauto. Qed.

Lemma NoDup_nil_iff {A : Type} : NoDup (@nil A) <-> True.
Proof. split; auto using NoDup_nil. Qed.

(** Breaks [NoDup] and [In] facts over appended identity lists into atoms. *)
Ltac ids_atoms :=
  repeat (rewrite ?flat_map_app, ?NoDup_app_iff, ?NoDup_cons_iff,
            ?NoDup_nil_iff,
            ?disjoint_app_l, ?disjoint_app_r, ?disjoint_cons_l,
            ?disjoint_cons_r, ?disjoint_nil_l, ?disjoint_nil_r,
            ?in_app_iff in *; simpl in *).

Ltac incl_solve :=
  let i := fresh "i" in
  intros i; repeat (rewrite ?flat_map_app, ?in_app_iff; simpl); tauto.

Ltac ids_solve :=
  ids_atoms; unfold disjoint in *;
  intuition (subst; eauto; try lia; try congruence).

Lemma nodeId_in_ids (n : Node) : In (nodeId n) (ids n).
Proof. destruct n; simpl; auto. Qed.

Lemma firstSome_app_None {A : Type} (l r : list (option A)) :
  Forall (fun o => o = None) l -> firstSome (l ++ r) = firstSome r.
Proof. induction 1 as [|o l Ho _ IH]; simpl; [reflexivity | now subst]. Qed.

Lemma find_notin (i : nat) (n : Node) : ~ In i (ids n) -> find i n = None.
Proof.
  induction n as [j v | j tg cl ch IH] using Node_induction; simpl; intros H.
  - destruct (Nat.eqb_spec j i); [tauto | reflexivity].
  - destruct (Nat.eqb_spec j i); [tauto |].
    induction IH as [|c ch Hc _ IHch]; simpl in *; [reflexivity |].
    rewrite Hc by (rewrite in_app_iff in H; tauto).
    apply IHch. rewrite in_app_iff in H. tauto.
Qed.

Lemma find_in (i : nat) (n : Node) :
  In i (ids n) -> exists x, find i n = Some x /\ nodeId x = i.
Proof.
  induction n as [j v | j tg cl ch IH] using Node_induction; simpl; intros H.
  - destruct H as [-> | []]. rewrite Nat.eqb_refl. eauto.
  - destruct (Nat.eqb_spec j i) as [-> | Hne]; [eauto |].
    destruct H as [H | H]; [congruence |].
    induction IH as [|c ch Hc _ IHch]; simpl in *; [tauto |].
    destruct (find i c) as [x |] eqn:Hf.
    + exists x. split; [reflexivity |].
      destruct (in_dec Nat.eq_dec i (ids c)) as [Hin | Hnin].
      * destruct (Hc Hin) as (y & Hy & Hid). congruence.
      * rewrite find_notin in Hf by assumption. discriminate.
    + apply IHch. rewrite in_app_iff in H. destruct H as [H | H]; [| assumption].
      destruct (Hc H) as (y & Hy & _). congruence.
Qed.

Lemma update_notin (i : nat) (f : Node -> Node) (n : Node) :
  ~ In i (ids n) -> update i f n = n.
Proof.
  induction n as [j v | j tg cl ch IH] using Node_induction; simpl; intros H.
  - destruct (Nat.eqb_spec j i); [tauto | reflexivity].
  - destruct (Nat.eqb_spec j i); [tauto |]. f_equal.
    induction IH as [|c ch Hc _ IHch]; simpl in *; [reflexivity |].
    rewrite in_app_iff in H. rewrite Hc, IHch by tauto. reflexivity.
Qed.

Lemma detach_notin (i : nat) (n : Node) : ~ In i (ids n) -> detach i n = n.
Proof.
  induction n as [j v | j tg cl ch IH] using Node_induction; simpl; intros H.
  - reflexivity.
  - f_equal.
    induction IH as [|c ch Hc _ IHch]; simpl in *; [reflexivity |].
    rewrite in_app_iff in H. rewrite Hc by tauto.
    destruct (Nat.eqb_spec (nodeId c) i) as [He | He].
    + exfalso. apply H. right. left. rewrite <- He. apply nodeId_in_ids.
    + simpl. rewrite IHch by tauto. reflexivity.
Qed.

Lemma existsb_id_notin (i : nat) (l : list Node) :
  ~ In i (flat_map ids l) ->
  existsb (fun c => Nat.eqb (nodeId c) i) l = false.
Proof.
  induction l as [|c l IH]; simpl; intros H; [reflexivity |].
  rewrite in_app_iff in H.
  destruct (Nat.eqb_spec (nodeId c) i) as [He | He].
  - exfalso. apply H. left. rewrite <- He. apply nodeId_in_ids.
  - simpl. apply IH. tauto.
Qed.

Lemma parentOf_notin (i : nat) (n : Node) :
  ~ In i (ids n) -> parentOf i n = None.
Proof.
  induction n as [j v | j tg cl ch IH] using Node_induction; simpl; intros H.
  - reflexivity.
  - rewrite existsb_id_notin by tauto.
    induction IH as [|c ch Hc _ IHch]; simpl in *; [reflexivity |].
    rewrite in_app_iff in H. rewrite Hc by tauto. apply IHch. tauto.
Qed.

Lemma parentOf_in (i : nat) (n : Node) :
  In i (ids n) -> i <> nodeId n -> exists p, parentOf i n = Some p.
Proof.
  induction n as [j v | j tg cl ch IH] using Node_induction; simpl;
    intros H Hne.
  - intuition congruence.
  - destruct H as [H | H]; [congruence |].
    destruct (existsb _ ch) eqn:Hex; [eauto |].
    clear Hne. induction IH as [|c ch Hc _ IHch]; simpl in *; [tauto |].
    apply orb_false_iff in Hex. destruct Hex as [Hc' Hex].
    destruct (parentOf i c) as [p |] eqn:Hp; [eauto |].
    apply IHch; [| assumption]. rewrite in_app_iff in H.
    destruct H as [H | H]; [| assumption].
    destruct (Hc H) as (p & Hp'); [| congruence].
    intros ->. rewrite Nat.eqb_refl in Hc'. discriminate.
Qed.

(* ------------------------------------------------------------------ *)
(** *** Child lists under distinct identities *)

Lemma map_update_notin (i : nat) (f : Node -> Node) (l : list Node) :
  ~ In i (flat_map ids l) -> map (update i f) l = l.
Proof.
  induction l as [|c l IH]; simpl; intros H; [reflexivity |].
  rewrite in_app_iff in H. rewrite update_notin, IH by tauto. reflexivity.
Qed.

Lemma filter_detach_notin (i : nat) (l : list Node) :
  ~ In i (flat_map ids l) ->
  filter (fun c => negb (Nat.eqb (nodeId c) i)) (map (detach i) l) = l.
Proof.
  induction l as [|c l IH]; simpl; intros H; [reflexivity |].
  rewrite in_app_iff in H. rewrite detach_notin by tauto.
  destruct (Nat.eqb_spec (nodeId c) i) as [He | He].
  - exfalso. apply H. left. rewrite <- He. apply nodeId_in_ids.
  - simpl. rewrite IH by tauto. reflexivity.
Qed.

Lemma filter_id_notin (i : nat) (l : list Node) :
  ~ In i (flat_map ids l) ->
  filter (fun c => negb (Nat.eqb (nodeId c) i)) l = l.
Proof.
  induction l as [|c l IH]; simpl; intros H; [reflexivity |].
  rewrite in_app_iff in H.
  destruct (Nat.eqb_spec (nodeId c) i) as [He | He].
  - exfalso. apply H. left. rewrite <- He. apply nodeId_in_ids.
  - simpl. rewrite IH by tauto. reflexivity.
Qed.

Lemma firstSome_find_notin (i : nat) (l r : list Node) :
  ~ In i (flat_map ids l) ->
  firstSome (map (find i) (l ++ r)) = firstSome (map (find i) r).
Proof.
  intros H. rewrite map_app. apply firstSome_app_None.
  apply Forall_map. apply Forall_forall. intros c Hc. apply find_notin.
  intros Hi. apply H. apply in_flat_map. eauto.
Qed.

Lemma firstSome_parentOf_notin (i : nat) (l r : list Node) :
  ~ In i (flat_map ids l) ->
  firstSome (map (parentOf i) (l ++ r)) = firstSome (map (parentOf i) r).
Proof.
  intros H. rewrite map_app. apply firstSome_app_None.
  apply Forall_map. apply Forall_forall. intros c Hc. apply parentOf_notin.
  intros Hi. apply H. apply in_flat_map. eauto.
Qed.

Lemma insertBeforeIn_None (newNode : Node) (ch : list Node) :
  insertBeforeIn newNode None ch = Some (ch ++ [newNode])%list.
Proof. destruct ch; reflexivity. Qed.

Lemma insertBeforeIn_at (newNode c : Node) (pre post : list Node) :
  ~ In (nodeId c) (flat_map ids pre) ->
  insertBeforeIn newNode (Some (nodeId c)) (pre ++ c :: post) =
  Some (pre ++ newNode :: c :: post)%list.
Proof.
  induction pre as [|x l IH]; simpl; intros H.
  - now rewrite Nat.eqb_refl.
  - rewrite in_app_iff in H.
    destruct (Nat.eqb_spec (nodeId x) (nodeId c)) as [He | _].
    + exfalso. apply H. left. rewrite <- He. apply nodeId_in_ids.
    + rewrite IH by tauto. reflexivity.
Qed.

Lemma nextSiblingIn_at (c : Node) (pre post : list Node) :
  ~ In (nodeId c) (flat_map ids pre) ->
  nextSiblingIn (nodeId c) (pre ++ c :: post) = hd_error post.
Proof.
  induction pre as [|x l IH]; simpl; intros H.
  - now rewrite Nat.eqb_refl.
  - rewrite in_app_iff in H.
    destruct (Nat.eqb_spec (nodeId x) (nodeId c)) as [He | _].
    + exfalso. apply H. left. rewrite <- He. apply nodeId_in_ids.
    + apply IH. tauto.
Qed.

Lemma previousSiblingIn_notin (i : nat) (l : list Node) :
  ~ In i (flat_map ids l) -> previousSiblingIn i l = None.
Proof.
  induction l as [|x l IH]; simpl; intros H; [reflexivity |].
  destruct l as [|y l]; [reflexivity |].
  rewrite in_app_iff in H.
  destruct (Nat.eqb_spec (nodeId y) i) as [He | _].
  - exfalso. apply H. right. simpl. rewrite in_app_iff. left.
    rewrite <- He. apply nodeId_in_ids.
  - apply IH. tauto.
Qed.

Lemma previousSiblingIn_at (c : Node) (pre post : list Node) :
  ~ In (nodeId c) (flat_map ids pre) ->
  ~ In (nodeId c) (flat_map ids post) ->
  previousSiblingIn (nodeId c) (pre ++ c :: post) = hd_error (rev pre).
Proof.
  intros Hpre Hpost. induction pre as [|x l IH]; simpl in *.
  - destruct post as [|y post]; [reflexivity |].
    simpl in Hpost. rewrite in_app_iff in Hpost.
    destruct (Nat.eqb_spec (nodeId y) (nodeId c)) as [He | _].
    + exfalso. apply Hpost. left. rewrite <- He. apply nodeId_in_ids.
    + apply previousSiblingIn_notin. simpl. rewrite in_app_iff. tauto.
  - rewrite in_app_iff in Hpre.
    destruct l as [|y l]; simpl in *.
    + now rewrite Nat.eqb_refl.
    + rewrite in_app_iff in Hpre.
      destruct (Nat.eqb_spec (nodeId y) (nodeId c)) as [He | _].
      * exfalso. apply Hpre. right. left. rewrite <- He. apply nodeId_in_ids.
      * rewrite IH by (rewrite in_app_iff; tauto).
        destruct (rev l ++ [y])%list eqn:Hr; [| reflexivity].
        apply app_eq_nil in Hr. destruct Hr; discriminate.
Qed.

(* ------------------------------------------------------------------ *)
(** *** Contexts: a tree with one node singled out *)

Lemma ids_plug (C : list Frame) :
  exists L R, forall x, ids (plug C x) = (L ++ ids x ++ R)%list.
Proof.
  induction C as [|f C IH]; simpl.
  - exists [], []. intros x. now rewrite app_nil_r.
  - destruct IH as (L & R & H).
    exists (L ++ frameId f :: flat_map ids (before f))%list,
           (flat_map ids (after f) ++ R)%list.
    intros x. rewrite H. simpl. rewrite flat_map_app. simpl.
    now rewrite <- !app_assoc.
Qed.

Lemma NoDup_plug_inner (C : list Frame) (x : Node) :
  NoDup (ids (plug C x)) -> NoDup (ids x).
Proof.
  destruct (ids_plug C) as (L & R & H). rewrite H.
  rewrite !NoDup_app_iff. tauto.
Qed.

Lemma in_ids_plug (C : list Frame) (x : Node) (i : nat) :
  In i (ids x) -> In i (ids (plug C x)).
Proof.
  destruct (ids_plug C) as (L & R & H). rewrite H, !in_app_iff. tauto.
Qed.

(** Replacing the singled-out node keeps identities distinct when the new
    identities are the old ones of that node or ones not in the tree. *)
Lemma NoDup_plug_replace (C : list Frame) (x x' : Node) :
  NoDup (ids (plug C x)) ->
  NoDup (ids x') ->
  (forall i, In i (ids x') -> In i (ids x) \/ ~ In i (ids (plug C x))) ->
  NoDup (ids (plug C x')).
Proof.
  destruct (ids_plug C) as (L & R & H). rewrite !H.
  rewrite !NoDup_app_iff. unfold disjoint.
  intros (HL & (Hx & HR & HxR) & HLx) Hx' Hnew.
  repeat split; auto.
  - intros a Ha Ha'. destruct (Hnew a Ha) as [Hi | Hi]; [eauto |].
    apply Hi. rewrite !in_app_iff. tauto.
  - intros a Ha Ha'. rewrite in_app_iff in Ha'. destruct Ha' as [Ha' | Ha'].
    + destruct (Hnew a Ha') as [Hi | Hi].
      * apply (HLx a Ha). rewrite in_app_iff. tauto.
      * apply Hi. rewrite !in_app_iff. tauto.
    + apply (HLx a Ha). rewrite in_app_iff. tauto.
Qed.

Lemma bound_plug_replace (C : list Frame) (x x' : Node) (bound bound' : nat) :
  Forall (fun i => (i < bound)%nat) (ids (plug C x)) ->
  (bound <= bound')%nat ->
  Forall (fun i => (i < bound')%nat) (ids x') ->
  Forall (fun i => (i < bound')%nat) (ids (plug C x')).
Proof.
  destruct (ids_plug C) as (L & R & H). rewrite !H.
  rewrite !Forall_app. intros (HL & Hx & HR) Hle Hx'.
  repeat split; auto; eapply Forall_impl; eauto; simpl; intros; lia.
Qed.

Section UnderContext.

Variables (f : Frame) (x : Node) (i : nat).
Hypothesis Hdistinct : NoDup (ids (fill f x)).
Hypothesis Hin : In i (ids x).

Lemma fill_not_before : ~ In i (flat_map ids (before f)).
Proof. unfold fill in Hdistinct. ids_solve. Qed.

Lemma fill_not_after : ~ In i (flat_map ids (after f)).
Proof. unfold fill in Hdistinct. ids_solve. Qed.

Lemma fill_not_frame : frameId f <> i.
Proof. unfold fill in Hdistinct. ids_solve. Qed.

Lemma find_fill : find i (fill f x) = find i x.
Proof.
  unfold fill. simpl.
  destruct (Nat.eqb_spec (frameId f) i) as [He | _];
    [now apply fill_not_frame in He |].
  rewrite firstSome_find_notin by apply fill_not_before. simpl.
  destruct (find_in i x Hin) as (y & -> & _). reflexivity.
Qed.

Lemma update_fill (g : Node -> Node) :
  update i g (fill f x) = fill f (update i g x).
Proof.
  unfold fill. simpl.
  destruct (Nat.eqb_spec (frameId f) i) as [He | _];
    [now apply fill_not_frame in He |].
  rewrite map_app. simpl.
  rewrite !map_update_notin by (apply fill_not_before || apply fill_not_after).
  reflexivity.
Qed.

Hypothesis Hinner : i <> nodeId x.

Lemma detach_fill : detach i (fill f x) = fill f (detach i x).
Proof.
  unfold fill. simpl. f_equal.
  rewrite map_app, filter_app. simpl.
  rewrite !filter_detach_notin
    by (apply fill_not_before || apply fill_not_after).
  assert (Hid : nodeId (detach i x) = nodeId x) by (destruct x; reflexivity).
  rewrite Hid. destruct (Nat.eqb_spec (nodeId x) i); [congruence | reflexivity].
Qed.

Lemma parentOf_fill : parentOf i (fill f x) = parentOf i x.
Proof.
  unfold fill. simpl.
  rewrite existsb_app. simpl.
  rewrite !existsb_id_notin
    by (apply fill_not_before || apply fill_not_after).
  destruct (Nat.eqb_spec (nodeId x) i); [congruence |]. simpl.
  rewrite firstSome_parentOf_notin by apply fill_not_before. simpl.
  destruct (parentOf_in i x Hin Hinner) as (p & ->). reflexivity.
Qed.

End UnderContext.

Lemma in_ids_fill (f : Frame) (x : Node) (i : nat) :
  In i (ids x) -> In i (ids (fill f x)).
Proof. unfold fill. intros H. ids_solve. Qed.

Lemma find_plug (C : list Frame) : forall (x : Node) (i : nat),
  NoDup (ids (plug C x)) -> In i (ids x) -> find i (plug C x) = find i x.
Proof.
  induction C as [|f C IH]; simpl; intros x i Hd Hi; [reflexivity |].
  rewrite IH by auto using in_ids_fill.
  apply find_fill; eauto using NoDup_plug_inner.
Qed.

Lemma update_plug (C : list Frame) : forall (x : Node) (i : nat) g,
  NoDup (ids (plug C x)) -> In i (ids x) ->
  update i g (plug C x) = plug C (update i g x).
Proof.
  induction C as [|f C IH]; simpl; intros x i g Hd Hi; [reflexivity |].
  rewrite IH by auto using in_ids_fill. f_equal.
  apply update_fill; eauto using NoDup_plug_inner.
Qed.

Lemma detach_plug (C : list Frame) : forall (x : Node) (i : nat),
  NoDup (ids (plug C x)) -> In i (ids x) -> i <> nodeId x ->
  detach i (plug C x) = plug C (detach i x).
Proof.
  induction C as [|f C IH]; simpl; intros x i Hd Hi Hne; [reflexivity |].
  assert (Hf : NoDup (ids (fill f x))) by eauto using NoDup_plug_inner.
  rewrite IH; auto using in_ids_fill.
  - f_equal. apply detach_fill; auto.
  - simpl. intros ->. eapply fill_not_frame; eauto.
Qed.

Lemma parentOf_plug (C : list Frame) : forall (x : Node) (i : nat),
  NoDup (ids (plug C x)) -> In i (ids x) -> i <> nodeId x ->
  parentOf i (plug C x) = parentOf i x.
Proof.
  induction C as [|f C IH]; simpl; intros x i Hd Hi Hne; [reflexivity |].
  assert (Hf : NoDup (ids (fill f x))) by eauto using NoDup_plug_inner.
  rewrite IH; auto using in_ids_fill.
  - apply parentOf_fill; auto.
  - simpl. intros ->. eapply fill_not_frame; eauto.
Qed.

(* ------------------------------------------------------------------ *)
(** *** Well-formed documents and the parent in focus *)

Ltac fresh_contra :=
  match goal with
  | Hb : forall x, In x ?l -> (x < ?b)%nat, Hi : In ?y ?l |- _ =>
      specialize (Hb y Hi); lia
  end.

Ltac ids_fresh :=
  ids_atoms; rewrite ?Forall_app, ?Forall_cons_iff in *;
  rewrite ?Forall_forall in *; unfold disjoint in *;
  intuition (subst; try solve [eauto | lia | congruence | fresh_contra]).

Section Focus.

Variables (d : document) (C : list Frame) (p : nat) (tg : string)
          (cl : list string) (ch : list Node).
Hypothesis Hwf : wellFormed d.
Hypothesis Hfocus : focused d C p tg cl ch.

Lemma focus_distinct : NoDup (p :: flat_map ids ch).
Proof.
  destruct Hwf as [Hd _]. rewrite Hfocus in Hd.
  apply NoDup_plug_inner in Hd. exact Hd.
Qed.

Lemma focus_bound : Forall (fun i => (i < nextId d)%nat) (p :: flat_map ids ch).
Proof.
  destruct Hwf as [_ Hb]. rewrite Hfocus in Hb.
  destruct (ids_plug C) as (L & R & H). rewrite H in Hb.
  rewrite !Forall_app in Hb. tauto.
Qed.

Lemma focus_find : find p (rootElement d) = Some (Element p tg cl ch).
Proof.
  destruct Hwf as [Hd _]. rewrite Hfocus in *.
  rewrite find_plug; auto; simpl; [now rewrite Nat.eqb_refl | auto].
Qed.

Lemma focus_childNodes : Dom.childNodes d p = Some ch.
Proof. unfold Dom.childNodes. now rewrite focus_find. Qed.

Lemma focus_update (g : Node -> Node) :
  update p g (rootElement d) = plug C (g (Element p tg cl ch)).
Proof.
  destruct Hwf as [Hd _]. rewrite Hfocus in *.
  rewrite update_plug; auto; simpl; [now rewrite Nat.eqb_refl | auto].
Qed.

(** Replacing the children of the element in focus, by old nodes and nodes
    not in the tree, keeps the document well formed. *)
Lemma focus_replace (cl' : list string) (ch' : list Node) (bound : nat) :
  (nextId d <= bound)%nat ->
  NoDup (flat_map ids ch') ->
  Forall (fun i => In i (flat_map ids ch) \/
                   ~ In i (ids (rootElement d))) (flat_map ids ch') ->
  Forall (fun i => (i < bound)%nat) (flat_map ids ch') ->
  wellFormed (mkDocument (plug C (Element p tg cl' ch')) bound).
Proof.
  intros Hle Hnd Hnew Hlt.
  pose proof focus_distinct as Hd. pose proof focus_bound as Hb.
  destruct Hwf as [Hd0 Hb0]. unfold focused in Hfocus.
  rewrite Hfocus in Hd0, Hb0, Hnew.
  rewrite Forall_forall in Hnew.
  assert (Hp : In p (ids (plug C (Element p tg cl ch))))
    by (apply in_ids_plug; simpl; auto).
  split; simpl.
  - eapply NoDup_plug_replace; eauto.
    + simpl. constructor; [| assumption]. intros Hp'.
      destruct (Hnew p Hp') as [Hi | Hi]; [inversion Hd; tauto | tauto].
    + simpl. intros i [-> | Hi]; [auto |].
      destruct (Hnew i Hi); [auto | right; auto].
  - eapply bound_plug_replace; eauto. simpl. constructor; [| assumption].
    inversion Hb; lia.
Qed.

Lemma focus_fresh (i : nat) :
  (nextId d <= i)%nat -> ~ In i (ids (rootElement d)).
Proof.
  intros Hle Hi. destruct Hwf as [_ Hb]. rewrite Forall_forall in Hb.
  apply Hb in Hi. lia.
Qed.

End Focus.

Section FocusChild.

Variables (d : document) (C : list Frame) (p : nat) (tg : string)
          (cl : list string) (pre post : list Node) (c : Node).
Hypothesis Hwf : wellFormed d.
Hypothesis Hfocus : focused d C p tg cl (pre ++ c :: post).

Lemma child_distinct : NoDup (p :: flat_map ids (pre ++ c :: post)).
Proof. exact (focus_distinct _ _ _ _ _ _ Hwf Hfocus). Qed.

Lemma child_not_parent : nodeId c <> p.
Proof.
  pose proof child_distinct as H. pose proof (nodeId_in_ids c). ids_solve.
Qed.

Lemma child_not_pre : ~ In (nodeId c) (flat_map ids pre).
Proof.
  pose proof child_distinct as H. pose proof (nodeId_in_ids c). ids_solve.
Qed.

Lemma child_not_post : ~ In (nodeId c) (flat_map ids post).
Proof.
  pose proof child_distinct as H. pose proof (nodeId_in_ids c). ids_solve.
Qed.

Lemma child_in_focus : In (nodeId c) (ids (Element p tg cl (pre ++ c :: post))).
Proof. pose proof (nodeId_in_ids c). ids_solve. Qed.

Lemma child_parentNode : Dom.parentNode d (nodeId c) = Some p.
Proof.
  unfold Dom.parentNode. destruct Hwf as [Hd _]. unfold focused in Hfocus. rewrite Hfocus in Hd |- *.
  rewrite parentOf_plug; auto using child_in_focus.
  - simpl. rewrite existsb_app. simpl. rewrite Nat.eqb_refl.
    now rewrite orb_true_r.
  - simpl. apply child_not_parent.
Qed.

Lemma child_find : find (nodeId c) (rootElement d) = Some c.
Proof.
  destruct Hwf as [Hd _]. unfold focused in Hfocus. rewrite Hfocus in Hd |- *.
  rewrite find_plug; auto using child_in_focus. simpl.
  destruct (Nat.eqb_spec p (nodeId c)) as [He | _];
    [symmetry in He; now apply child_not_parent in He |].
  rewrite firstSome_find_notin by apply child_not_pre. simpl.
  assert (Hc : find (nodeId c) c = Some c)
    by (destruct c; simpl; now rewrite Nat.eqb_refl).
  now rewrite Hc.
Qed.

Lemma child_update (g : Node -> Node) :
  update (nodeId c) g (rootElement d) =
  plug C (Element p tg cl (pre ++ g c :: post)).
Proof.
  destruct Hwf as [Hd _]. unfold focused in Hfocus. rewrite Hfocus in Hd |- *.
  rewrite update_plug; auto using child_in_focus. f_equal. simpl.
  destruct (Nat.eqb_spec p (nodeId c)) as [He | _];
    [symmetry in He; now apply child_not_parent in He |].
  rewrite map_app. simpl.
  rewrite !map_update_notin by (apply child_not_pre || apply child_not_post).
  assert (Hc : update (nodeId c) g c = g c)
    by (destruct c; simpl; now rewrite Nat.eqb_refl).
  now rewrite Hc.
Qed.

Lemma child_detach :
  detach (nodeId c) (rootElement d) = plug C (Element p tg cl (pre ++ post)).
Proof.
  destruct Hwf as [Hd _]. unfold focused in Hfocus. rewrite Hfocus in Hd |- *.
  rewrite detach_plug; auto using child_in_focus.
  - f_equal. simpl. f_equal. rewrite map_app, filter_app. simpl.
    rewrite !filter_detach_notin
      by (apply child_not_pre || apply child_not_post).
    assert (Hid : nodeId (detach (nodeId c) c) = nodeId c)
      by (destruct c; reflexivity).
    now rewrite Hid, Nat.eqb_refl.
  - simpl. apply child_not_parent.
Qed.

Lemma child_filter :
  filter (fun x => negb (Nat.eqb (nodeId x) (nodeId c))) (pre ++ c :: post) =
  (pre ++ post)%list.
Proof.
  rewrite filter_app. simpl. rewrite Nat.eqb_refl. simpl.
  now rewrite !filter_id_notin by (apply child_not_pre || apply child_not_post).
Qed.

Lemma child_existsb :
  existsb (fun x => Nat.eqb (nodeId x) (nodeId c)) (pre ++ c :: post) = true.
Proof.
  rewrite existsb_app. simpl. rewrite Nat.eqb_refl. now rewrite orb_true_r.
Qed.

Lemma child_insertBeforeIn (newNode : Node) :
  insertBeforeIn newNode (Some (nodeId c)) (pre ++ c :: post) =
  Some (pre ++ newNode :: c :: post)%list.
Proof. apply insertBeforeIn_at, child_not_pre. Qed.

Lemma child_nextSiblingIn :
  nextSiblingIn (nodeId c) (pre ++ c :: post) = hd_error post.
Proof. apply nextSiblingIn_at, child_not_pre. Qed.

Lemma child_previousSiblingIn :
  previousSiblingIn (nodeId c) (pre ++ c :: post) = hd_error (rev pre).
Proof.
  apply previousSiblingIn_at; [apply child_not_pre | apply child_not_post].
Qed.

Lemma child_nextSibling :
  Dom.nextSibling d (nodeId c) = option_map nodeId (hd_error post).
Proof.
  unfold Dom.nextSibling. rewrite child_parentNode.
  rewrite (focus_childNodes _ _ _ _ _ _ Hwf Hfocus).
  now rewrite child_nextSiblingIn.
Qed.

Lemma child_previousSibling :
  Dom.previousSibling d (nodeId c) = option_map nodeId (hd_error (rev pre)).
Proof.
  unfold Dom.previousSibling. rewrite child_parentNode.
  rewrite (focus_childNodes _ _ _ _ _ _ Hwf Hfocus).
  now rewrite child_previousSiblingIn.
Qed.

End FocusChild.

(* ------------------------------------------------------------------ *)
(** *** The DOM operations, seen from the parent in focus *)

Lemma wellFormed_bump (d : document) (k : nat) :
  wellFormed d -> (nextId d <= k)%nat ->
  wellFormed (mkDocument (rootElement d) k).
Proof.
  intros [Hd Hb] Hle. split; simpl; [assumption |].
  eapply Forall_impl; [| exact Hb]. simpl. intros. lia.
Qed.

Lemma focus_in (d : document) C p tg cl ch (i : nat) :
  focused d C p tg cl ch ->
  In i (p :: flat_map ids ch) -> In i (ids (rootElement d)).
Proof.
  unfold focused. intros -> Hi. apply in_ids_plug. exact Hi.
Qed.

Lemma tokenAdd_nil (c : string) : tokenAdd c [] = [c].
Proof. reflexivity. Qed.

Ltac rewrite_simpl L :=
  let H := fresh "Hrw" in pose proof L as H; simpl in H; rewrite H; clear H.

Ltac rewrite_id L :=
  let H := fresh "Hrw" in
  pose proof L as H; cbn [nodeId] in H; rewrite H; clear H.

Section Steps.

Variables (d : document) (C : list Frame) (p : nat) (tg : string)
          (cl : list string).
Hypothesis Hwf : wellFormed d.

(** [p.insertBefore(newNode, ref)] for a node that is not in the tree, with
    [ref] the first node of [r] (or [null] when [r] is empty). *)
Lemma step_insert (l r : list Node) (newNode : Node) :
  focused d C p tg cl (l ++ r) ->
  NoDup (ids newNode) ->
  Forall (fun i => ~ In i (ids (rootElement d))) (ids newNode) ->
  Forall (fun i => (i < nextId d)%nat) (ids newNode) ->
  let d' := withRoot d (plug C (Element p tg cl (l ++ newNode :: r))) in
  Dom.insertBefore d p newNode (option_map nodeId (hd_error r)) = Some d' /\
  wellFormed d'.
Proof.
  intros Hfocus Hnd Hfresh Hlt d'. split.
  - unfold Dom.insertBefore.
    rewrite detach_notin.
    2:{ rewrite Forall_forall in Hfresh. apply Hfresh, nodeId_in_ids. }
    rewrite (focus_find _ _ _ _ _ _ Hwf Hfocus).
    assert (Hins : insertBeforeIn newNode (option_map nodeId (hd_error r))
                     (l ++ r) = Some (l ++ newNode :: r)%list).
    { destruct r as [|q r']; simpl.
      - now rewrite insertBeforeIn_None, app_nil_r.
      - apply insertBeforeIn_at.
        pose proof (focus_distinct _ _ _ _ _ _ Hwf Hfocus) as H.
        pose proof (nodeId_in_ids q). ids_solve. }
    rewrite Hins.
    rewrite (focus_update _ _ _ _ _ _ Hwf Hfocus). reflexivity.
  - unfold d', withRoot.
    apply (focus_replace _ _ _ _ _ _ Hwf Hfocus); [lia | | |].
    + pose proof (focus_distinct _ _ _ _ _ _ Hwf Hfocus) as H.
      assert (Hl : disjoint (flat_map ids l) (ids newNode)).
      { intros a Ha Hb. rewrite Forall_forall in Hfresh.
        apply (Hfresh a Hb). eapply focus_in; eauto.
        right. rewrite flat_map_app, in_app_iff. auto. }
      assert (Hr : disjoint (ids newNode) (flat_map ids r)).
      { intros a Hb Ha. rewrite Forall_forall in Hfresh.
        apply (Hfresh a Hb). eapply focus_in; eauto.
        right. rewrite flat_map_app, in_app_iff. auto. }
      ids_atoms. tauto.
    + rewrite !flat_map_app. simpl. rewrite !Forall_app.
      repeat split.
      * apply Forall_forall. intros i Hi. left. rewrite in_app_iff. auto.
      * eapply Forall_impl; [| exact Hfresh]. simpl. auto.
      * apply Forall_forall. intros i Hi. left. rewrite in_app_iff. auto.
    + pose proof (focus_bound _ _ _ _ _ _ Hwf Hfocus) as Hb.
      inversion Hb as [|? ? _ Hb']; subst.
      rewrite !flat_map_app in *. simpl. rewrite !Forall_app in *.
      tauto.
Qed.

(** A replacement of the children that only rearranges identities. *)
Lemma step_rearrange (ch ch' : list Node) (cl' : list string) :
  focused d C p tg cl ch ->
  NoDup (flat_map ids ch') ->
  incl (flat_map ids ch') (flat_map ids ch) ->
  wellFormed (withRoot d (plug C (Element p tg cl' ch'))).
Proof.
  intros Hfocus Hnd Hincl. unfold withRoot.
  apply (focus_replace _ _ _ _ _ _ Hwf Hfocus); [lia | assumption | |].
  - apply Forall_forall. intros i Hi. left. now apply Hincl.
  - pose proof (focus_bound _ _ _ _ _ _ Hwf Hfocus) as Hb.
    inversion Hb as [|? ? _ Hb']; subst. rewrite Forall_forall in *.
    intros i Hi. apply Hb'. now apply Hincl.
Qed.

Lemma step_setNodeValue (pre post : list Node) (n : nat) (v v' : string) :
  focused d C p tg cl (pre ++ Text n v :: post) ->
  let d' := withRoot d (plug C (Element p tg cl (pre ++ Text n v' :: post))) in
  Dom.setNodeValue d n v' = d' /\ wellFormed d'.
Proof.
  intros Hfocus d'. split.
  - unfold Dom.setNodeValue.
    rewrite_simpl (child_update _ _ _ _ _ _ _ _ Hwf Hfocus (setNodeValueOf v')).
    reflexivity.
  - apply (step_rearrange _ _ _ Hfocus).
    + pose proof (focus_distinct _ _ _ _ _ _ Hwf Hfocus) as H.
      ids_atoms. tauto.
    + rewrite !flat_map_app. simpl. apply incl_refl.
Qed.

Lemma step_classListAdd (ch : list Node) (c : string) :
  focused d C p tg cl ch ->
  let d' := withRoot d (plug C (Element p tg (tokenAdd c cl) ch)) in
  Dom.classListAdd d p c = d' /\ wellFormed d'.
Proof.
  intros Hfocus d'. split.
  - unfold Dom.classListAdd.
    now rewrite (focus_update _ _ _ _ _ _ Hwf Hfocus).
  - apply (step_rearrange _ _ _ Hfocus); [| apply incl_refl].
    pose proof (focus_distinct _ _ _ _ _ _ Hwf Hfocus) as H.
    now inversion H.
Qed.

Lemma step_removeChild (pre post : list Node) (c : Node) :
  focused d C p tg cl (pre ++ c :: post) ->
  let d' := withRoot d (plug C (Element p tg cl (pre ++ post))) in
  Dom.removeChild d p (nodeId c) = Some d' /\ wellFormed d'.
Proof.
  intros Hfocus d'. split.
  - unfold Dom.removeChild.
    rewrite (focus_find _ _ _ _ _ _ Hwf Hfocus).
    rewrite (child_existsb pre post c).
    rewrite (child_filter _ _ _ _ _ _ _ _ Hwf Hfocus).
    now rewrite (focus_update _ _ _ _ _ _ Hwf Hfocus).
  - apply (step_rearrange _ _ _ Hfocus).
    + pose proof (focus_distinct _ _ _ _ _ _ Hwf Hfocus) as H.
      ids_atoms. tauto.
    + rewrite !flat_map_app. simpl. intros i. rewrite !in_app_iff. tauto.
Qed.

End Steps.

(** The same for a node just created, whose identities are the next ones. *)
Lemma step_insert_new (d : document) C p tg cl (l r : list Node)
      (newNode : Node) (k' : nat) :
  wellFormed d ->
  focused d C p tg cl (l ++ r) ->
  NoDup (ids newNode) ->
  Forall (fun i => (nextId d <= i < k')%nat) (ids newNode) ->
  let d' := mkDocument (plug C (Element p tg cl (l ++ newNode :: r))) k' in
  Dom.insertBefore (mkDocument (rootElement d) k') p newNode
                   (option_map nodeId (hd_error r)) = Some d' /\
  wellFormed d'.
Proof.
  intros Hwf Hfocus Hnd Hnew.
  assert (Hle : (nextId d <= k')%nat).
  { destruct (ids newNode) as [|i rest] eqn:Hi.
    - pose proof (nodeId_in_ids newNode) as H. rewrite Hi in H. destruct H.
    - inversion Hnew; subst. lia. }
  apply (step_insert (mkDocument (rootElement d) k') C p tg cl
           (wellFormed_bump d k' Hwf Hle) l r newNode Hfocus Hnd).
  - eapply Forall_impl; [| exact Hnew]. simpl. intros i Hi.
    apply (focus_fresh d Hwf). lia.
  - eapply Forall_impl; [| exact Hnew]. simpl. intros i Hi. lia.
Qed.

#[local] Arguments Dom.insertBefore : simpl never.
#[local] Arguments Dom.appendChild : simpl never.
#[local] Arguments Dom.removeChild : simpl never.
#[local] Arguments Dom.setNodeValue : simpl never.
#[local] Arguments Dom.nextSibling : simpl never.
#[local] Arguments Dom.previousSibling : simpl never.
#[local] Arguments Dom.parentNode : simpl never.
#[local] Arguments Dom.nodeValue : simpl never.
#[local] Arguments Dom.childNodes : simpl never.
#[local] Arguments Dom.classListAdd : simpl never.
#[local] Arguments Dom.classListRemove : simpl never.
#[local] Arguments Dom.deref : simpl never.
#[local] Arguments Dom.isTextNode : simpl never.
#[local] Arguments JsString.substring : simpl never.
#[local] Arguments JsString.length : simpl never.

Section Moves.

Variables (d : document) (C : list Frame) (p : nat) (tg : string)
          (cl : list string) (pre post : list Node).
Hypothesis Hwf : wellFormed d.

(** [k.appendChild(c)] when [c] is the sibling that follows [k]. *)
Lemma step_move_into (k : nat) (tgk : string) (clk : list string)
      (chk : list Node) (c : Node) :
  focused d C p tg cl (pre ++ Element k tgk clk chk :: c :: post) ->
  let d' := withRoot d (plug C (Element p tg cl
              (pre ++ Element k tgk clk (chk ++ [c]) :: post))) in
  Dom.appendChild d k c = Some d' /\ wellFormed d'.
Proof.
  intros Hfocus d'.
  pose proof (focus_distinct _ _ _ _ _ _ Hwf Hfocus) as Hd.
  assert (Hfocus' :
    focused d C p tg cl ((pre ++ [Element k tgk clk chk]) ++ c :: post))
    by (now rewrite <- app_assoc).
  set (d1 := withRoot d (plug C (Element p tg cl
                (pre ++ Element k tgk clk chk :: post)))).
  assert (Hwf1 : wellFormed d1).
  { apply (step_rearrange _ _ _ _ _ Hwf _ _ _ Hfocus).
    - ids_atoms. tauto.
    - incl_solve. }
  assert (Hfocus1 : focused d1 C p tg cl
                      (pre ++ Element k tgk clk chk :: post))
    by reflexivity.
  split.
  - unfold Dom.appendChild, Dom.insertBefore.
    rewrite (child_detach _ _ _ _ _ _ _ _ Hwf Hfocus').
    rewrite <- app_assoc. simpl.
    rewrite_simpl (child_find _ _ _ _ _ _ _ _ Hwf1 Hfocus1).
    rewrite insertBeforeIn_None.
    rewrite_simpl (child_update _ _ _ _ _ _ _ _ Hwf1 Hfocus1
                     (setChildNodes (chk ++ [c]))).
    reflexivity.
  - apply (step_rearrange _ _ _ _ _ Hwf _ _ _ Hfocus).
    + ids_atoms. tauto.
    + incl_solve.
Qed.

(** [p.insertBefore(c, e)] when [c] is the only child of the child [e]. *)
Lemma step_move_out (e : nat) (tge : string) (cle : list string) (c : Node) :
  focused d C p tg cl (pre ++ Element e tge cle [c] :: post) ->
  let d' := withRoot d (plug C (Element p tg cl
              (pre ++ c :: Element e tge cle [] :: post))) in
  Dom.insertBefore d p c (Some e) = Some d' /\ wellFormed d'.
Proof.
  intros Hfocus d'.
  pose proof (focus_distinct _ _ _ _ _ _ Hwf Hfocus) as Hd.
  assert (Hinner : focused d (mkFrame p tg cl pre post :: C) e tge cle
                           ([] ++ c :: [])) by exact Hfocus.
  set (d1 := withRoot d (plug C (Element p tg cl
                (pre ++ Element e tge cle [] :: post)))).
  assert (Hwf1 : wellFormed d1).
  { apply (step_rearrange _ _ _ _ _ Hwf _ _ _ Hfocus).
    - ids_atoms. tauto.
    - incl_solve. }
  assert (Hfocus1 : focused d1 C p tg cl
                      (pre ++ Element e tge cle [] :: post))
    by reflexivity.
  split.
  - unfold Dom.insertBefore.
    rewrite (child_detach _ _ _ _ _ _ _ _ Hwf Hinner). simpl.
    unfold fill. simpl.
    pose proof (focus_find _ _ _ _ _ _ Hwf1 Hfocus1) as Hf.
    pose proof (focus_update _ _ _ _ _ _ Hwf1 Hfocus1) as Hu.
    unfold d1 in Hf, Hu. simpl in Hf, Hu. rewrite Hf.
    rewrite_simpl (child_insertBeforeIn _ _ _ _ _ _ _ _ Hwf1 Hfocus1 c).
    rewrite Hu. reflexivity.
  - apply (step_rearrange _ _ _ _ _ Hwf _ _ _ Hfocus).
    + ids_atoms. tauto.
    + incl_solve.
Qed.

End Moves.

(* ================================================================== *)
(** ** The span mutator, seen from the parent of the text node *)

Section Mutator.

Variable className : string.
Variables (d : document) (C : list Frame) (p : nat) (tg : string)
          (cl : list string) (pre post : list Node) (n : nat) (v : string).
Hypothesis Hwf : wellFormed d.
Hypothesis Hfocus : focused d C p tg cl (pre ++ Text n v :: post).

Lemma focus_nodeValue : Dom.nodeValue d n = Some v.
Proof.
  unfold Dom.nodeValue.
  now rewrite_id (child_find _ _ _ _ _ _ _ _ Hwf Hfocus).
Qed.

Lemma applyToWholeNode_focus :
  let r := wholeWrap d className C p tg cl pre (Text n v) post in
  _applyToWholeNode className d n = Some r /\ wellFormed (fst r).
Proof.
  unfold _applyToWholeNode, wholeWrap.
  rewrite_id (child_parentNode _ _ _ _ _ _ _ _ Hwf Hfocus).
  rewrite (focus_childNodes _ _ _ _ _ _ Hwf Hfocus).
  destruct (pre ++ post)%list as [|q rest] eqn:Hsib.
  - apply app_eq_nil in Hsib. destruct Hsib as [-> ->]. simpl.
    destruct (step_classListAdd _ _ _ _ _ Hwf _ className Hfocus)
      as [Hadd Hwf'].
    rewrite Hadd. auto.
  - assert (Hlen : Nat.eqb (List.length (pre ++ Text n v :: post)) 1 = false).
    { apply Nat.eqb_neq. rewrite length_app. simpl.
      apply (f_equal (@List.length Node)) in Hsib.
      rewrite length_app in Hsib. simpl in Hsib. lia. }
    rewrite Hlen. unfold Dom.createElement. simpl. rewrite tokenAdd_nil.
    destruct (step_insert_new d C p tg cl pre (Text n v :: post)
                (Element (nextId d) "span" [className] []) (S (nextId d))
                Hwf Hfocus)
      as [Hins Hwf2].
    { simpl. repeat constructor; auto. }
    { simpl. repeat constructor; lia. }
    simpl in Hins. rewrite Hins.
    assert (Hfocus2 :
      focused (mkDocument
                 (plug C (Element p tg cl
                    (pre ++ Element (nextId d) "span" [className] []
                         :: Text n v :: post))) (S (nextId d)))
              C p tg cl
              ((pre ++ [Element (nextId d) "span" [className] []]) ++
               Text n v :: post))
      by (unfold focused; simpl; now rewrite <- app_assoc).
    unfold Dom.deref.
    rewrite_id (child_find _ _ _ _ _ _ _ _ Hwf2 Hfocus2).
    destruct (step_move_into _ C p tg cl pre post Hwf2 (nextId d) "span"
                [className] [] (Text n v) eq_refl) as [Hmove Hwf3].
    rewrite Hmove. simpl. auto.
Qed.

Lemma applyToNode_partial (s e : Z) :
  s <> e -> ~ (s = 0 /\ e = JsString.length v) ->
  let pieces := splitPieces className (nextId d) n v s e in
  let d' := mkDocument
              (plug C (Element p tg cl (pre ++ fst pieces ++ post)))
              (snd pieces) in
  _applyToNode className d n s e = Some (d', [nextId d]) /\ wellFormed d'.
Proof.
  intros Hse Hwhole. unfold _applyToNode, splitPieces.
  destruct (Z.eqb_spec s e) as [? | _]; [contradiction |].
  rewrite focus_nodeValue.
  assert (Hcond : (s =? 0) && (e =? JsString.length v) = false).
  { destruct (Z.eqb_spec s 0), (Z.eqb_spec e (JsString.length v));
      simpl; auto. tauto. }
  rewrite Hcond.
  rewrite_id (child_parentNode _ _ _ _ _ _ _ _ Hwf Hfocus).
  destruct (Z.eqb_spec s 0) as [-> | Hs].
  - (* only the first part is styled *)
    unfold Dom.createElement, Dom.createTextNode. simpl.
    rewrite tokenAdd_nil.
    destruct (step_insert_new d C p tg cl pre (Text n v :: post)
                (styledSpan className (nextId d) (JsString.substring v 0 e))
                (S (S (nextId d))) Hwf Hfocus)
      as [Hins Hwf3].
    { simpl. repeat constructor; simpl; intuition lia. }
    { simpl. repeat constructor; lia. }
    simpl in Hins. unfold styledSpan in Hins. rewrite Hins.
    assert (Hfocus3 :
      focused (mkDocument
                 (plug C (Element p tg cl
                    (pre ++ styledSpan className (nextId d)
                              (JsString.substring v 0 e)
                         :: Text n v :: post))) (S (S (nextId d))))
              C p tg cl
              ((pre ++ [styledSpan className (nextId d)
                          (JsString.substring v 0 e)])
                 ++ Text n v :: post))
      by (unfold focused; simpl; now rewrite <- app_assoc).
    destruct (step_setNodeValue _ C p tg cl Hwf3 _ _ n v
                (JsString.substring v e (JsString.length v)) Hfocus3)
      as [Hset Hwf4].
    unfold styledSpan in Hset. rewrite Hset. unfold withRoot in *.
    simpl in *. rewrite <- app_assoc in *. simpl in *. auto.
  - (* the middle or the last part is styled *)
    destruct (step_setNodeValue d C p tg cl Hwf _ _ n v
                (JsString.substring v 0 s) Hfocus) as [Hset Hwf1].
    rewrite Hset.
    rewrite_id (child_nextSibling _ _ _ _ _ _ _ _ Hwf1 eq_refl).
    unfold Dom.createElement, Dom.createTextNode. simpl.
    rewrite tokenAdd_nil.
    assert (Hfocus1 :
      focused (withRoot d (plug C (Element p tg cl
                 (pre ++ Text n (JsString.substring v 0 s) :: post))))
              C p tg cl
              ((pre ++ [Text n (JsString.substring v 0 s)]) ++ post))
      by (unfold focused; simpl; now rewrite <- app_assoc).
    destruct (step_insert_new _ C p tg cl _ post
                (styledSpan className (nextId d) (JsString.substring v s e))
                (S (S (nextId d))) Hwf1 Hfocus1)
      as [Hins Hwf4].
    { simpl. repeat constructor; simpl; intuition lia. }
    { simpl. repeat constructor; lia. }
    simpl in Hins. unfold styledSpan in Hins. rewrite Hins.
    simpl.
    destruct (Z.ltb_spec e (JsString.length v)) as [Hlt | Hge].
    + assert (Hfocus4 :
        focused (mkDocument
                   (plug C (Element p tg cl
                      ((pre ++ [Text n (JsString.substring v 0 s)]) ++
                       styledSpan className (nextId d)
                         (JsString.substring v s e) :: post)))
                   (S (S (nextId d))))
                C p tg cl
                (((pre ++ [Text n (JsString.substring v 0 s)]) ++
                  [styledSpan className (nextId d)
                     (JsString.substring v s e)]) ++ post))
        by (unfold focused; simpl; now rewrite <- (app_assoc _ [_] post)).
      destruct (step_insert_new _ C p tg cl _ post
                  (Text (S (S (nextId d)))
                     (JsString.substring v e (JsString.length v)))
                  (S (S (S (nextId d)))) Hwf4 Hfocus4)
        as [Hins' Hwf6].
      { simpl. repeat constructor; simpl; intuition lia. }
      { simpl. repeat constructor; lia. }
      simpl in Hins'. unfold styledSpan in Hins'. rewrite Hins'.
      unfold styledSpan in *. simpl in *.
      rewrite <- !app_assoc in *. simpl in *. auto.
    + unfold styledSpan in *. simpl in *.
      rewrite <- !app_assoc in *. simpl in *. auto.
Qed.

End Mutator.

(* ================================================================== *)
(** ** Local behaviour of the mutator *)

Lemma wellFormed_example : wellFormed exampleDocument.
Proof.
  split; simpl.
  - repeat constructor; simpl; intuition discriminate.
  - repeat constructor.
Qed.

(** C9: wrapping a whole text leaf.  If the parent has no other child, the
    parent itself receives the class and no node is created (the next
    identity is unchanged); otherwise a new [span] with the class takes the
    place of the leaf and the leaf becomes its only child. *)
Theorem whole_node_wrap_rule :
  forall (className : string) (d : document) (C : list Frame) (p : nat)
         (tg : string) (cl : list string) (pre post : list Node)
         (n : nat) (v : string),
    wellFormed d ->
    focused d C p tg cl (pre ++ Text n v :: post) ->
    ((pre ++ post)%list = [] ->
     _applyToWholeNode className d n =
     Some (mkDocument
             (plug C (Element p tg (tokenAdd className cl) [Text n v]))
             (nextId d), p) /\
     In className (tokenAdd className cl)) /\
    ((pre ++ post)%list <> [] ->
     _applyToWholeNode className d n =
     Some (mkDocument
             (plug C (Element p tg cl
                (pre ++ Element (nextId d) "span" [className] [Text n v]
                     :: post)))
             (S (nextId d)), nextId d)).
Proof.
  intros className d C p tg cl pre post n v Hwf Hfocus.
  destruct (applyToWholeNode_focus className d C p tg cl pre post n v
              Hwf Hfocus) as [Heq _].
  unfold wholeWrap in Heq. split.
  - intros Hnil. rewrite Hnil in Heq. split; [exact Heq |].
    unfold tokenAdd. destruct (existsb (String.eqb className) cl) eqn:Hex.
    + apply existsb_exists in Hex. destruct Hex as (x & Hx & Heqb).
      apply String.eqb_eq in Heqb. now subst.
    + apply in_or_app. right. now left.
  - intros Hne. destruct (pre ++ post)%list; [contradiction | exact Heq].
Qed.

Lemma whole_node_wrap_rule_witness :
  wellFormed exampleDocument /\
  focused exampleDocument [] 0 "div" [] ([] ++ Text 1 "0123456789abcdefghij" :: []) /\
  _applyToWholeNode "foo" exampleDocument 1 =
  Some (mkDocument
          (Element 0 "div" ["foo"%string] [Text 1 "0123456789abcdefghij"]) 2,
        0%nat).
Proof.
  split; [exact wellFormed_example |]. split; [reflexivity |].
  exact (proj1 (proj1 (whole_node_wrap_rule "foo" exampleDocument [] 0 "div" []
                  [] [] 1 "0123456789abcdefghij" wellFormed_example eq_refl)
                  eq_refl)).
Defined.

(** C6: the single-node partial-span path.  With [start = 0] the styled part
    goes into a new container placed before the leaf, which keeps the
    remainder; with [start > 0] the leaf keeps the text before [start], a new
    styled container follows it, and a new plain leaf with the text from
    [end] on follows that exactly when [end] is less than the payload length.
    On the text of the test suite, range (3,6) with style foo reads
    012<foo>345</foo>6789abcdefghij. *)
Theorem single_node_partial_span :
  (forall (className : string) (d : document) (C : list Frame) (p : nat)
          (tg : string) (cl : list string) (pre post : list Node)
          (n : nat) (v : string) (s e : Z),
      wellFormed d ->
      focused d C p tg cl (pre ++ Text n v :: post) ->
      s <> e -> ~ (s = 0 /\ e = JsString.length v) ->
      let k := nextId d in
      let len := JsString.length v in
      let container :=
        Element k "span" [className] [Text (S k) (JsString.substring v s e)] in
      let result ch k' :=
        Some (mkDocument (plug C (Element p tg cl (pre ++ ch ++ post))) k',
              [k]) in
      (s = 0 ->
       _applyToNode className d n s e =
       result [container; Text n (JsString.substring v e len)] (S (S k))) /\
      (s <> 0 -> e < len ->
       _applyToNode className d n s e =
       result [Text n (JsString.substring v 0 s); container;
               Text (S (S k)) (JsString.substring v e len)] (S (S (S k)))) /\
      (s <> 0 -> len <= e ->
       _applyToNode className d n s e =
       result [Text n (JsString.substring v 0 s); container] (S (S k)))) /\
  option_map (fun r => markup (rootElement (fst r)))
             (applyToRanges "foo" exampleDocument [mkTextSelection 3 6]) =
  Some "012<foo>345</foo>6789abcdefghij"%string.
Proof.
  split; [| reflexivity].
  intros className d C p tg cl pre post n v s e Hwf Hfocus Hse Hwhole
         k len container result.
  destruct (applyToNode_partial className d C p tg cl pre post n v
              Hwf Hfocus s e Hse Hwhole) as [Heq _].
  unfold splitPieces, styledSpan in Heq. fold k len in Heq.
  unfold result, container. repeat split.
  - intros ->. exact Heq.
  - intros Hs Hlt. destruct (Z.eqb_spec s 0); [contradiction |].
    destruct (Z.ltb_spec e len); [exact Heq | lia].
  - intros Hs Hge. destruct (Z.eqb_spec s 0); [contradiction |].
    destruct (Z.ltb_spec e len); [lia | exact Heq].
Qed.

Lemma single_node_partial_span_witness :
  wellFormed exampleDocument /\
  focused exampleDocument [] 0 "div" []
          ([] ++ Text 1 "0123456789abcdefghij" :: []) /\
  _applyToNode "foo" exampleDocument 1 3 6 =
  Some (mkDocument
          (Element 0 "div" []
             [Text 1 "012"; Element 2 "span" ["foo"%string] [Text 3 "345"];
              Text 4 "6789abcdefghij"]) 5, [2%nat]).
Proof.
  split; [exact wellFormed_example |]. split; [reflexivity |].
  refine (proj1 (proj2 (proj1 single_node_partial_span "foo"%string
                          exampleDocument
                          [] 0%nat "div"%string [] [] [] 1%nat
                          "0123456789abcdefghij"%string 3 6
                          wellFormed_example eq_refl _ _)) _ _).
  - discriminate.
  - intros [H _]. discriminate.
  - discriminate.
  - reflexivity.
Defined.

(** C10: equal start and end offsets change nothing and report no node;
    so does a group whose two boundaries are the same node and offset. *)
Theorem zero_width_is_identity :
  forall (className : string) (d : document) (n : nat) (o : Z),
    _applyToNode className d n o o = Some (d, []) /\
    applyToGroup className d [mkNodeAndOffset n o; mkNodeAndOffset n o] =
    Some (d, []).
Proof.
  intros className d n o. unfold applyToGroup, _applyToNode. simpl.
  now rewrite Nat.eqb_refl, Z.eqb_refl.
Qed.

Lemma applyToMiddleNodes_lastToFirst (className : string) (h : NodeAndOffset) :
  forall (mids suffix : list NodeAndOffset) (d : document) (acc : list nat),
    applyToMiddleNodes className d (h :: mids ++ suffix)
                       (S (List.length mids)) acc =
    wrapInterior className (rev mids) d acc.
Proof.
  induction mids as [|x ms IH] using rev_ind; intros suffix d acc.
  - reflexivity.
  - rewrite length_app, Nat.add_comm. cbn [List.length plus].
    rewrite rev_app_distr. cbn [rev app].
    cbn [applyToMiddleNodes wrapInterior].
    assert (Hnth : nth_error (h :: (ms ++ [x]) ++ suffix)
                             (S (List.length ms)) = Some x).
    { cbn [nth_error]. rewrite <- app_assoc.
      rewrite nth_error_app2 by lia. now rewrite Nat.sub_diag. }
    rewrite Hnth.
    rewrite <- app_assoc. cbn [app].
    destruct (isLineBreak d (node x)).
    + apply IH.
    + destruct (_applyToWholeNode className d (node x)) as [[d1 a] |];
        [apply IH | reflexivity].
Qed.

(** The branch that [applyToGroup] takes on a group that spans several
    nodes, with the loop over the interior nodes as the code has it. *)
Lemma applyToGroup_multi :
  forall (className : string) (d : document) (h t : NodeAndOffset)
         (mids : list NodeAndOffset),
    mids <> [] \/ node h <> node t ->
    applyToGroup className d (h :: mids ++ [t]) =
    ('(d1, affected1) <-
        (if 0 <? offset t
         then _applyToNode className d (node t) 0 (offset t)
         else Some (d, [])) ;;
     '(d2, affected2) <-
        applyToMiddleNodes className d1 (h :: mids ++ [t])
                           (S (List.length mids)) affected1 ;;
     headValue <- Dom.nodeValue d2 (node h) ;;
     '(d3, affected3) <-
        _applyToNode className d2 (node h) (offset h)
                     (JsString.length headValue) ;;
     Some (d3, affected2 ++ affected3)%list).
Proof.
  intros className d h t mids Hmulti. unfold applyToGroup.
  assert (Hlen : List.length (h :: mids ++ [t]) = S (S (List.length mids)))
    by (simpl; rewrite length_app; simpl; lia).
  rewrite Hlen.
  assert (Hsame :
    Nat.eqb (S (S (List.length mids))) 2 &&
    Nat.eqb (node (nth 0 (h :: mids ++ [t]) (mkNodeAndOffset 0 0)))
            (node (nth 1 (h :: mids ++ [t]) (mkNodeAndOffset 0 0))) = false).
  { destruct mids as [|m mids]; simpl.
    - destruct Hmulti as [? | Hne]; [congruence |].
      now apply Nat.eqb_neq.
    - reflexivity. }
  rewrite Hsame. cbn [Nat.leb].
  assert (Htail : nth_error (h :: mids ++ [t]) (S (S (List.length mids)) - 1)
                  = Some t).
  { replace (S (S (List.length mids)) - 1)%nat with (S (List.length mids))
      by lia.
    cbn [nth_error]. rewrite nth_error_app2 by lia.
    now rewrite Nat.sub_diag. }
  rewrite Htail.
  replace (S (S (List.length mids)) - 1)%nat with (S (List.length mids))
    by lia.
  reflexivity.
Qed.



(** C3: on the first range of the test suite, one range in, two groups out:
    the search pushes a new empty group when it completes a range, before it
    tests whether any position is left. *)
Theorem one_range_two_groups :
  option_map (fun r => snd r)
             (applyToRanges "foo" exampleDocument [mkTextSelection 3 6]) =
  Some [[2%nat]; []].
Proof. reflexivity. Qed.

(* ------------------------------------------------------------------ *)
(** *** Offsets beyond the text *)

Lemma totalLength_nonneg (nodes : list (nat * string)) : 0 <= totalLength nodes.
Proof.
  induction nodes as [|[c v] rest IH]; simpl; [lia |].
  pose proof (jsLength_nonneg v). lia.
Qed.

Lemma searchInNode_miss (c : nat) (ws we pos : Z) (poss : list Z)
      (isEnd : bool) (gs : list NodeGroup) (cur : NodeGroup) :
  we < pos ->
  searchInNode c ws we pos poss isEnd gs cur =
  inr (mkSearch pos poss isEnd gs cur).
Proof.
  intros Hmiss.
  assert (Hc : (ws <=? pos) && (pos <=? we) = false).
  { apply andb_false_iff. right. apply Z.leb_gt. exact Hmiss. }
  destruct poss; simpl; now rewrite Hc.
Qed.

Lemma last_cons_default {A : Type} (x : A) (l : list A) (dflt : A) :
  last (x :: l) dflt = last l x.
Proof.
  revert x dflt. induction l as [|y l IH]; intros x dflt; [reflexivity |].
  change (last (x :: y :: l) dflt) with (last (y :: l) dflt).
  now rewrite !IH.
Qed.

(** C5, as the code has it: when the offset being searched lies beyond the
    text that is left, the walk ends with exactly one pair, the last leaf
    visited with its payload length, appended to the group under
    construction (after the leaves passed while an end was searched); the
    offsets still queued are dropped, however many they are.  The search is
    a total function: nothing is raised. *)
Theorem pending_offsets_clamped_once :
  forall (nodes : list (nat * string)) (lastNode : nat) (lastLength ws : Z)
         (s : Search),
    ws + totalLength nodes <= position s ->
    searchNodes nodes lastNode lastLength ws s =
    (groups s ++
     [nodeAndOffsets s ++
      (if isFindingTextSelectionEndPos s
       then map (fun nv => mkNodeAndOffset (fst nv) 0) nodes else []) ++
      [mkNodeAndOffset
         (last (map fst nodes) lastNode)
         (last (map (fun nv => JsString.length (snd nv)) nodes)
               lastLength)]])%list.
Proof.
  induction nodes as [|[c v] rest IH]; intros lastNode lastLength ws s Hpos.
  - simpl. destruct (isFindingTextSelectionEndPos s); reflexivity.
  - simpl in Hpos. pose proof (totalLength_nonneg rest) as Hrest.
    cbn [searchNodes].
    rewrite searchInNode_miss by lia.
    rewrite IH by (simpl; lia).
    cbn [groups nodeAndOffsets isFindingTextSelectionEndPos map fst snd].
    rewrite !last_cons_default.
    assert (Hlt : (ws + JsString.length v - 1 <? position s) = true)
      by (apply Z.ltb_lt; lia).
    rewrite Hlt.
    destruct (isFindingTextSelectionEndPos s); simpl;
      now rewrite <- ?app_assoc.
Qed.

Lemma pending_offsets_clamped_once_witness :
  0 + totalLength [(1%nat, "0123456789abcdefghij"%string)] <=
  position (mkSearch 25 [30; 40; 50] false [] []) /\
  _findNodeAndOffsetGroups exampleDocument
    [mkTextSelection 25 30; mkTextSelection 40 50] =
  [[mkNodeAndOffset 1 20]].
Proof.
  split; [vm_compute; discriminate |].
  exact (pending_offsets_clamped_once
           [(1%nat, "0123456789abcdefghij"%string)] 0%nat 0 0
           (mkSearch 25 [30; 40; 50] false [] [])
           (fun H : (0 + totalLength [(1%nat, "0123456789abcdefghij"%string)]
                     ?= 25) = Gt =>
              eq_ind Lt (fun c => match c with Lt => True | _ => False end)
                     I Gt H)).
Defined.

(** C5, as the specification words it, fails: two offsets are left over on
    the text of the test suite and one pair comes out. *)
Lemma not_every_pending_resolved :
  ~ everyPendingResolved exampleDocument [mkTextSelection 25 30].
Proof. unfold everyPendingResolved. vm_compute. discriminate. Qed.

(* ================================================================== *)
(** ** Leaves in document order *)

#[local] Arguments carries : simpl never.

Lemma flat_map_split {A B : Type} (f : A -> list B) (x : B) :
  forall (l : list A) (L R : list B),
    flat_map f l = (L ++ x :: R)%list ->
    exists l1 c l2 L2 R2,
      l = (l1 ++ c :: l2)%list /\ f c = (L2 ++ x :: R2)%list /\
      L = (flat_map f l1 ++ L2)%list /\ R = (R2 ++ flat_map f l2)%list.
Proof.
  induction l as [|c l IH]; simpl; intros L R H.
  - destruct L; discriminate.
  - apply app_eq_app in H. destruct H as (m & [[H1 H2] | [H1 H2]]).
    + destruct m as [|y m].
      * simpl in H2. rewrite app_nil_r in H1. symmetry in H2.
        destruct (IH [] R H2) as (l1 & c' & l2 & L2 & R2 & -> & Hc & HL & ->).
        exists (c :: l1), c', l2, L2, R2. simpl.
        repeat split; auto. rewrite <- H1.
        now rewrite <- app_assoc, <- HL, app_nil_r.
      * simpl in H2. injection H2 as -> ->.
        exists [], c, l, L, m. simpl. auto.
    + destruct (IH m R H2) as (l1 & c' & l2 & L2 & R2 & -> & Hc & -> & ->).
      exists (c :: l1), c', l2, L2, R2. simpl.
      repeat split; auto. now rewrite H1, <- app_assoc.
Qed.

Lemma plug_app (C1 C2 : list Frame) (x : Node) :
  plug (C1 ++ C2) x = plug C2 (plug C1 x).
Proof.
  revert x. induction C1 as [|f C1 IH]; intros x; simpl; [reflexivity |].
  apply IH.
Qed.

Lemma styledLeaves_plug (cls : string) (C : list Frame) :
  forall inh, exists L R b0,
    forall x, styledLeaves cls inh (plug C x) =
              (L ++ styledLeaves cls b0 x ++ R)%list.
Proof.
  induction C as [|f C IH] using rev_ind; intros inh.
  - exists [], [], inh. intros x. simpl. now rewrite app_nil_r.
  - destruct (IH (inh || carries cls (frameClass f))) as (L & R & b0 & H).
    exists (flat_map (styledLeaves cls (inh || carries cls (frameClass f)))
                     (before f) ++ L)%list,
           (R ++ flat_map (styledLeaves cls (inh || carries cls (frameClass f)))
                          (after f))%list, b0.
    intros x. rewrite plug_app. simpl. unfold fill. simpl.
    rewrite flat_map_app. simpl. rewrite H.
    now rewrite <- !app_assoc.
Qed.

(** A leaf of the listing has a parent: the document is a context around
    that parent, and the context fixes what comes before and after. *)
Lemma styledLeaves_focus (cls : string) :
  forall (x : Node) (inh : bool) (A B : list (nat * string * bool))
         (n : nat) (v : string) (b : bool),
    isText x = false ->
    styledLeaves cls inh x = (A ++ (n, v, b) :: B)%list ->
    exists C p tg cl pre post L R b0,
      x = plug C (Element p tg cl (pre ++ Text n v :: post)) /\
      (forall y, styledLeaves cls inh (plug C y) =
                 (L ++ styledLeaves cls b0 y ++ R)%list) /\
      b = (b0 || carries cls cl) /\
      A = (L ++ flat_map (styledLeaves cls b) pre)%list /\
      B = (flat_map (styledLeaves cls b) post ++ R)%list.
Proof.
  induction x as [i w | i tg cl ch IH] using Node_induction;
    intros inh A B n v b Hel H; [discriminate |].
  simpl in H.
  apply flat_map_split in H.
  destruct H as (l1 & c & l2 & L2 & R2 & -> & Hc & -> & ->).
  destruct c as [j w | j tg' cl' ch'].
  - simpl in Hc. destruct L2 as [|y L2]; simpl in Hc.
    + injection Hc as -> -> <- <-.
      exists [], i, tg, cl, l1, l2, [], [], inh. simpl.
      repeat split; intros; rewrite ?app_nil_r; auto.
    + injection Hc as _ Hc. destruct L2; discriminate.
  - apply Forall_app in IH. destruct IH as [_ IH]. inversion IH as [|? ? Hc' _].
    subst.
    destruct (Hc' _ _ _ _ _ _ eq_refl Hc)
      as (C & p & tg0 & cl0 & pre & post & L & R & b0 & Hx & Hplug & Hb & -> & ->).
    exists (C ++ [mkFrame i tg cl l1 l2])%list, p, tg0, cl0, pre, post,
           (flat_map (styledLeaves cls (inh || carries cls cl)) l1 ++ L)%list,
           (R ++ flat_map (styledLeaves cls (inh || carries cls cl)) l2)%list,
           b0.
    repeat split; auto.
    + rewrite plug_app. simpl. unfold fill. simpl. now rewrite Hx.
    + intros y. rewrite plug_app. simpl. unfold fill. simpl.
      rewrite flat_map_app. simpl. rewrite Hplug.
      now rewrite <- !app_assoc.
    + now rewrite <- !app_assoc.
    + now rewrite <- !app_assoc.
Qed.

(* ------------------------------------------------------------------ *)
(** *** Shape of the tree *)

Lemma lastIsText_cons (x : Node) (l : list Node) :
  lastIsText (x :: l) = match l with [] => isText x | _ => lastIsText l end.
Proof.
  unfold lastIsText. simpl. destruct l as [|y l]; [reflexivity |].
  simpl. destruct (rev l ++ [y])%list eqn:H; [| reflexivity].
  apply app_eq_nil in H. destruct H; discriminate.
Qed.

Lemma adjacentText_cons (x y : Node) (l : list Node) :
  adjacentText (x :: y :: l) = (isText x && isText y) || adjacentText (y :: l).
Proof. reflexivity. Qed.

Lemma adjacentText_app (l r : list Node) :
  adjacentText (l ++ r) =
  adjacentText l || adjacentText r || (lastIsText l && firstIsText r).
Proof.
  induction l as [|x l IH].
  - simpl. now rewrite orb_false_r.
  - rewrite lastIsText_cons. destruct l as [|y l].
    + destruct r as [|z r].
      * simpl. now rewrite andb_false_r.
      * cbn [app]. rewrite adjacentText_cons. cbn [firstIsText].
        change (adjacentText [x]) with false. cbn [orb].
        apply orb_comm.
    + cbn [app] in *. rewrite !adjacentText_cons, IH.
      rewrite lastIsText_cons at 1.
      assert (Hl : lastIsText (y :: l) = match l with
                                         | [] => isText y
                                         | _ :: _ => lastIsText l
                                         end) by apply lastIsText_cons.
      rewrite <- Hl. now rewrite !orb_assoc.
Qed.

Lemma adjacentText_replace (l r : list Node) (x x' : Node) :
  isText x = isText x' ->
  adjacentText (l ++ x :: r) = adjacentText (l ++ x' :: r).
Proof.
  intros H. rewrite !adjacentText_app. simpl. rewrite H.
  destruct r; simpl; rewrite ?H; reflexivity.
Qed.

Lemma normalized_plug (C : list Frame) : forall (x x' : Node),
  isText x = isText x' ->
  (normalized x = true -> normalized x' = true) ->
  normalized (plug C x) = true -> normalized (plug C x') = true.
Proof.
  induction C as [|f C IH]; intros x x' Hk Hn; simpl; [exact Hn |].
  apply IH; [reflexivity |]. unfold fill. simpl.
  rewrite (adjacentText_replace _ _ x x' Hk).
  rewrite !forallb_app. simpl.
  intros H. apply andb_true_iff in H. destruct H as [H1 H2].
  apply andb_true_iff in H2. destruct H2 as [H2 H3].
  apply andb_true_iff in H3. destruct H3 as [H3 H4].
  rewrite H1, H2, H4, (Hn H3). reflexivity.
Qed.

Lemma spansUnder_plug (C : list Frame) : forall (x x' : Node),
  isText x = false -> tagOf x = tagOf x' ->
  (forallb allSpans (childNodesOf x) = true ->
   forallb allSpans (childNodesOf x') = true) ->
  spansUnder (plug C x) = true -> spansUnder (plug C x') = true.
Proof.
  induction C as [|f C IH]; intros x x' Hk Ht Hn; simpl; [exact Hn |].
  apply IH; [reflexivity | reflexivity |]. unfold fill. simpl.
  rewrite !forallb_app. simpl.
  intros H. apply andb_true_iff in H. destruct H as [H1 H2].
  apply andb_true_iff in H2. destruct H2 as [H2 H3].
  rewrite H1, H3, andb_true_r. simpl.
  destruct x as [|i tg cl ch]; [discriminate |].
  destruct x' as [|i' tg' cl' ch']; [discriminate |].
  simpl in *. injection Ht as <-.
  apply andb_true_iff in H2. destruct H2 as [Hs Hc].
  now rewrite Hs, (Hn Hc).
Qed.

(** Replacing the children of the element in focus keeps the shape when
    the new child list has no adjacent text nodes and only spans in it. *)
Lemma shapeKept_focus (C : list Frame) (p : nat) (tg : string)
      (cl cl' : list string) (ch ch' : list Node) :
  (negb (adjacentText ch) && forallb normalized ch = true ->
   negb (adjacentText ch') && forallb normalized ch' = true) ->
  (forallb allSpans ch = true -> forallb allSpans ch' = true) ->
  shapeKept (plug C (Element p tg cl ch)) (plug C (Element p tg cl' ch')).
Proof.
  intros Hn Hs. split.
  - apply normalized_plug; [reflexivity | exact Hn].
  - apply spansUnder_plug; [reflexivity | reflexivity | exact Hs].
Qed.

Lemma shapeKept_refl (r : Node) : shapeKept r r.
Proof. split; auto. Qed.

Lemma shapeKept_trans (r1 r2 r3 : Node) :
  shapeKept r1 r2 -> shapeKept r2 r3 -> shapeKept r1 r3.
Proof. intros [H1 H2] [H3 H4]. split; auto. Qed.

(** A text child replaced by pieces that start and end the same way, or
    by an element, in a list without adjacent text nodes. *)
Lemma pieces_keep_shape (pre post pieces : list Node) (n : nat) (v : string) :
  adjacentText pieces = false ->
  forallb normalized pieces = true ->
  forallb allSpans pieces = true ->
  pieces <> [] ->
  (negb (adjacentText (pre ++ Text n v :: post)) &&
   forallb normalized (pre ++ Text n v :: post) = true ->
   negb (adjacentText (pre ++ pieces ++ post)) &&
   forallb normalized (pre ++ pieces ++ post) = true) /\
  (forallb allSpans (pre ++ Text n v :: post) = true ->
   forallb allSpans (pre ++ pieces ++ post) = true).
Proof.
  intros Hadj Hnorm Hspans Hne. split.
  - rewrite !forallb_app. simpl. rewrite ?forallb_app.
    rewrite !adjacentText_app. simpl.
    intros H. apply andb_true_iff in H. destruct H as [H1 H2].
    apply andb_true_iff in H2. destruct H2 as [H2 H3].
    rewrite H2, H3, Hnorm, Hadj. simpl.
    apply negb_true_iff in H1.
    apply orb_false_iff in H1. destruct H1 as [H1 H4].
    apply orb_false_iff in H1. destruct H1 as [H1 H5].
    rewrite H1. simpl.
    assert (Hpost : adjacentText post = false /\ firstIsText post = false).
    { destruct post as [|q post]; [auto |]. simpl in H5.
      apply orb_false_iff in H5. destruct H5. simpl. auto. }
    destruct Hpost as [Hp1 Hp2]. rewrite Hp1, Hp2.
    rewrite andb_true_r in H4. rewrite H4.
    rewrite !andb_false_r. reflexivity.
  - rewrite !forallb_app. simpl. rewrite ?forallb_app.
    intros H. apply andb_true_iff in H. destruct H as [H1 H2].
    now rewrite H1, H2, Hspans.
Qed.

Lemma isText_plug (C : list Frame) (x : Node) :
  isText x = false -> isText (plug C x) = false.
Proof.
  revert x. induction C as [|f C IH]; intros x H; simpl; [exact H |].
  apply IH. reflexivity.
Qed.

Lemma carries_tokenAdd (cls : string) (cl : list string) :
  carries cls (tokenAdd cls cl) = true.
Proof.
  unfold carries, tokenAdd.
  destruct (existsb (String.eqb cls) cl) eqn:H; [exact H |].
  rewrite existsb_app. simpl. now rewrite String.eqb_refl, orb_true_r.
Qed.

Lemma carries_single (cls : string) : carries cls [cls] = true.
Proof. unfold carries. simpl. now rewrite String.eqb_refl. Qed.

Section LeafEffects.

Variable className : string.
Variables (d : document) (A B : list (nat * string * bool))
          (n : nat) (v : string) (b : bool).
Hypothesis Hwf : wellFormed d.
Hypothesis Hroot : isText (rootElement d) = false.
Hypothesis Hleaves : leaves className d = (A ++ (n, v, b) :: B)%list.

Lemma leaf_nodeValue : Dom.nodeValue d n = Some v.
Proof.
  destruct (styledLeaves_focus className _ _ _ _ _ _ _ Hroot Hleaves)
    as (C & p & tg & cl & pre & post & L & R & b0 & Hx & _).
  eapply focus_nodeValue; eauto.
Qed.

Lemma applyToWholeNode_leaves :
  exists d' m,
    _applyToWholeNode className d n = Some (d', m) /\
    wellFormed d' /\ isText (rootElement d') = false /\
    (nextId d <= nextId d')%nat /\
    shapeKept (rootElement d) (rootElement d') /\
    leaves className d' = (A ++ (n, v, true) :: B)%list.
Proof.
  destruct (styledLeaves_focus className _ _ _ _ _ _ _ Hroot Hleaves)
    as (C & p & tg & cl & pre & post & L & R & b0 & Hx & Hplug & Hb & HA & HB).
  destruct (applyToWholeNode_focus className d C p tg cl pre post n v Hwf Hx)
    as [Heq Hwf'].
  unfold wholeWrap in *.
  destruct (pre ++ post)%list as [|q rest] eqn:Hsib.
  - apply app_eq_nil in Hsib. destruct Hsib as [-> ->].
    eexists _, _. split; [exact Heq |]. simpl in *.
    split; [exact Hwf' |]. split; [now apply isText_plug |].
    split; [lia |]. split.
    { rewrite Hx. apply shapeKept_focus; auto. }
    unfold leaves. simpl. rewrite Hplug. simpl.
    rewrite carries_tokenAdd, orb_true_r. subst A B.
    now rewrite app_nil_r.
  - eexists _, _. split; [exact Heq |]. simpl in *.
    split; [exact Hwf' |]. split; [now apply isText_plug |].
    split; [lia |]. split.
    { rewrite Hx.
      destruct (pieces_keep_shape pre post
                  [Element (nextId d) "span" [className] [Text n v]] n v)
        as [Hn Hs]; try reflexivity; try discriminate.
      apply shapeKept_focus; assumption. }
    unfold leaves. simpl. rewrite Hplug. simpl.
    rewrite flat_map_app. simpl.
    rewrite carries_single, orb_true_r. subst A B. rewrite <- Hb.
    now rewrite <- !app_assoc.
Qed.

Lemma applyToNode_leaves (s e : Z) :
  exists d' affected,
    _applyToNode className d n s e = Some (d', affected) /\
    wellFormed d' /\ isText (rootElement d') = false /\
    (nextId d <= nextId d')%nat /\
    shapeKept (rootElement d) (rootElement d') /\
    leaves className d' = (A ++ leafPieces (nextId d) n v b s e ++ B)%list.
Proof.
  unfold leafPieces.
  destruct (Z.eqb_spec s e) as [-> | Hse].
  - exists d, []. unfold _applyToNode. rewrite Z.eqb_refl.
    split; [reflexivity |]. split; [exact Hwf |]. split; [exact Hroot |].
    split; [lia |]. split; [apply shapeKept_refl | exact Hleaves].
  - destruct ((s =? 0) && (e =? JsString.length v)) eqn:Hwhole.
    + destruct applyToWholeNode_leaves
        as (d' & m & Heq & Hwf' & Hr & Hle & Hk & Hl).
      exists d', [m]. unfold _applyToNode.
      destruct (Z.eqb_spec s e); [contradiction |].
      rewrite leaf_nodeValue, Hwhole, Heq. auto 7.
    + destruct (styledLeaves_focus className _ _ _ _ _ _ _ Hroot Hleaves)
        as (C & p & tg & cl & pre & post & L & R & b0 & Hx & Hplug & Hb
            & HA & HB).
      assert (Hnot : ~ (s = 0 /\ e = JsString.length v)).
      { intros [-> ->]. now rewrite !Z.eqb_refl in Hwhole. }
      destruct (applyToNode_partial className d C p tg cl pre post n v
                  Hwf Hx s e Hse Hnot) as [Heq Hwf'].
      eexists _, _. split; [exact Heq |].
      split; [exact Hwf' |]. split; [now apply isText_plug |].
      split; [| split].
      * unfold splitPieces. simpl.
        destruct (s =? 0); [simpl; lia |].
        destruct (e <? JsString.length v); simpl; lia.
      * rewrite Hx. simpl.
        destruct (pieces_keep_shape pre post
                    (fst (splitPieces className (nextId d) n v s e)) n v)
          as [Hn Hs];
          try (unfold splitPieces, styledSpan;
               destruct (s =? 0); [| destruct (e <? JsString.length v)];
               simpl; (reflexivity || discriminate)).
        apply shapeKept_focus; assumption.
      * unfold leaves. simpl. rewrite Hplug. simpl.
        rewrite !flat_map_app. subst A B. rewrite <- Hb.
        unfold splitPieces, styledSpan.
        destruct (s =? 0); [| destruct (e <? JsString.length v)]; simpl;
          rewrite carries_single, orb_true_r, <- ?app_assoc; reflexivity.
Qed.

End LeafEffects.

(* ================================================================== *)
(** ** What the offset resolver returns *)

Lemma rangesOk_tail (p : Z) (ps : list Z) :
  rangesOk (p :: ps) -> exists e rest, ps = e :: rest /\ p <= e /\ rangesOk rest.
Proof.
  intros (sels & Hps & Hok). destruct sels as [|r sels]; [discriminate |].
  simpl in Hps. injection Hps as -> ->. inversion Hok; subst.
  exists (selEnd r), (positionsOf sels). repeat split; auto.
  exists sels. auto.
Qed.

Lemma searchInNode_unfold (c : nat) (ws we pos : Z) (poss : list Z)
      (isEnd : bool) (gs : list NodeGroup) (cur : NodeGroup) :
  searchInNode c ws we pos poss isEnd gs cur =
  if (ws <=? pos) && (pos <=? we) then
    let cur1 := (cur ++ [mkNodeAndOffset c (pos - ws)])%list in
    let '(isEnd', gs', cur') :=
      if isEnd then (false, (gs ++ [cur1])%list, [])
      else (true, gs, cur1) in
    match poss with
    | [] => inl (gs' ++ [cur'])%list
    | p :: ps => searchInNode c ws we p ps isEnd' gs' cur'
    end
  else inr (mkSearch pos poss isEnd gs cur).
Proof. destruct poss; reflexivity. Qed.

Section ResolverGroups.

Variable leafIds : list nat.

Lemma groupOk_nil : groupOk leafIds [].
Proof.
  split; [simpl; lia | intros; discriminate].
Qed.

Lemma finished_group_ok (visited : list nat) (c : nat) (ws we pos : Z)
      (cur : NodeGroup) :
  ~ In c visited -> incl (c :: visited) leafIds ->
  currentOk visited c ws we pos true cur ->
  groupOk leafIds (cur ++ [mkNodeAndOffset c (pos - ws)]).
Proof.
  intros Hc Hincl (a & o & ints & -> & Hshape). split.
  - intros _. simpl. constructor.
    + apply Hincl. destruct Hshape as [[Ha _] | [-> _]]; simpl; auto.
    + apply Forall_app. split.
      * destruct Hshape as [[_ Hints] | (_ & -> & _)]; [| constructor].
        eapply Forall_impl; [| exact Hints]. simpl. auto.
      * constructor; [| constructor]. apply Hincl. simpl. auto.
  - intros x y Heq Hsame. destruct ints as [|i ints]; simpl in Heq.
    + injection Heq as <- <-. simpl in *.
      destruct Hshape as [[Ha _] | (-> & _ & Ho & _)]; [| exact Ho].
      subst. contradiction.
    + destruct ints; discriminate.
Qed.

Lemma searchInNode_ok (visited : list nat) (c : nat) (ws we : Z) :
  ~ In c visited -> incl (c :: visited) leafIds ->
  forall (poss : list Z) (pos : Z) (isEnd : bool) (gs : list NodeGroup)
         (cur : NodeGroup),
    Forall (groupOk leafIds) gs ->
    currentOk visited c ws we pos isEnd cur ->
    pendingOk isEnd pos poss ->
    match searchInNode c ws we pos poss isEnd gs cur with
    | inl result => Forall (groupOk leafIds) result
    | inr s =>
        Forall (groupOk leafIds) (groups s) /\
        currentOk visited c ws we (position s)
                  (isFindingTextSelectionEndPos s) (nodeAndOffsets s) /\
        pendingOk (isFindingTextSelectionEndPos s) (position s) (positions s)
    end.
Proof.
  intros Hc Hincl.
  induction poss as [|p ps IH]; intros pos isEnd gs cur Hgs Hcur Hpend;
    rewrite searchInNode_unfold;
    destruct ((ws <=? pos) && (pos <=? we)) eqn:Hfound;
    try (simpl; auto; fail).
  - (* the last position is found *)
    destruct isEnd; cbv zeta iota beta.
    + apply Forall_app. split; [| constructor; [apply groupOk_nil | constructor]].
      apply Forall_app. split; [assumption |].
      constructor; [| constructor]. eapply finished_group_ok; eauto.
    + apply rangesOk_tail in Hpend. destruct Hpend as (e & rest & H & _).
      discriminate.
  - (* a position is found and others are left *)
    apply andb_true_iff in Hfound. destruct Hfound as [Hlo Hhi].
    apply Z.leb_le in Hlo, Hhi.
    destruct isEnd; cbv zeta iota beta.
    + apply IH; simpl; auto.
      apply Forall_app. split; [assumption |].
      constructor; [| constructor]. eapply finished_group_ok; eauto.
    + simpl in Hcur. subst cur. apply rangesOk_tail in Hpend.
      destruct Hpend as (e & rest & Heq & Hle & Hrest).
      injection Heq as -> ->.
      apply IH; simpl; auto.
      exists c, (pos - ws), []. split; [reflexivity |]. right.
      repeat split; lia.
Qed.

Lemma searchNodes_ok :
  forall (rest : list (nat * string)) (visited : list nat)
         (lastNode : nat) (lastLength ws : Z) (s : Search),
    NoDup (visited ++ map fst rest) ->
    incl (visited ++ map fst rest) leafIds ->
    (visited <> [] -> In lastNode visited) ->
    Forall (groupOk leafIds) (groups s) ->
    (if isFindingTextSelectionEndPos s then
       exists a o ints,
         nodeAndOffsets s = mkNodeAndOffset a o :: ints /\
         In a visited /\ Forall (fun x => In (node x) visited) ints /\
         (ints = [] -> a = lastNode -> o <= lastLength)
     else nodeAndOffsets s = []) ->
    pendingOk (isFindingTextSelectionEndPos s) (position s) (positions s) ->
    Forall (groupOk leafIds) (searchNodes rest lastNode lastLength ws s).
Proof.
  induction rest as [|[c v] rest IH];
    intros visited lastNode lastLength ws s Hnd Hincl Hlast Hgs Hcur Hpend.
  - (* after the last leaf *)
    simpl. rewrite app_nil_r in *.
    apply Forall_app. split; [assumption |]. repeat constructor.
    + intros Hlen. destruct (isFindingTextSelectionEndPos s).
      * destruct Hcur as (a & o & ints & -> & Ha & Hints & _).
        simpl. constructor; [now apply Hincl |].
        apply Forall_app. split.
        { eapply Forall_impl; [| exact Hints]. simpl. auto. }
        repeat constructor. simpl. apply Hincl, Hlast.
        intros ->. destruct Ha.
      * rewrite Hcur in Hlen. simpl in Hlen. lia.
    + intros x y Heq Hsame. destruct (isFindingTextSelectionEndPos s).
      * destruct Hcur as (a & o & ints & Hc & Ha & Hints & Hord).
        rewrite Hc in Heq. destruct ints as [|i ints]; simpl in Heq.
        { injection Heq as <- <-. simpl in *. now apply Hord. }
        { destruct ints; discriminate. }
      * rewrite Hcur in Heq. discriminate.
  - (* one more leaf *)
    cbn [searchNodes].
    set (we := ws + JsString.length v - 1).
    set (cur := if isFindingTextSelectionEndPos s && (we <? position s)
                then (nodeAndOffsets s ++ [mkNodeAndOffset c 0])%list
                else nodeAndOffsets s).
    assert (Hc : ~ In c visited).
    { simpl in Hnd. apply NoDup_app_iff in Hnd.
      destruct Hnd as (_ & _ & Hdis). intros Hin.
      apply (Hdis c Hin). simpl. auto. }
    assert (Hincl' : incl (c :: visited) leafIds).
    { intros x [<- | Hx]; apply Hincl; rewrite in_app_iff; simpl; auto. }
    assert (Hcur' : currentOk visited c ws we (position s)
                      (isFindingTextSelectionEndPos s) cur).
    { unfold currentOk, cur.
      destruct (isFindingTextSelectionEndPos s); [| exact Hcur].
      destruct Hcur as (a & o & ints & -> & Ha & Hints & _). simpl.
      destruct (we <? position s).
      - exists a, o, (ints ++ [mkNodeAndOffset c 0])%list.
        split; [reflexivity |]. left. split; [assumption |].
        apply Forall_app. split.
        + eapply Forall_impl; [| exact Hints]. simpl. auto.
        + constructor; [simpl; auto | constructor].
      - exists a, o, ints. split; [reflexivity |]. left. split; [assumption |].
        eapply Forall_impl; [| exact Hints]. simpl. auto. }
    pose proof (searchInNode_ok visited c ws we Hc Hincl' (positions s)
                  (position s) (isFindingTextSelectionEndPos s) (groups s)
                  cur Hgs Hcur' Hpend) as Hin.
    destruct (searchInNode c ws we (position s) (positions s)
                (isFindingTextSelectionEndPos s) (groups s) cur)
      as [result | s']; [exact Hin |].
    destruct Hin as (Hgs' & Hcur'' & Hpend').
    apply (IH (visited ++ [c])%list); auto.
    + now rewrite <- app_assoc.
    + now rewrite <- app_assoc.
    + intros _. rewrite in_app_iff. simpl. auto.
    + unfold currentOk in Hcur''.
      destruct (isFindingTextSelectionEndPos s'); [| exact Hcur''].
      destruct Hcur'' as (a & o & ints & -> & Hshape).
      exists a, o, ints. split; [reflexivity |].
      destruct Hshape as [[Ha Hints] | (-> & -> & _ & Ho)].
      * repeat split.
        { rewrite in_app_iff. auto. }
        { eapply Forall_impl; [| exact Hints]. simpl.
          intros x [<- | Hx]; rewrite in_app_iff; simpl; auto. }
        { intros _ ->. contradiction. }
      * repeat split.
        { rewrite in_app_iff. simpl. auto. }
        { constructor. }
        { intros _ _. unfold we in Ho. lia. }
Qed.

End ResolverGroups.

(* ================================================================== *)
(** ** Content preservation *)

Lemma textNodes_styledLeaves (cls : string) (x : Node) :
  forall inh, textNodes x = map fst (styledLeaves cls inh x).
Proof.
  induction x as [i v | i tg cl ch IH] using Node_induction; intros inh;
    simpl; [reflexivity |].
  induction IH as [|c ch Hc _ IHch]; simpl; [reflexivity |].
  now rewrite map_app, <- Hc, IHch.
Qed.

Lemma treeWalker_leaves (cls : string) (d : document) :
  isText (rootElement d) = false ->
  treeWalker (rootElement d) = map fst (leaves cls d).
Proof.
  unfold leaves. intros H. rewrite <- textNodes_styledLeaves.
  destruct (rootElement d); [discriminate | reflexivity].
Qed.

Lemma textContent_leaves (cls : string) (d : document) :
  textContent (rootElement d) = leafText (leaves cls d).
Proof.
  unfold textContent, leafText, leaves.
  rewrite (textNodes_styledLeaves cls _ false), map_map. reflexivity.
Qed.

Lemma leafIds_leaves (cls : string) (d : document) :
  isText (rootElement d) = false ->
  map fst (treeWalker (rootElement d)) = map leafId (leaves cls d).
Proof.
  intros H. rewrite (treeWalker_leaves cls d H), map_map. reflexivity.
Qed.

Lemma textNodes_ids (x : Node) :
  incl (map fst (textNodes x)) (ids x) /\
  (NoDup (ids x) -> NoDup (map fst (textNodes x))).
Proof.
  induction x as [i v | i tg cl ch IH] using Node_induction; simpl.
  - split; [apply incl_refl | auto].
  - assert (H : incl (map fst (flat_map textNodes ch)) (flat_map ids ch) /\
                (NoDup (flat_map ids ch) ->
                 NoDup (map fst (flat_map textNodes ch)))).
    { induction IH as [|c ch [Hi Hn] _ [IHi IHn]]; simpl.
      - split; [apply incl_refl | auto].
      - rewrite map_app. split.
        + apply incl_app; [apply incl_appl | apply incl_appr]; assumption.
        + rewrite !NoDup_app_iff. intros (H1 & H2 & H3).
          repeat split; auto.
          intros a Ha Ha'. apply (H3 a); auto. }
    destruct H as [Hi Hn]. split.
    + now apply incl_tl.
    + intros Hd. inversion Hd. auto.
Qed.

Lemma leafText_app (l1 l2 : list (nat * string * bool)) :
  leafText (l1 ++ l2) = (leafText l1 ++ leafText l2)%string.
Proof.
  unfold leafText. induction l1 as [|x l1 IH]; simpl; [reflexivity |].
  rewrite IH. clear IH.
  induction (leafValue x) as [|c s IHs]; simpl; [reflexivity |].
  now rewrite IHs.
Qed.

Lemma append_empty_r (s : string) : (s ++ EmptyString)%string = s.
Proof. induction s as [|c s IH]; simpl; [reflexivity | now rewrite IH]. Qed.

Lemma substring_past_end (v : string) (s : Z) :
  JsString.length v <= s ->
  JsString.substring v 0 s = v /\
  JsString.substring v s (JsString.length v) = EmptyString.
Proof.
  intros Hs. pose proof (substring_split2 v s) as H.
  assert (H2 : JsString.substring v s (JsString.length v) = EmptyString).
  { apply chars_inj. rewrite chars_jsSubstring. simpl.
    replace (Z.to_nat (JsString.clamp (JsString.length v) s))
      with (Z.to_nat (JsString.clamp (JsString.length v) (JsString.length v)))
      by (unfold JsString.clamp, JsString.length in *; lia).
    rewrite Nat.min_id, Nat.max_id. apply seg_nil. }
  rewrite H2, append_empty_r in H. auto.
Qed.

Lemma leafPieces_text (k n : nat) (v : string) (b : bool) (s e : Z) :
  s <= e \/ e = JsString.length v ->
  leafText (leafPieces k n v b s e) = v.
Proof.
  intros Hse. unfold leafPieces, leafText, leafValue.
  destruct (Z.eqb_spec s e); [simpl; apply append_empty_r |].
  destruct ((s =? 0) && (e =? JsString.length v)) eqn:Hw;
    [simpl; apply append_empty_r |].
  destruct (Z.eqb_spec s 0) as [-> | Hs].
  - simpl. rewrite append_empty_r. apply substring_split2.
  - destruct (Z.le_gt_cases s e) as [Hle | Hgt].
    + pose proof (substring_split3 v s e Hle) as H.
      destruct (e <? JsString.length v); simpl;
        rewrite ?append_empty_r in *; exact H.
    + destruct Hse as [? | ->]; [lia |].
      rewrite Z.ltb_irrefl. simpl. rewrite append_empty_r.
      destruct (substring_past_end v s) as [H1 H2]; [lia |].
      now rewrite H1, H2, append_empty_r.
Qed.

Lemma leafPieces_keeps_id (k n : nat) (v : string) (b : bool) (s e : Z) :
  In n (map leafId (leafPieces k n v b s e)).
Proof.
  unfold leafPieces.
  destruct (s =? e); [simpl; auto |].
  destruct ((s =? 0) && (e =? JsString.length v)); [simpl; auto |].
  destruct (s =? 0); [simpl; auto |].
  destruct (e <? JsString.length v); simpl; auto.
Qed.

Section ContentPreservation.

Variable className : string.
Variable d0 : document.

Lemma leaf_split (d : document) (n : nat) :
  In n (map leafId (leaves className d)) ->
  exists A v b B, leaves className d = (A ++ (n, v, b) :: B)%list.
Proof.
  intros H. apply in_map_iff in H. destruct H as ([[m v] b] & Hid & Hin).
  unfold leafId in Hid. simpl in Hid. subst m.
  apply in_split in Hin. destruct Hin as (A & B & H). eauto.
Qed.

Lemma preserved_applyToNode (d : document) (n : nat) (s e : Z) :
  preserved className d0 d ->
  In n (map leafId (leaves className d0)) ->
  (s <= e \/
   exists v, Dom.nodeValue d n = Some v /\ e = JsString.length v) ->
  exists d' affected,
    _applyToNode className d n s e = Some (d', affected) /\ preserved className d0 d'.
Proof.
  intros (Hwf & Hroot & Hincl & Htext & Hshape) Hn Hse.
  destruct (leaf_split d n (Hincl n Hn)) as (A & v & b & B & Hl).
  destruct (applyToNode_leaves className d A B n v b Hwf Hroot Hl s e)
    as (d' & aff & Heq & Hwf' & Hroot' & _ & Hk & Hl').
  exists d', aff. split; [exact Heq |].
  split; [exact Hwf' |]. split; [exact Hroot' |].
  split; [| split; [| eapply shapeKept_trans; eauto]].
  - intros m Hm. apply Hincl in Hm. rewrite Hl in Hm. rewrite Hl'.
    rewrite !map_app, !in_app_iff in *. simpl in Hm.
    destruct Hm as [Hm | [Hm | Hm]]; auto.
    unfold leafId in Hm at 1. simpl in Hm. subst m.
    right. left. apply leafPieces_keeps_id.
  - rewrite <- Htext, Hl, Hl', !leafText_app. f_equal.
    change ((n, v, b) :: B) with ([(n, v, b)] ++ B)%list.
    rewrite leafText_app. f_equal.
    rewrite leafPieces_text; [unfold leafText; simpl;
                              now rewrite append_empty_r |].
    destruct Hse as [? | (v' & Hv & ->)]; [auto |].
    rewrite (leaf_nodeValue className d A B n v b Hwf Hroot Hl) in Hv.
    injection Hv as <-. auto.
Qed.

Lemma preserved_applyToWholeNode (d : document) (n : nat) :
  preserved className d0 d ->
  In n (map leafId (leaves className d0)) ->
  exists d' m,
    _applyToWholeNode className d n = Some (d', m) /\ preserved className d0 d'.
Proof.
  intros (Hwf & Hroot & Hincl & Htext & Hshape) Hn.
  destruct (leaf_split d n (Hincl n Hn)) as (A & v & b & B & Hl).
  destruct (applyToWholeNode_leaves className d A B n v b Hwf Hroot Hl)
    as (d' & m & Heq & Hwf' & Hroot' & _ & Hk & Hl').
  exists d', m. split; [exact Heq |].
  split; [exact Hwf' |]. split; [exact Hroot' |].
  split; [| split; [| eapply shapeKept_trans; eauto]].
  - rewrite Hl'. intros x Hx. apply Hincl in Hx. rewrite Hl in Hx.
    rewrite !map_app in *. exact Hx.
  - rewrite <- Htext, Hl, Hl', !leafText_app. reflexivity.
Qed.

Lemma preserved_nodeValue (d : document) (n : nat) :
  preserved className d0 d ->
  In n (map leafId (leaves className d0)) ->
  exists v, Dom.nodeValue d n = Some v.
Proof.
  intros (Hwf & Hroot & Hincl & Htext & _) Hn.
  destruct (leaf_split d n (Hincl n Hn)) as (A & v & b & B & Hl).
  exists v. eapply leaf_nodeValue; eauto.
Qed.

Lemma preserved_applyToMiddleNodes (g : NodeGroup) :
  Forall (fun x => In (node x) (map leafId (leaves className d0))) g ->
  forall (k : nat) (d : document) (acc : list nat),
    (k <= List.length g)%nat ->
    preserved className d0 d ->
    exists d' acc',
      applyToMiddleNodes className d g k acc = Some (d', acc') /\
      preserved className d0 d'.
Proof.
  intros Hg. induction k as [|k IH]; intros d acc Hk Hp.
  - simpl. eauto.
  - destruct k as [|k]; [simpl; eauto |].
    cbn [applyToMiddleNodes].
    destruct (nth_error g (S k)) as [x |] eqn:Hx.
    2:{ apply nth_error_None in Hx. lia. }
    assert (Hin : In (node x) (map leafId (leaves className d0))).
    { rewrite Forall_forall in Hg. eapply Hg, nth_error_In; eauto. }
    destruct (isLineBreak d (node x)).
    + apply IH; [lia | assumption].
    + destruct (preserved_applyToWholeNode d (node x) Hp Hin)
        as (d' & m & -> & Hp').
      apply IH; [lia | assumption].
Qed.

Lemma preserved_applyToGroup (d : document) (g : NodeGroup) :
  preserved className d0 d ->
  groupOk (map leafId (leaves className d0)) g ->
  exists d' affected,
    applyToGroup className d g = Some (d', affected) /\ preserved className d0 d'.
Proof.
  intros Hp [Hnodes Hsame]. unfold applyToGroup.
  destruct (Nat.eqb (List.length g) 2 && _) eqn:Hpair.
  - apply andb_true_iff in Hpair. destruct Hpair as [Hlen Heq].
    apply Nat.eqb_eq in Hlen, Heq.
    destruct g as [|a [|b [|c g]]]; try discriminate. simpl in *.
    apply preserved_applyToNode; auto.
    assert (Hf : Forall (fun x => In (node x) (map leafId (leaves className d0)))
                        [a; b]) by (apply Hnodes; lia).
    now inversion Hf.
  - destruct (Nat.leb_spec 2 (List.length g)) as [Hlen | _]; [| eauto].
    specialize (Hnodes Hlen).
    destruct (nth_error g (List.length g - 1)) as [t |] eqn:Ht.
    2:{ apply nth_error_None in Ht. lia. }
    assert (Htin : In (node t) (map leafId (leaves className d0))).
    { rewrite Forall_forall in Hnodes. eapply Hnodes, nth_error_In; eauto. }
    assert (Hstep1 : exists d1 a1,
      (if 0 <? offset t
       then _applyToNode className d (node t) 0 (offset t)
       else Some (d, [])) = Some (d1, a1) /\ preserved className d0 d1).
    { destruct (Z.ltb_spec 0 (offset t)); [| eauto].
      apply preserved_applyToNode; auto. left. lia. }
    destruct Hstep1 as (d1 & a1 & -> & Hp1).
    destruct (preserved_applyToMiddleNodes g Hnodes (List.length g - 1) d1 a1)
      as (d2 & a2 & -> & Hp2); [lia | assumption |].
    destruct g as [|h g]; [simpl in Hlen; lia |]. simpl.
    assert (Hhin : In (node h) (map leafId (leaves className d0)))
      by now inversion Hnodes.
    destruct (preserved_nodeValue d2 (node h) Hp2 Hhin) as (hv & Hhv).
    rewrite Hhv.
    destruct (preserved_applyToNode d2 (node h) (offset h)
                (JsString.length hv) Hp2 Hhin) as (d3 & a3 & -> & Hp3);
      eauto.
Qed.

Lemma preserved_applyToGroups (gs : list NodeGroup) :
  Forall (groupOk (map leafId (leaves className d0))) gs ->
  forall (k : nat) (d : document) (acc : list (list nat)),
    (k <= List.length gs)%nat ->
    preserved className d0 d ->
    exists d' acc',
      applyToGroups className d gs k acc = Some (d', acc') /\ preserved className d0 d'.
Proof.
  intros Hgs. induction k as [|k IH]; intros d acc Hk Hp; simpl; [eauto |].
  destruct (nth_error gs k) as [g |] eqn:Hg.
  2:{ apply nth_error_None in Hg. lia. }
  assert (Hok : groupOk (map leafId (leaves className d0)) g).
  { rewrite Forall_forall in Hgs. eapply Hgs, nth_error_In; eauto. }
  destruct (preserved_applyToGroup d g Hp Hok) as (d1 & a1 & -> & Hp1).
  apply IH; [lia | assumption].
Qed.

End ContentPreservation.

Lemma findNodeAndOffsetGroups_ok (cls : string) (d : document)
      (textSelections : list TextSelection) :
  wellFormed d -> isText (rootElement d) = false ->
  Forall (fun r => selStart r <= selEnd r) textSelections ->
  Forall (groupOk (map leafId (leaves cls d)))
         (_findNodeAndOffsetGroups d textSelections).
Proof.
  intros [Hnd _] Hroot Hsels. unfold _findNodeAndOffsetGroups.
  destruct (positionsOf textSelections) as [|p ps] eqn:Hps.
  - constructor; [| constructor]. split; [simpl; lia | intros; discriminate].
  - rewrite <- (leafIds_leaves cls d Hroot).
    apply (searchNodes_ok _ _ []); simpl; auto.
    + destruct (rootElement d) as [|i tg cl ch]; [discriminate |].
      apply (proj2 (textNodes_ids (Element i tg cl ch))). exact Hnd.
    + apply incl_refl.
    + exists textSelections. auto.
Qed.

(** C1: for a well-formed document under an element root and ranges with
    [start <= end], [applyToRanges] returns, and the concatenation of the
    text payloads in document order is what it was. *)
Theorem apply_preserves_text :
  forall (className : string) (d : document)
         (textSelections : list TextSelection),
    wellFormed d ->
    isText (rootElement d) = false ->
    Forall (fun r => selStart r <= selEnd r) textSelections ->
    exists d' affectedNodeGroups,
      applyToRanges className d textSelections =
      Some (d', affectedNodeGroups) /\
      textContent (rootElement d') = textContent (rootElement d).
Proof.
  intros className d sels Hwf Hroot Hsels. unfold applyToRanges.
  destruct sels as [|r sels]; [eauto |].
  assert (Hp : preserved className d d).
  { split; [exact Hwf |]. split; [exact Hroot |].
    split; [apply incl_refl |]. split; [reflexivity | apply shapeKept_refl]. }
  destruct (preserved_applyToGroups className d _
              (findNodeAndOffsetGroups_ok className d (r :: sels)
                 Hwf Hroot Hsels)
              (List.length (_findNodeAndOffsetGroups d (r :: sels))) d []
              (le_n _) Hp) as (d' & acc & -> & Hp').
  exists d', (rev acc). split; [reflexivity |].
  rewrite !(textContent_leaves className). apply Hp'.
Qed.

Lemma apply_preserves_text_witness :
  wellFormed exampleDocument /\
  isText (rootElement exampleDocument) = false /\
  Forall (fun r => selStart r <= selEnd r)
         [mkTextSelection 0 2; mkTextSelection 7 11; mkTextSelection 14 20] /\
  exists d' affectedNodeGroups,
    applyToRanges "foo" exampleDocument
      [mkTextSelection 0 2; mkTextSelection 7 11; mkTextSelection 14 20] =
    Some (d', affectedNodeGroups) /\
    textContent (rootElement d') = textContent (rootElement exampleDocument).
Proof.
  assert (H : Forall (fun r => selStart r <= selEnd r)
                [mkTextSelection 0 2; mkTextSelection 7 11;
                 mkTextSelection 14 20]).
  { repeat constructor; simpl; lia. }
  split; [exact wellFormed_example |]. split; [reflexivity |].
  split; [exact H |].
  exact (apply_preserves_text "foo" exampleDocument _
           wellFormed_example eq_refl H).
Defined.

(* ================================================================== *)
(** ** The style remover, seen from the parent of the container *)

Lemma document_eta (d : document) : withRoot d (rootElement d) = d.
Proof. destruct d; reflexivity. Qed.

Lemma rev_cons_split {A : Type} (l : list A) (x : A) (r : list A) :
  rev l = x :: r -> l = (rev r ++ [x])%list.
Proof.
  intros H. rewrite <- (rev_involutive l), H. reflexivity.
Qed.

Section Merge.

Variable className : string.
Variables (d : document) (C : list Frame) (p : nat) (tg : string)
          (cl : list string) (pre post : list Node) (t : nat) (v : string).
Hypothesis Hwf : wellFormed d.
Hypothesis Hfocus : focused d C p tg cl (pre ++ Text t v :: post).

(** The merge with the previous sibling in [clearElement]. *)
Lemma step_mergePrevious :
  let d' := withRoot d (plug C (Element p tg cl
              (fst (mergeBefore pre) ++
               Text t (snd (mergeBefore pre) ++ v)%string :: post))) in
  match Dom.previousSibling d t with
  | Some previousSiblingNode =>
      if Dom.isTextNode d previousSiblingNode then
        pv <- Dom.nodeValue d previousSiblingNode ;;
        tv <- Dom.nodeValue d t ;;
        Dom.removeChild (Dom.setNodeValue d t (pv ++ tv)%string)
                        p previousSiblingNode
      else Some d
  | None => Some d
  end = Some d' /\ wellFormed d'.
Proof.
  assert (Hsame : withRoot d (plug C (Element p tg cl (pre ++ Text t v :: post)))
                  = d).
  { unfold focused in Hfocus. rewrite <- Hfocus. apply document_eta. }
  rewrite_id (child_previousSibling _ _ _ _ _ _ _ _ Hwf Hfocus).
  unfold mergeBefore.
  destruct (rev pre) as [|x rpre] eqn:Hrev; simpl.
  - rewrite Hsame. auto.
  - apply rev_cons_split in Hrev. subst pre.
    assert (Hfocus' : focused d C p tg cl (rev rpre ++ x :: Text t v :: post))
      by (unfold focused in *; now rewrite <- app_assoc in Hfocus).
    unfold Dom.isTextNode, Dom.nodeValue.
    rewrite (child_find _ _ _ _ _ _ _ _ Hwf Hfocus').
    destruct x as [i pv | i tgx clx chx].
    + rewrite_id (child_find _ _ _ _ _ _ _ _ Hwf Hfocus).
      destruct (step_setNodeValue d C p tg cl Hwf _ _ t v (pv ++ v)%string
                  Hfocus) as [Hset Hwf1].
      rewrite Hset.
      assert (Hfocus1 :
        focused (withRoot d (plug C (Element p tg cl
                   ((rev rpre ++ [Text i pv]) ++
                    Text t (pv ++ v)%string :: post))))
                C p tg cl
                (rev rpre ++ Text i pv :: Text t (pv ++ v)%string :: post))
        by (unfold focused; simpl; now rewrite <- app_assoc).
      destruct (step_removeChild _ C p tg cl Hwf1 _ _ (Text i pv) Hfocus1)
        as [Hrm Hwf2].
      simpl in Hrm. cbn [nodeId fst snd option_map hd_error]. rewrite Hrm.
      unfold withRoot in *. simpl in *. auto.
    + cbn [fst snd String.append]. rewrite Hsame. auto.
Qed.

(** The merge with the next sibling in [clearElement]. *)
Lemma step_mergeNext :
  let d' := withRoot d (plug C (Element p tg cl
              (pre ++ Text t (v ++ snd (mergeAfter post))%string
                   :: fst (mergeAfter post)))) in
  match Dom.nextSibling d t with
  | Some nextSiblingNode =>
      if Dom.isTextNode d nextSiblingNode then
        tv <- Dom.nodeValue d t ;;
        nv <- Dom.nodeValue d nextSiblingNode ;;
        Dom.removeChild (Dom.setNodeValue d t (tv ++ nv)%string)
                        p nextSiblingNode
      else Some d
  | None => Some d
  end = Some d' /\ wellFormed d'.
Proof.
  assert (Hsame : withRoot d (plug C (Element p tg cl (pre ++ Text t v :: post)))
                  = d).
  { unfold focused in Hfocus. rewrite <- Hfocus. apply document_eta. }
  rewrite_id (child_nextSibling _ _ _ _ _ _ _ _ Hwf Hfocus).
  unfold mergeAfter.
  destruct post as [|x post']; simpl.
  - rewrite append_empty_r, Hsame. auto.
  - assert (Hfocus' : focused d C p tg cl ((pre ++ [Text t v]) ++ x :: post'))
      by (unfold focused in *; now rewrite <- app_assoc).
    unfold Dom.isTextNode, Dom.nodeValue.
    rewrite (child_find _ _ _ _ _ _ _ _ Hwf Hfocus').
    destruct x as [i nv | i tgx clx chx].
    + rewrite_id (child_find _ _ _ _ _ _ _ _ Hwf Hfocus).
      destruct (step_setNodeValue d C p tg cl Hwf _ _ t v (v ++ nv)%string
                  Hfocus) as [Hset Hwf1].
      rewrite Hset.
      assert (Hfocus1 :
        focused (withRoot d (plug C (Element p tg cl
                   (pre ++ Text t (v ++ nv)%string :: Text i nv :: post'))))
                C p tg cl
                ((pre ++ [Text t (v ++ nv)%string]) ++ Text i nv :: post'))
        by (unfold focused; simpl; now rewrite <- app_assoc).
      destruct (step_removeChild _ C p tg cl Hwf1 _ _ (Text i nv) Hfocus1)
        as [Hrm Hwf2].
      simpl in Hrm. cbn [nodeId fst snd option_map hd_error]. rewrite Hrm. unfold withRoot in *. simpl in *.
      rewrite <- app_assoc in *. simpl in *. auto.
    + cbn [fst snd]. rewrite append_empty_r, Hsame. auto.
Qed.

End Merge.

Section Remover.

Variable className : string.
Variables (d : document) (C : list Frame) (p : nat) (tg : string)
          (cl : list string) (pre post : list Node)
          (e : nat) (tge : string) (cle : list string) (che : list Node).
Hypothesis Hwf : wellFormed d.
Hypothesis Hfocus : focused d C p tg cl (pre ++ Element e tge cle che :: post).

Lemma clearElement_untag :
  let d' := withRoot d (plug C (Element p tg cl
              (pre ++ Element e tge (tokenRemove className cle) che :: post))) in
  Dom.classListRemove d e className = d' /\ wellFormed d'.
Proof.
  split.
  - unfold Dom.classListRemove.
    rewrite_id (child_update _ _ _ _ _ _ _ _ Hwf Hfocus
                  (classListRemove className)).
    reflexivity.
  - apply (step_rearrange _ _ _ _ _ Hwf _ _ _ Hfocus).
    + pose proof (focus_distinct _ _ _ _ _ _ Hwf Hfocus) as H.
      ids_atoms. tauto.
    + incl_solve.
Qed.

Lemma clearElement_focus :
  let d' := withRoot d (plug C (Element p tg cl
              (clearedChildren className pre post e tge cle che))) in
  clearElement className d e = Some d' /\ wellFormed d'.
Proof.
  unfold clearElement, clearedChildren, Dom.deref.
  rewrite_id (child_find _ _ _ _ _ _ _ _ Hwf Hfocus).
  destruct clearElement_untag as [Huntag Hwfu].
  destruct che as [|[t v | ? ? ? ?] [|c2 che']];
    try (rewrite Huntag; auto; fail).
  destruct (list_eq_dec string_dec cle [className]) as [-> | Hne];
    [| rewrite Huntag; auto].
  rewrite_id (child_parentNode _ _ _ _ _ _ _ _ Hwf Hfocus).
  destruct (step_move_out d C p tg cl pre post Hwf e tge [className]
              (Text t v) Hfocus) as [Hout Hwf1].
  rewrite Hout.
  assert (Hfocus1 :
    focused (withRoot d (plug C (Element p tg cl
               (pre ++ Text t v :: Element e tge [className] [] :: post))))
            C p tg cl
            ((pre ++ [Text t v]) ++ Element e tge [className] [] :: post))
    by (unfold focused; simpl; now rewrite <- app_assoc).
  destruct (step_removeChild _ C p tg cl Hwf1 _ _ _ Hfocus1) as [Hrm Hwf2].
  simpl in Hrm. rewrite Hrm.
  assert (Hfocus2 :
    focused (withRoot
               (withRoot d (plug C (Element p tg cl
                  (pre ++ Text t v :: Element e tge [className] [] :: post))))
               (plug C (Element p tg cl ((pre ++ [Text t v]) ++ post))))
            C p tg cl (pre ++ Text t v :: post))
    by (unfold focused; simpl; now rewrite <- app_assoc).
  destruct (step_mergePrevious _ C p tg cl pre post t v Hwf2 Hfocus2)
    as [Hprev Hwf3].
  rewrite Hprev.
  destruct (step_mergeNext _ C p tg cl (fst (mergeBefore pre)) post t
              (snd (mergeBefore pre) ++ v)%string Hwf3 eq_refl)
    as [Hnext Hwf4].
  rewrite Hnext. unfold withRoot in *. simpl in *. auto.
Qed.

End Remover.

(* ================================================================== *)
(** ** The style remover on the whole document *)

Lemma append_assoc (a b c : string) :
  ((a ++ b) ++ c)%string = (a ++ (b ++ c))%string.
Proof. induction a as [|x a IH]; simpl; [reflexivity | now rewrite IH]. Qed.

Lemma joined_app (l1 l2 : list string) :
  joined (l1 ++ l2) = (joined l1 ++ joined l2)%string.
Proof.
  unfold joined. induction l1 as [|x l1 IH]; simpl; [reflexivity |].
  now rewrite IH, append_assoc.
Qed.

Lemma textContent_Text (i : nat) (v : string) : textContent (Text i v) = v.
Proof. unfold textContent. simpl. apply append_empty_r. Qed.

Lemma textContent_children (i : nat) (tg : string) (cl : list string)
      (ch : list Node) :
  textContent (Element i tg cl ch) = joined (map textContent ch).
Proof.
  unfold textContent. simpl.
  change (fold_right String.append EmptyString) with joined.
  induction ch as [|c ch IH]; simpl; [reflexivity |].
  rewrite map_app, joined_app, IH. reflexivity.
Qed.

Lemma textContent_plug (C : list Frame) (x x' : Node) :
  textContent x' = textContent x ->
  textContent (plug C x') = textContent (plug C x).
Proof.
  revert x x'. induction C as [|f C IH]; intros x x' H; simpl; [exact H |].
  apply IH. unfold fill. rewrite !textContent_children, !map_app. simpl.
  rewrite !joined_app. simpl. now rewrite H.
Qed.

Lemma mergeBefore_text (pre : list Node) :
  joined (map textContent pre) =
  (joined (map textContent (fst (mergeBefore pre))) ++
   snd (mergeBefore pre))%string.
Proof.
  unfold mergeBefore. destruct (rev pre) as [|x rpre] eqn:Hrev.
  - simpl. now rewrite append_empty_r.
  - apply rev_cons_split in Hrev. subst pre.
    destruct x as [i pv | i tg cl ch]; simpl.
    + rewrite map_app, joined_app. simpl. unfold textContent at 2. simpl.
      now rewrite !append_empty_r.
    + now rewrite append_empty_r.
Qed.

Lemma mergeAfter_text (post : list Node) :
  joined (map textContent post) =
  (snd (mergeAfter post) ++
   joined (map textContent (fst (mergeAfter post))))%string.
Proof.
  unfold mergeAfter. destruct post as [|[i nv | i tg cl ch] post]; simpl;
    try reflexivity.
  unfold textContent at 1. simpl. now rewrite append_empty_r.
Qed.

(* ------------------------------------------------------------------ *)
(** *** The elements the selector finds *)

Lemma querySelectorAll_selected (d : document) (tag cls : string) :
  Dom.querySelectorAll d tag cls = selected tag cls (rootElement d).
Proof.
  unfold Dom.querySelectorAll, selected.
  destruct (rootElement d); reflexivity.
Qed.

Lemma matching_plug (tag cls : string) (C : list Frame) :
  exists L R, forall x,
    matching tag cls (plug C x) = (L ++ matching tag cls x ++ R)%list.
Proof.
  induction C as [|f C IH]; simpl.
  - exists [], []. intros x. now rewrite app_nil_r.
  - destruct IH as (L & R & H).
    exists (L ++ (if String.eqb (frameTag f) tag &&
                     existsb (String.eqb cls) (frameClass f)
                  then [frameId f] else []) ++
            flat_map (matching tag cls) (before f))%list,
           (flat_map (matching tag cls) (after f) ++ R)%list.
    intros x. rewrite H. unfold fill. simpl. rewrite flat_map_app. simpl.
    now rewrite <- !app_assoc.
Qed.

(** Seen from a parent in focus, the selection only depends on its
    children through their own selections. *)
Lemma selected_plug (tag cls : string) (C : list Frame) (p : nat)
      (tg : string) (cl : list string) :
  exists L R, forall ch,
    selected tag cls (plug C (Element p tg cl ch)) =
    (L ++ flat_map (matching tag cls) ch ++ R)%list.
Proof.
  destruct C as [|f C] using rev_ind.
  - exists [], []. intros ch. unfold selected. simpl. now rewrite app_nil_r.
  - destruct (matching_plug tag cls C) as (L & R & H).
    exists (flat_map (matching tag cls) (before f) ++ L ++
            (if String.eqb tg tag && existsb (String.eqb cls) cl
             then [p] else []))%list,
           (R ++ flat_map (matching tag cls) (after f))%list.
    intros ch. rewrite plug_app. simpl. unfold fill, selected. simpl.
    rewrite flat_map_app. simpl. rewrite H. simpl.
    now rewrite <- !app_assoc.
Qed.

Lemma selected_focus (tag cls : string) (e : nat) :
  forall x : Node,
    In e (selected tag cls x) ->
    exists C p tg cl pre post cle che,
      x = plug C (Element p tg cl (pre ++ Element e tag cle che :: post)) /\
      carries cls cle = true.
Proof.
  induction x as [i v | i tg cl ch IH] using Node_induction;
    unfold selected; simpl; intros H; [destruct H |].
  apply in_flat_map in H. destruct H as (c & Hc & He).
  apply in_split in Hc. destruct Hc as (l1 & l2 & ->).
  apply Forall_app in IH. destruct IH as [_ IH].
  inversion IH as [|? ? Hc' _]; subst.
  destruct c as [j w | j tg' cl' ch']; [destruct He |].
  simpl in He. apply in_app_iff in He. destruct He as [He | He].
  - destruct (String.eqb tg' tag && existsb (String.eqb cls) cl') eqn:Hm;
      [| destruct He].
    destruct He as [-> | []].
    apply andb_true_iff in Hm. destruct Hm as [Htag Hcls].
    apply String.eqb_eq in Htag. subst tg'.
    exists [], i, tg, cl, l1, l2, cl', ch'. auto.
  - destruct (Hc' He) as (C & p & tg0 & cl0 & pre & post & cle & che & Hx & Hcar).
    exists (C ++ [mkFrame i tg cl l1 l2])%list, p, tg0, cl0, pre, post, cle, che.
    split; [| exact Hcar].
    rewrite plug_app. simpl. unfold fill. simpl. now rewrite Hx.
Qed.

Lemma matching_ids (tag cls : string) (x : Node) :
  incl (matching tag cls x) (ids x) /\
  (NoDup (ids x) -> NoDup (matching tag cls x)).
Proof.
  induction x as [i v | i tg cl ch IH] using Node_induction; simpl.
  - split; [intros a [] | constructor].
  - assert (H : incl (flat_map (matching tag cls) ch) (flat_map ids ch) /\
                (NoDup (flat_map ids ch) ->
                 NoDup (flat_map (matching tag cls) ch))).
    { induction IH as [|c ch [Hi Hn] _ [IHi IHn]]; simpl.
      - split; [apply incl_refl | auto].
      - split.
        + apply incl_app; [apply incl_appl | apply incl_appr]; assumption.
        + rewrite !NoDup_app_iff. intros (H1 & H2 & H3).
          repeat split; auto.
          intros a Ha Ha'. apply (H3 a); auto. }
    destruct H as [Hi Hn]. split.
    + destruct (String.eqb tg tag && existsb (String.eqb cls) cl); simpl.
      * intros a [<- | Ha]; [left; reflexivity | right; now apply Hi].
      * now apply incl_tl.
    + intros Hd. inversion Hd as [|? ? Hnot Hd']; subst.
      destruct (String.eqb tg tag && existsb (String.eqb cls) cl); simpl;
        [| auto].
      constructor; [| auto]. intros Hin. apply Hnot. now apply Hi.
Qed.

Lemma selected_NoDup (tag cls : string) (d : document) :
  wellFormed d -> NoDup (selected tag cls (rootElement d)).
Proof.
  intros [Hd _]. unfold selected.
  destruct (rootElement d) as [i v | i tg cl ch]; simpl; [constructor |].
  pose proof (matching_ids tag cls (Element i tg cl ch)) as [_ H].
  specialize (H Hd). simpl in H.
  apply NoDup_app_iff in H. tauto.
Qed.

Lemma carries_tokenRemove (cls : string) (cl : list string) :
  carries cls (tokenRemove cls cl) = false.
Proof.
  unfold carries, tokenRemove. induction cl as [|c cl IH]; simpl;
    [reflexivity |].
  destruct (String.eqb cls c) eqn:H; simpl; [exact IH |].
  now rewrite H, IH.
Qed.

Lemma mergeBefore_cases (pre : list Node) :
  (fst (mergeBefore pre) = pre /\ snd (mergeBefore pre) = EmptyString /\
   lastIsText pre = false) \/
  (exists i pv, pre = (fst (mergeBefore pre) ++ [Text i pv])%list /\
                snd (mergeBefore pre) = pv).
Proof.
  unfold mergeBefore, lastIsText. destruct (rev pre) as [|x rpre] eqn:Hrev.
  - left. auto.
  - apply rev_cons_split in Hrev.
    destruct x as [i pv | i tg cl ch]; simpl.
    + right. exists i, pv. auto.
    + left. auto.
Qed.

Lemma mergeAfter_cases (post : list Node) :
  (fst (mergeAfter post) = post /\ snd (mergeAfter post) = EmptyString /\
   firstIsText post = false) \/
  (exists i nv, post = Text i nv :: fst (mergeAfter post) /\
                snd (mergeAfter post) = nv).
Proof.
  unfold mergeAfter. destruct post as [|[i nv | i tg cl ch] post]; simpl.
  - left. auto.
  - right. exists i, nv. auto.
  - left. auto.
Qed.

Lemma adjacentText_text_cons (x : Node) (l : list Node) :
  adjacentText (x :: l) = (isText x && firstIsText l) || adjacentText l.
Proof.
  destruct l as [|y l]; simpl; [now rewrite andb_false_r | reflexivity].
Qed.

Section ClearedChildren.

Variable className : string.
Variables (pre post : list Node) (e : nat) (cle : list string)
          (che : list Node).
Hypothesis Hcarries : carries className cle = true.

Lemma cleared_untag_selected :
  flat_map (matching "span" className)
           (pre ++ Element e "span" (tokenRemove className cle) che :: post) =
  (flat_map (matching "span" className) pre ++
   flat_map (matching "span" className) che ++
   flat_map (matching "span" className) post)%list.
Proof.
  rewrite flat_map_app. simpl.
  fold (carries className (tokenRemove className cle)).
  rewrite carries_tokenRemove. simpl. now rewrite <- ?app_assoc.
Qed.

Lemma cleared_selected :
  flat_map (matching "span" className)
           (clearedChildren className pre post e "span" cle che) =
  (flat_map (matching "span" className) pre ++
   flat_map (matching "span" className) che ++
   flat_map (matching "span" className) post)%list.
Proof.
  unfold clearedChildren.
  pose proof cleared_untag_selected as Hu.
  destruct che as [|[t v | ? ? ? ?] [|c2 che']]; try exact Hu.
  destruct (list_eq_dec string_dec cle [className]); [| exact Hu].
  rewrite flat_map_app. simpl.
  destruct (mergeBefore_cases pre) as [(-> & _) | (i & pv & Hpre & _)];
    destruct (mergeAfter_cases post) as [(-> & _) | (j & nv & Hpost & _)];
    try reflexivity.
  - rewrite Hpost at 2. reflexivity.
  - rewrite Hpre at 2. rewrite flat_map_app. simpl.
    now rewrite app_nil_r.
  - rewrite Hpre at 2. rewrite Hpost at 2. rewrite flat_map_app. simpl.
    now rewrite app_nil_r.
Qed.

Lemma cleared_text :
  joined (map textContent
            (clearedChildren className pre post e "span" cle che)) =
  joined (map textContent (pre ++ Element e "span" cle che :: post)).
Proof.
  unfold clearedChildren.
  assert (Huntag :
    joined (map textContent
              (pre ++ Element e "span" (tokenRemove className cle) che
                   :: post)) =
    joined (map textContent (pre ++ Element e "span" cle che :: post))).
  { rewrite !map_app. simpl. now rewrite !textContent_children. }
  destruct che as [|[t v | ? ? ? ?] [|c2 che']]; try exact Huntag.
  destruct (list_eq_dec string_dec cle [className]); [| exact Huntag].
  rewrite !map_app, !joined_app. simpl.
  rewrite (mergeBefore_text pre), (mergeAfter_text post).
  rewrite textContent_children. simpl. rewrite !textContent_Text.
  now rewrite !append_empty_r, !append_assoc.
Qed.

Lemma cleared_shape :
  (negb (adjacentText (pre ++ Element e "span" cle che :: post)) &&
   forallb normalized (pre ++ Element e "span" cle che :: post) = true ->
   negb (adjacentText
           (clearedChildren className pre post e "span" cle che)) &&
   forallb normalized
     (clearedChildren className pre post e "span" cle che) = true) /\
  (forallb allSpans (pre ++ Element e "span" cle che :: post) = true ->
   forallb allSpans
     (clearedChildren className pre post e "span" cle che) = true).
Proof.
  unfold clearedChildren.
  assert (Huntag :
    (negb (adjacentText (pre ++ Element e "span" cle che :: post)) &&
     forallb normalized (pre ++ Element e "span" cle che :: post) = true ->
     negb (adjacentText
             (pre ++ Element e "span" (tokenRemove className cle) che
                  :: post)) &&
     forallb normalized
       (pre ++ Element e "span" (tokenRemove className cle) che :: post)
     = true) /\
    (forallb allSpans (pre ++ Element e "span" cle che :: post) = true ->
     forallb allSpans
       (pre ++ Element e "span" (tokenRemove className cle) che :: post)
     = true)).
  { split.
    - rewrite (adjacentText_replace pre post
                 (Element e "span" (tokenRemove className cle) che)
                 (Element e "span" cle che) eq_refl).
      rewrite !forallb_app. simpl. auto.
    - rewrite !forallb_app. simpl. auto. }
  destruct che as [|[t v | ? ? ? ?] [|c2 che']]; try exact Huntag.
  destruct (list_eq_dec string_dec cle [className]); [| exact Huntag].
  clear Huntag. split.
  - rewrite !forallb_app, !adjacentText_app, !adjacentText_text_cons. simpl.
    intros H. apply andb_true_iff in H. destruct H as [H1 H2].
    apply andb_true_iff in H2. destruct H2 as [H2 H3].
    apply negb_true_iff in H1. rewrite andb_false_r, orb_false_r in H1.
    apply orb_false_iff in H1. destruct H1 as [Hpre Hpost].
    assert (Hb : adjacentText (fst (mergeBefore pre)) = false /\
                 lastIsText (fst (mergeBefore pre)) = false /\
                 forallb normalized (fst (mergeBefore pre)) = true).
    { destruct (mergeBefore_cases pre) as [(-> & _ & Hl) | (i & pv & Hp & _)];
        [auto |].
      rewrite Hp in Hpre, H2. rewrite adjacentText_app in Hpre.
      rewrite forallb_app in H2. simpl in *.
      rewrite andb_true_r, orb_false_r in Hpre.
      apply orb_false_iff in Hpre. apply andb_true_iff in H2. tauto. }
    assert (Ha : adjacentText (fst (mergeAfter post)) = false /\
                 firstIsText (fst (mergeAfter post)) = false /\
                 forallb normalized (fst (mergeAfter post)) = true).
    { destruct (mergeAfter_cases post) as [(-> & _ & Hl) | (i & nv & Hp & _)];
        [auto |].
      rewrite Hp in Hpost, H3. rewrite adjacentText_text_cons in Hpost.
      simpl in *. apply orb_false_iff in Hpost. tauto. }
    destruct Hb as (Hb1 & Hb2 & Hb3). destruct Ha as (Ha1 & Ha2 & Ha3).
    now rewrite Hb1, Hb2, Hb3, Ha1, Ha2, Ha3.
  - rewrite !forallb_app. simpl.
    intros H. apply andb_true_iff in H. destruct H as [H1 H3].
    assert (Hb : forallb allSpans (fst (mergeBefore pre)) = true).
    { destruct (mergeBefore_cases pre) as [(-> & _) | (i & pv & Hp & _)];
        [auto |].
      rewrite Hp, forallb_app in H1. apply andb_true_iff in H1. tauto. }
    assert (Ha : forallb allSpans (fst (mergeAfter post)) = true).
    { destruct (mergeAfter_cases post) as [(-> & _) | (i & nv & Hp & _)];
        [auto |].
      rewrite Hp in H3. simpl in H3. exact H3. }
    now rewrite Hb, Ha.
Qed.

End ClearedChildren.

Lemma NoDup_last_unique {A : Type} (l l' r : list A) (e : A) :
  NoDup (l ++ e :: r) -> (l ++ e :: r = l' ++ [e])%list -> l = l' /\ r = [].
Proof.
  intros Hnd Heq. destruct r as [|x r] using rev_ind.
  - apply app_inj_tail in Heq. tauto.
  - exfalso. clear IHr.
    change (l ++ e :: r ++ [x])%list with (l ++ (e :: r) ++ [x])%list in Heq.
    rewrite app_assoc in Heq. apply app_inj_tail in Heq.
    destruct Heq as [_ ->].
    apply NoDup_remove_2 in Hnd. apply Hnd.
    rewrite !in_app_iff. simpl. auto.
Qed.

Lemma firstn_snoc {A : Type} (l : list A) (k : nat) (x : A) :
  nth_error l k = Some x -> firstn (S k) l = (firstn k l ++ [x])%list.
Proof.
  revert k. induction l as [|y l IH]; intros [|k] H; simpl in *;
    try discriminate.
  - now injection H as ->.
  - now rewrite (IH k H).
Qed.

Lemma carriers_matching (cls : string) (x : Node) :
  allSpans x = true -> carriersOf cls x = matching "span" cls x.
Proof.
  induction x as [i v | i tg cl ch IH] using Node_induction; simpl;
    intros H; [reflexivity |].
  apply andb_true_iff in H. destruct H as [Htag Hch].
  rewrite Htag. simpl. unfold carries. f_equal.
  induction IH as [|c ch Hc _ IHch]; simpl in *; [reflexivity |].
  apply andb_true_iff in Hch. destruct Hch as [H1 H2].
  now rewrite Hc, IHch.
Qed.

Lemma carriersUnder_selected (cls : string) (root : Node) :
  spansUnder root = true ->
  carriersUnder cls root = selected "span" cls root.
Proof.
  unfold spansUnder, carriersUnder, selected.
  induction (childNodesOf root) as [|c ch IH]; simpl; intros H;
    [reflexivity |].
  apply andb_true_iff in H. destruct H as [H1 H2].
  now rewrite carriers_matching, IH.
Qed.

Section ClearAll.

Variable className : string.

Lemma clearElement_step (d : document) (e : nat) :
  wellFormed d -> isText (rootElement d) = false ->
  In e (selected "span" className (rootElement d)) ->
  exists d',
    clearElement className d e = Some d' /\
    wellFormed d' /\ isText (rootElement d') = false /\
    (exists QA QB,
        selected "span" className (rootElement d) = (QA ++ e :: QB)%list /\
        selected "span" className (rootElement d') = (QA ++ QB)%list) /\
    textContent (rootElement d') = textContent (rootElement d) /\
    shapeKept (rootElement d) (rootElement d').
Proof.
  intros Hwf Hroot He.
  destruct (selected_focus "span" className e _ He)
    as (C & p & tg & cl & pre & post & cle & che & Hx & Hcar).
  destruct (clearElement_focus className d C p tg cl pre post e "span" cle che
              Hwf Hx) as [Heq Hwf'].
  eexists. split; [exact Heq |]. split; [exact Hwf' |].
  simpl. split; [now apply isText_plug |].
  destruct (selected_plug "span" className C p tg cl) as (L & R & Hsel).
  split; [| split].
  - exists (L ++ flat_map (matching "span" className) pre)%list,
           (flat_map (matching "span" className) che ++
            flat_map (matching "span" className) post ++ R)%list.
    rewrite Hx, !Hsel, cleared_selected, flat_map_app. simpl.
    fold (carries className cle). rewrite Hcar. simpl.
    rewrite <- !app_assoc. simpl. now rewrite <- !app_assoc.
  - rewrite Hx. apply textContent_plug.
    rewrite !textContent_children. now apply cleared_text.
  - rewrite Hx.
    destruct (cleared_shape className pre post e cle che) as [Hn Hs].
    apply shapeKept_focus; assumption.
Qed.

Lemma clearElements_ok (spanElementList : list nat) :
  forall (k : nat) (d : document),
    wellFormed d -> isText (rootElement d) = false ->
    (k <= List.length spanElementList)%nat ->
    selected "span" className (rootElement d) = firstn k spanElementList ->
    exists d',
      clearElements className d spanElementList k = Some d' /\
      wellFormed d' /\ isText (rootElement d') = false /\
      selected "span" className (rootElement d') = [] /\
      textContent (rootElement d') = textContent (rootElement d) /\
      shapeKept (rootElement d) (rootElement d').
Proof.
  induction k as [|k IH]; intros d Hwf Hroot Hk Hsel.
  - exists d. simpl. split; [reflexivity |]. split; [exact Hwf |].
    split; [exact Hroot |]. split; [exact Hsel |].
    split; [reflexivity | apply shapeKept_refl].
  - cbn [clearElements].
    destruct (nth_error spanElementList k) as [e |] eqn:He.
    2:{ apply nth_error_None in He. lia. }
    rewrite (firstn_snoc _ _ _ He) in Hsel.
    assert (Hin : In e (selected "span" className (rootElement d)))
      by (rewrite Hsel, in_app_iff; simpl; auto).
    destruct (clearElement_step d e Hwf Hroot Hin)
      as (d1 & -> & Hwf1 & Hroot1 & (QA & QB & HQ & HQ1) & Htext1 & Hshape1).
    pose proof (selected_NoDup "span" className d Hwf) as Hnd.
    rewrite HQ in Hnd, Hsel.
    destruct (NoDup_last_unique _ _ _ _ Hnd Hsel) as [-> ->].
    rewrite app_nil_r in HQ1.
    destruct (IH d1 Hwf1 Hroot1 ltac:(lia) HQ1)
      as (d' & Heq & Hwf' & Hroot' & Hsel' & Htext' & Hshape').
    exists d'. split; [exact Heq |]. split; [exact Hwf' |].
    split; [exact Hroot' |]. split; [exact Hsel' |].
    split; [congruence | eapply shapeKept_trans; eauto].
Qed.

Lemma clear_ok (d : document) :
  wellFormed d -> isText (rootElement d) = false ->
  exists d',
    clear className d =
    Some (d', List.length (Dom.querySelectorAll d "span" className)) /\
    wellFormed d' /\ isText (rootElement d') = false /\
    Dom.querySelectorAll d' "span" className = [] /\
    textContent (rootElement d') = textContent (rootElement d) /\
    shapeKept (rootElement d) (rootElement d').
Proof.
  intros Hwf Hroot. unfold clear.
  destruct (clearElements_ok (Dom.querySelectorAll d "span" className)
              (List.length (Dom.querySelectorAll d "span" className)) d
              Hwf Hroot (le_n _))
    as (d' & -> & Hwf' & Hroot' & Hsel & Htext & Hshape).
  { rewrite firstn_all. symmetry. apply querySelectorAll_selected. }
  exists d'. split; [reflexivity |]. split; [exact Hwf' |].
  split; [exact Hroot' |]. split; [| split; assumption].
  now rewrite querySelectorAll_selected.
Qed.

End ClearAll.

Lemma applyToRanges_preserved (className : string) (d : document)
      (textSelections : list TextSelection) :
  wellFormed d -> isText (rootElement d) = false ->
  Forall (fun r => selStart r <= selEnd r) textSelections ->
  exists d' affectedNodeGroups,
    applyToRanges className d textSelections = Some (d', affectedNodeGroups) /\
    preserved className d d'.
Proof.
  intros Hwf Hroot Hsels. unfold applyToRanges.
  assert (Hp : preserved className d d).
  { split; [exact Hwf |]. split; [exact Hroot |].
    split; [apply incl_refl |]. split; [reflexivity | apply shapeKept_refl]. }
  destruct textSelections as [|r sels]; [eauto |].
  destruct (preserved_applyToGroups className d _
              (findNodeAndOffsetGroups_ok className d (r :: sels)
                 Hwf Hroot Hsels)
              (List.length (_findNodeAndOffsetGroups d (r :: sels))) d []
              (le_n _) Hp) as (d' & acc & -> & Hp').
  eauto.
Qed.





(* ================================================================== *)
(** ** What the offset resolver computes, range by range *)

Lemma totalLength_app (a b : list (nat * string)) :
  totalLength (a ++ b) = totalLength a + totalLength b.
Proof. induction a as [|x a IH]; simpl; [reflexivity | lia]. Qed.

Lemma ascending_weaken (lo lo' : Z) (ps : list Z) :
  lo' <= lo -> ascending lo ps -> ascending lo' ps.
Proof. destruct ps; simpl; [auto | intuition lia]. Qed.

Lemma ascending_starts (lo : Z) (sels : list TextSelection) :
  ascending lo (positionsOf sels) -> Forall (fun r => lo <= selStart r) sels.
Proof.
  revert lo. induction sels as [|r sels IH]; intros lo H; [constructor |].
  simpl in H. destruct H as (H1 & H2 & H3). constructor; [exact H1 |].
  eapply Forall_impl; [| apply (IH _ H3)]. simpl. intros. lia.
Qed.

Section ResolverSpec.

Variable W : list (nat * string).
Variable sels : list TextSelection.

Lemma Forall2_snoc {A B : Type} (R : A -> B -> Prop) (l : list A)
      (l' : list B) (x : A) (y : B) :
  Forall2 R l l' -> R x y -> Forall2 R (l ++ [x]) (l' ++ [y]).
Proof. intros H Hxy. apply Forall2_app; auto. Qed.

Lemma positionsOf_cons (p : Z) (ps : list Z) (pending : list TextSelection) :
  p :: ps = positionsOf pending ->
  exists e rest, pending = mkTextSelection p e :: rest /\
                 ps = e :: positionsOf rest.
Proof.
  destruct pending as [|[s e] rest]; simpl; [discriminate |].
  intros H. injection H as -> ->. eauto.
Qed.

Lemma searchInNode_spec (V R : list (nat * string)) (n : nat) (v : string) :
  W = (V ++ (n, v) :: R)%list ->
  forall (poss : list Z) (pos : Z) (isEnd : bool) (gs : list NodeGroup)
         (cur : NodeGroup),
    searching W sels V n v pos poss isEnd gs cur ->
    match searchInNode n (totalLength V)
            (totalLength V + JsString.length v - 1) pos poss isEnd gs cur with
    | inl result => Resolved W sels result
    | inr s => walking W sels (V ++ [(n, v)]) s
    end.
Proof.
  intros HW.
  induction poss as [|p ps IH]; intros pos isEnd gs cur Hst;
    rewrite searchInNode_unfold;
    destruct ((totalLength V <=? pos) &&
              (pos <=? totalLength V + JsString.length v - 1)) eqn:Hfound.
  - (* found, and it is the last position *)
    apply andb_true_iff in Hfound. destruct Hfound as [Hlo Hhi].
    apply Z.leb_le in Hlo, Hhi.
    destruct Hst as (done & pending & Hdone & Hws & Hasc & Hshape).
    destruct isEnd; cbv zeta iota beta.
    + destruct Hshape as (sCur & Hsels & Hposs & Hcur).
      destruct pending; [| discriminate].
      exists (done ++ [mkTextSelection sCur pos])%list, [],
             (gs ++ [cur ++ [mkNodeAndOffset n (pos - totalLength V)]])%list,
             [[]].
      rewrite app_nil_r. split; [exact Hsels |]. split; [reflexivity |].
      split; [| split; [repeat constructor | constructor]].
      apply Forall2_snoc; [exact Hdone |]. simpl.
      destruct Hcur as [(P & h & w & M & HV & Hs1 & Hs2 & Hc)
                       | (Hs1 & Hs2 & Hs3 & ->)].
      * destruct Hc as [[Hgt _] | [_ ->]]; [lia |].
        assert (Ht : totalLength V = totalLength (P ++ (h, w) :: M))
          by now rewrite HV.
        rewrite Ht. simpl.
        apply (GroupMulti W sCur pos P M R h n w v); try lia.
        rewrite HW, HV, <- app_assoc. reflexivity.
      * simpl. apply (GroupSame W sCur pos V R n v); auto; lia.
    + destruct Hshape as (_ & Hpos & _).
      apply positionsOf_cons in Hpos. destruct Hpos as (e & rest & _ & H).
      discriminate.
  - (* not found *)
    destruct Hst as (done & pending & Hdone & Hws & Hasc & Hshape).
    assert (Hmiss : totalLength V + JsString.length v - 1 < pos).
    { apply andb_false_iff in Hfound.
      destruct Hfound as [H | H]; apply Z.leb_gt in H; lia. }
    exists done, pending. cbn [groups position positions nodeAndOffsets
                               isFindingTextSelectionEndPos].
    rewrite totalLength_app. simpl.
    split; [exact Hdone |]. split; [lia |]. split; [exact Hasc |].
    destruct isEnd.
    + destruct Hshape as (sCur & Hsels & Hposs & Hcur).
      destruct Hcur as [(P & h & w & M & HV & Hs1 & Hs2 & Hc)
                       | (Hs1 & Hs2 & Hs3 & ->)].
      * destruct Hc as [[_ ->] | [Hle _]]; [| lia].
        exists sCur, P, h, w, (M ++ [(n, v)])%list.
        repeat split; auto. rewrite HV, <- app_assoc. reflexivity.
      * exists sCur, V, n, v, []. repeat split; auto.
    + exact Hshape.
  - (* found, and other positions are left *)
    apply andb_true_iff in Hfound. destruct Hfound as [Hlo Hhi].
    apply Z.leb_le in Hlo, Hhi.
    destruct Hst as (done & pending & Hdone & Hws & Hasc & Hshape).
    simpl in Hasc. destruct Hasc as [Hp Hasc].
    destruct isEnd; cbv zeta iota beta.
    + destruct Hshape as (sCur & Hsels & Hposs & Hcur).
      apply IH.
      exists (done ++ [mkTextSelection sCur pos])%list, pending.
      split.
      { apply Forall2_snoc; [exact Hdone |]. simpl.
        destruct Hcur as [(P & h & w & M & HV & Hs1 & Hs2 & Hc)
                         | (Hs1 & Hs2 & Hs3 & ->)].
        * destruct Hc as [[Hgt _] | [_ ->]]; [lia |].
          assert (Ht : totalLength V = totalLength (P ++ (h, w) :: M))
            by now rewrite HV.
          rewrite Ht. simpl.
          apply (GroupMulti W sCur pos P M R h n w v); try lia.
          rewrite HW, HV, <- app_assoc. reflexivity.
        * simpl. apply (GroupSame W sCur pos V R n v); auto; lia. }
      split; [lia |]. split; [exact Hasc |].
      split; [reflexivity |]. split; [exact Hposs |].
      rewrite <- app_assoc. exact Hsels.
    + destruct Hshape as (-> & Hpos & Hsels).
      apply positionsOf_cons in Hpos.
      destruct Hpos as (e & rest & -> & Hps). injection Hps as -> ->.
      apply IH. exists done, rest.
      split; [exact Hdone |]. split; [lia |]. split; [exact Hasc |].
      exists pos. split; [exact Hsels |]. split; [reflexivity |].
      right. repeat split; auto; lia.
  - (* not found *)
    destruct Hst as (done & pending & Hdone & Hws & Hasc & Hshape).
    assert (Hmiss : totalLength V + JsString.length v - 1 < pos).
    { apply andb_false_iff in Hfound.
      destruct Hfound as [H | H]; apply Z.leb_gt in H; lia. }
    exists done, pending. cbn [groups position positions nodeAndOffsets
                               isFindingTextSelectionEndPos].
    rewrite totalLength_app. simpl.
    split; [exact Hdone |]. split; [lia |]. split; [exact Hasc |].
    destruct isEnd.
    + destruct Hshape as (sCur & Hsels & Hposs & Hcur).
      destruct Hcur as [(P & h & w & M & HV & Hs1 & Hs2 & Hc)
                       | (Hs1 & Hs2 & Hs3 & ->)].
      * destruct Hc as [[_ ->] | [Hle _]]; [| lia].
        exists sCur, P, h, w, (M ++ [(n, v)])%list.
        repeat split; auto. rewrite HV, <- app_assoc. reflexivity.
      * exists sCur, V, n, v, []. repeat split; auto.
    + exact Hshape.
Qed.

End ResolverSpec.

Lemma pairs0_app (a b : list (nat * string)) :
  pairs0 (a ++ b) = (pairs0 a ++ pairs0 b)%list.
Proof. unfold pairs0. apply map_app. Qed.

Section ResolverWalk.

Variable W : list (nat * string).
Variable sels : list TextSelection.

Lemma searchNodes_spec :
  forall (rest V : list (nat * string)) (lastNode : nat) (lastLength : Z)
         (s : Search),
    W = (V ++ rest)%list ->
    lastVisited V lastNode lastLength ->
    walking W sels V s ->
    Resolved W sels (searchNodes rest lastNode lastLength (totalLength V) s).
Proof.
  induction rest as [|[n v] rest IH]; intros V lastNode lastLength s HW Hlast Hst.
  - (* after the last leaf *)
    rewrite app_nil_r in HW. subst V. cbn [searchNodes].
    destruct Hst as (done & pending & Hdone & Hws & Hasc & Hshape).
    destruct (isFindingTextSelectionEndPos s).
    + destruct Hshape as (sCur & P & h & w & M & Hsels & Hposs & HV & Hs1
                          & Hs2 & Hcur).
      exists (done ++ [mkTextSelection sCur (position s)])%list, pending,
             (groups s ++
              [nodeAndOffsets s ++ [mkNodeAndOffset lastNode lastLength]])%list,
             [].
      rewrite app_nil_r, <- app_assoc. split; [exact Hsels |].
      split; [reflexivity |]. split; [| split; [constructor |]].
      * apply Forall2_snoc; [exact Hdone |]. simpl. rewrite Hcur.
        destruct Hlast as [-> | (V0 & lv & HV0 & ->)];
          [destruct P; discriminate |].
        destruct M as [|x M] using rev_ind.
        { rewrite HV in HV0. apply app_inj_tail in HV0.
          destruct HV0 as [_ HV0]. injection HV0 as <- <-.
          simpl. apply (GroupEndSame W sCur (position s) P h w); auto. }
        { clear IHM. destruct x as [m w'].
          rewrite HV in HV0.
          change (P ++ (h, w) :: M ++ [(m, w')])%list
            with (P ++ ((h, w) :: M) ++ [(m, w')])%list in HV0.
          rewrite app_assoc in HV0. apply app_inj_tail in HV0.
          destruct HV0 as [_ HV0]. injection HV0 as <- <-.
          apply (GroupEndMulti W sCur (position s) P M h m w w'); auto. }
      * rewrite Hposs in Hasc. apply ascending_starts in Hasc.
        eapply Forall_impl; [| exact Hasc]. simpl. intros. lia.
    + destruct Hshape as (Hcur & Hpos & Hsels).
      exists done, pending, (groups s),
             [nodeAndOffsets s ++ [mkNodeAndOffset lastNode lastLength]].
      split; [exact Hsels |]. split; [reflexivity |].
      split; [exact Hdone |]. split.
      * rewrite Hcur. repeat constructor.
      * apply ascending_starts. rewrite <- Hpos. simpl. auto.
  - (* one more leaf *)
    cbn [searchNodes].
    assert (Hsearching :
      searching W sels V n v (position s) (positions s)
        (isFindingTextSelectionEndPos s) (groups s)
        (if isFindingTextSelectionEndPos s &&
            (totalLength V + JsString.length v - 1 <? position s)
         then (nodeAndOffsets s ++ [mkNodeAndOffset n 0])%list
         else nodeAndOffsets s)).
    { destruct Hst as (done & pending & Hdone & Hws & Hasc & Hshape).
      exists done, pending. split; [exact Hdone |]. split; [exact Hws |].
      split; [exact Hasc |].
      destruct (isFindingTextSelectionEndPos s); [| exact Hshape].
      destruct Hshape as (sCur & P & h & w & M & Hsels & Hposs & HV & Hs1
                          & Hs2 & Hcur).
      exists sCur. split; [exact Hsels |]. split; [exact Hposs |].
      left. exists P, h, w, M. split; [exact HV |]. split; [exact Hs1 |].
      split; [exact Hs2 |]. simpl.
      destruct (Z.ltb_spec (totalLength V + JsString.length v - 1)
                           (position s)).
      - left. split; [assumption |]. rewrite Hcur, pairs0_app. reflexivity.
      - right. split; [assumption | exact Hcur]. }
    pose proof (searchInNode_spec W sels V rest n v HW _ _ _ _ _ Hsearching)
      as Hin.
    destruct (searchInNode n (totalLength V)
                (totalLength V + JsString.length v - 1) (position s)
                (positions s) (isFindingTextSelectionEndPos s) (groups s) _)
      as [result | s']; [exact Hin |].
    replace (totalLength V + JsString.length v)
      with (totalLength (V ++ [(n, v)]))
      by (rewrite totalLength_app; simpl; lia).
    apply IH; auto.
    + now rewrite <- app_assoc.
    + right. exists V, v. auto.
Qed.

End ResolverWalk.

Lemma findNodeAndOffsetGroups_resolved (d : document)
      (textSelections : list TextSelection) :
  textSelections <> [] ->
  ascending 0 (positionsOf textSelections) ->
  Resolved (treeWalker (rootElement d)) textSelections
           (_findNodeAndOffsetGroups d textSelections).
Proof.
  intros Hne Hasc. unfold _findNodeAndOffsetGroups.
  destruct (positionsOf textSelections) as [|p ps] eqn:Hps.
  - destruct textSelections; [contradiction | discriminate].
  - simpl in Hasc. destruct Hasc as [Hp Hasc].
    apply (searchNodes_spec _ textSelections _ []); simpl; auto.
    + left. reflexivity.
    + exists [], textSelections. simpl.
      repeat split; auto.
Qed.

(* ================================================================== *)
(** ** Characters and their styling *)

Lemma textLen_app (a b : list (nat * string * bool)) :
  textLen (a ++ b) = textLen a + textLen b.
Proof. unfold textLen. now rewrite map_app, totalLength_app. Qed.

Lemma textLen_nonneg (a : list (nat * string * bool)) : 0 <= textLen a.
Proof. apply totalLength_nonneg. Qed.

Lemma textLen_cons (n : nat) (v : string) (b : bool)
      (a : list (nat * string * bool)) :
  textLen ((n, v, b) :: a) = JsString.length v + textLen a.
Proof. reflexivity. Qed.

Lemma styledAt_app_l (A B : list (nat * string * bool)) :
  forall i, 0 <= i < textLen A -> styledAt (A ++ B) i = styledAt A i.
Proof.
  induction A as [|[[n v] b] A IH]; intros i Hi.
  - unfold textLen in Hi. simpl in Hi. lia.
  - rewrite textLen_cons in Hi. simpl.
    destruct (Z.ltb_spec i (JsString.length v)); [reflexivity |].
    apply IH. lia.
Qed.

Lemma styledAt_app_r (A B : list (nat * string * bool)) :
  forall i, textLen A <= i ->
            styledAt (A ++ B) i = styledAt B (i - textLen A).
Proof.
  induction A as [|[[n v] b] A IH]; intros i Hi.
  - simpl. f_equal. unfold textLen. simpl. lia.
  - rewrite textLen_cons in *. pose proof (textLen_nonneg A). simpl.
    destruct (Z.ltb_spec i (JsString.length v)); [lia |].
    rewrite IH by lia. f_equal. lia.
Qed.

Lemma valueAt_app_l (A B : list (nat * string)) :
  forall i, 0 <= i < totalLength A -> valueAt (A ++ B) i = valueAt A i.
Proof.
  induction A as [|[n v] A IH]; intros i Hi; simpl in *; [lia |].
  destruct (Z.ltb_spec i (JsString.length v)); [reflexivity |].
  apply IH. lia.
Qed.

Lemma valueAt_app_r (A B : list (nat * string)) :
  forall i, totalLength A <= i ->
            valueAt (A ++ B) i = valueAt B (i - totalLength A).
Proof.
  induction A as [|[n v] A IH]; intros i Hi; simpl in *.
  - f_equal. lia.
  - pose proof (totalLength_nonneg A).
    destruct (Z.ltb_spec i (JsString.length v)); [lia |].
    rewrite IH by lia. f_equal. lia.
Qed.

Lemma monotone_refl (F : list (nat * string * bool)) : monotone F F.
Proof. split; auto. Qed.

Lemma monotone_trans (F1 F2 F3 : list (nat * string * bool)) :
  monotone F1 F2 -> monotone F2 F3 -> monotone F1 F3.
Proof. intros [H1 H2] [H3 H4]. split; [congruence | auto]. Qed.

Lemma monotone_app (A A' B B' : list (nat * string * bool)) :
  monotone A A' -> monotone B B' -> monotone (A ++ B) (A' ++ B').
Proof.
  intros [HA1 HA2] [HB1 HB2]. split.
  - rewrite !textLen_app. lia.
  - intros i Hi. destruct (Z.lt_ge_cases i (textLen A)) as [Hlt | Hge].
    + rewrite !styledAt_app_l by lia. auto.
    + rewrite !styledAt_app_r by lia. rewrite <- HA1. apply HB2. lia.
Qed.

Lemma styledAt_all (ls : list (nat * string * bool)) :
  Forall (fun l => snd l = true) ls ->
  forall i, 0 <= i < textLen ls -> styledAt ls i = true.
Proof.
  induction 1 as [|[[n v] b] ls Hb _ IH]; intros i Hi.
  - unfold textLen in Hi. simpl in Hi. lia.
  - rewrite textLen_cons in Hi. simpl in *.
    destruct (Z.ltb_spec i (JsString.length v)); [exact Hb |].
    apply IH. lia.
Qed.

Lemma styledAt_bound (ls : list (nat * string * bool)) :
  forall i, styledAt ls i = true -> i < textLen ls.
Proof.
  induction ls as [|[[n v] b] ls IH]; intros i Hi; [discriminate |].
  rewrite textLen_cons. simpl in Hi. pose proof (textLen_nonneg ls).
  destruct (Z.ltb_spec i (JsString.length v)); [lia |].
  apply IH in Hi. lia.
Qed.

Lemma substring_length (v : string) (a b : Z) :
  0 <= a <= b -> b <= JsString.length v ->
  JsString.length (JsString.substring v a b) = b - a.
Proof.
  intros Hab Hb. unfold JsString.length at 1.
  rewrite <- chars_length, chars_jsSubstring. unfold seg.
  rewrite length_firstn, length_skipn, chars_length.
  unfold JsString.clamp, JsString.length in *. lia.
Qed.

(** *** The pieces of one leaf *)

Section Pieces.

Variables (k n : nat) (v : string) (b : bool) (s e : Z).
Hypothesis Hs : 0 <= s <= e.
Hypothesis He : e <= JsString.length v.

Ltac pieces_cases :=
  unfold leafPieces;
  destruct (Z.eqb_spec s e);
  [| destruct (Z.eqb_spec s 0); destruct (Z.eqb_spec e (JsString.length v));
     cbn [andb]; try destruct (Z.ltb_spec e (JsString.length v)); try lia].

Lemma leafPieces_textLen :
  textLen (leafPieces k n v b s e) = JsString.length v.
Proof.
  pieces_cases; rewrite ?textLen_cons; unfold textLen; simpl;
    rewrite ?substring_length by lia; lia.
Qed.

Lemma leafPieces_flags :
  b = true -> Forall (fun l => snd l = true) (leafPieces k n v b s e).
Proof. intros ->. pieces_cases; repeat constructor. Qed.

Lemma leafPieces_monotone : monotone [(n, v, b)] (leafPieces k n v b s e).
Proof.
  split.
  - rewrite leafPieces_textLen. unfold textLen. simpl. lia.
  - intros i Hi H. simpl in H.
    destruct (Z.ltb_spec i (JsString.length v)); [| discriminate].
    apply styledAt_all; [now apply leafPieces_flags |].
    rewrite leafPieces_textLen. lia.
Qed.

Lemma leafPieces_covers : covers (leafPieces k n v b s e) s e.
Proof.
  intros i Hi. pieces_cases; simpl;
    rewrite ?substring_length by lia;
    repeat (match goal with
            | |- context [?x <? ?y] => destruct (Z.ltb_spec x y); try lia
            end); reflexivity.
Qed.

Lemma leafPieces_front :
  s < e ->
  exists rest,
    leafPieces k n v b s e =
    ((if 0 <? s then [(n, JsString.substring v 0 s, b)] else []) ++ rest)%list.
Proof.
  intros Hlt. pieces_cases; destruct (Z.ltb_spec 0 s); try lia;
    eexists; simpl; reflexivity.
Qed.

End Pieces.

(* ================================================================== *)
(** ** The untouched front of the document *)

Lemma textLen_nil : textLen [] = 0.
Proof. reflexivity. Qed.

Lemma front_initial (F0 : list (nat * string * bool)) :
  front F0 F0 (textLen F0).
Proof.
  exists F0, [], [], []. rewrite !app_nil_r, textLen_nil.
  repeat split; auto. lia.
Qed.

Lemma front_bound (F0 F : list (nat * string * bool)) (T : Z) :
  front F0 F T -> T <= textLen F0.
Proof.
  intros (A & R & part & S & -> & -> & -> & Hne & Hpart).
  rewrite textLen_app. pose proof (textLen_nonneg R).
  destruct Hpart as [-> | (n & v & b & v' & b' & R' & -> & -> & Hlen)].
  - rewrite textLen_nil. lia.
  - rewrite !textLen_cons, textLen_nil. pose proof (textLen_nonneg R'). lia.
Qed.

(** At the end of the text nothing has been touched yet. *)
Lemma front_whole (F0 F : list (nat * string * bool)) (T : Z) :
  front F0 F T -> textLen F0 <= T -> exists S, F = (F0 ++ S)%list.
Proof.
  intros (A & R & part & S & -> & -> & -> & Hne & Hpart) HT.
  rewrite textLen_app in HT.
  destruct Hpart as [-> | (n & v & b & v' & b' & R' & -> & -> & Hlen)].
  - rewrite textLen_nil in HT.
    destruct R as [|[[n v] b] R].
    + exists S. now rewrite app_nil_r.
    + rewrite textLen_cons in HT. simpl in Hne.
      pose proof (textLen_nonneg R). lia.
  - rewrite !textLen_cons, textLen_nil in HT. pose proof (textLen_nonneg R').
    lia.
Qed.

(** A prefix of the original leaves that ends at or before the front is a
    prefix of the current leaves, and a leaf that starts before the front is
    still there, whole or cut at the front. *)
Lemma front_locate (F0 F : list (nat * string * bool)) (T : Z)
      (X Y : list (nat * string * bool)) :
  front F0 F T -> F0 = (X ++ Y)%list -> textLen X <= T ->
  exists Z,
    F = (X ++ Z)%list /\
    forall n v b Y',
      Y = (n, v, b) :: Y' -> textLen X < T ->
      exists v' b' Z',
        Z = (n, v', b') :: Z' /\
        ((v' = v /\ textLen X + JsString.length v <= T) \/
         (JsString.length v' = T - textLen X /\
          T < textLen X + JsString.length v)).
Proof.
  intros (A & R & part & S & HF0 & -> & -> & Hne & Hpart) HX HT.
  rewrite HF0 in HX. apply app_eq_app in HX.
  destruct HX as (l & [[-> ->] | [-> ->]]).
  - (* the prefix lies within the whole leaves *)
    exists (l ++ part ++ S)%list. split; [now rewrite <- app_assoc |].
    intros n v b Y' HY Hlt.
    destruct l as [|x l].
    + simpl in HY. subst R. rewrite app_nil_r in Hlt.
      destruct Hpart as [-> | (n1 & v1 & b1 & v' & b' & R' & HR & -> & Hlen)].
      * rewrite textLen_nil in Hlt. lia.
      * injection HR as <- <- <- <-. exists v', b', S.
        split; [reflexivity |]. right.
        rewrite app_nil_r, textLen_cons, textLen_nil. lia.
    + simpl in HY. injection HY as -> _.
      exists v, b, (l ++ part ++ S)%list. split; [reflexivity |]. left.
      split; [reflexivity |].
      rewrite textLen_app, textLen_cons.
      pose proof (textLen_nonneg l). pose proof (textLen_nonneg part). lia.
  - (* the prefix would reach into the leaves already handled *)
    destruct l as [|[[n1 v1] b1] l].
    + rewrite app_nil_r in *. simpl.
      exists (part ++ S)%list. split; [reflexivity |].
      intros n v b Y' HY Hlt. subst Y.
      destruct Hpart as [-> | (n2 & v2 & b2 & v' & b' & R' & HR & -> & Hlen)].
      * rewrite textLen_nil in Hlt. lia.
      * injection HR as <- <- <- <-. exists v', b', S.
        split; [reflexivity |]. right. rewrite textLen_cons, textLen_nil.
        lia.
    + exfalso. simpl in Hne. rewrite textLen_app, textLen_cons in HT.
      pose proof (textLen_nonneg l).
      destruct Hpart as [-> | (n2 & v2 & b2 & v' & b' & R' & HR & -> & Hlen)].
      * rewrite textLen_nil in HT. lia.
      * injection HR as <- <- <- <-. rewrite textLen_cons, textLen_nil in HT.
        lia.
Qed.

Lemma leaves_split (F0 : list (nat * string * bool)) (P S : list (nat * string))
      (n : nat) (v : string) :
  map fst F0 = (P ++ (n, v) :: S)%list ->
  exists P3 b S3,
    F0 = (P3 ++ (n, v, b) :: S3)%list /\ map fst P3 = P /\ map fst S3 = S.
Proof.
  intros H. apply map_eq_app in H. destruct H as (P3 & Q & -> & HP & HQ).
  apply map_eq_cons in HQ. destruct HQ as ([[n' v'] b] & S3 & -> & Hx & HS).
  simpl in Hx. injection Hx as -> ->. eauto 6.
Qed.

(* ================================================================== *)
(** ** One group, leaf by leaf *)

Lemma textLen_single (n : nat) (v : string) (b : bool) :
  textLen [(n, v, b)] = JsString.length v.
Proof. rewrite textLen_cons, textLen_nil. lia. Qed.

Lemma covers_at (X pieces Q : list (nat * string * bool)) (lo hi : Z) :
  covers pieces lo hi -> 0 <= lo -> hi <= textLen pieces ->
  covers (X ++ pieces ++ Q) (textLen X + lo) (textLen X + hi).
Proof.
  intros Hc Hlo Hhi i Hi. pose proof (textLen_nonneg X).
  rewrite styledAt_app_r by lia. rewrite styledAt_app_l by lia.
  apply Hc. lia.
Qed.

Lemma textLen_wrap (Ms : list (nat * string * bool)) :
  textLen (map wrapWhole Ms) = textLen Ms.
Proof.
  induction Ms as [|[[x vx] bx] Ms IH]; [reflexivity |].
  cbn [map wrapWhole]. now rewrite !textLen_cons, IH.
Qed.

Lemma monotone_flag (n : nat) (v : string) (b b' : bool) :
  (b = true -> b' = true) -> monotone [(n, v, b)] [(n, v, b')].
Proof.
  intros Hb. split; [reflexivity |]. intros i Hi. simpl.
  destruct (i <? JsString.length v); auto.
Qed.

Lemma monotone_wrap (Ms : list (nat * string * bool)) :
  monotone Ms (map wrapWhole Ms).
Proof.
  induction Ms as [|[[x vx] bx] Ms IH]; [apply monotone_refl |].
  cbn [map wrapWhole].
  apply (monotone_app [(x, vx, bx)] [_] Ms _); [| exact IH].
  apply monotone_flag. intros ->. reflexivity.
Qed.

Lemma wrap_covers (Ms : list (nat * string * bool)) :
  forall j, 0 <= j < textLen Ms ->
            styledAt (map wrapWhole Ms) j = true \/
            valueAt (map fst Ms) j = Some JsString.newline.
Proof.
  induction Ms as [|[[x vx] bx] Ms IH]; intros j Hj.
  - rewrite textLen_nil in Hj. lia.
  - rewrite textLen_cons in Hj. cbn [map wrapWhole fst styledAt valueAt].
    destruct (Z.ltb_spec j (JsString.length vx)).
    + destruct (String.eqb_spec vx JsString.newline) as [-> | Hne].
      * right. reflexivity.
      * left. apply orb_true_r.
    + apply IH. lia.
Qed.

Lemma only_refl (F : list (nat * string * bool)) (lo hi : Z) :
  styledOnlyIn F F lo hi.
Proof. split; auto. Qed.

Lemma only_weaken (F F' : list (nat * string * bool)) (lo hi lo' hi' : Z) :
  styledOnlyIn F F' lo hi -> lo' <= lo -> hi <= hi' ->
  styledOnlyIn F F' lo' hi'.
Proof.
  intros [H1 H2] Hlo Hhi. split; [exact H1 |].
  intros i Hi Hst. destruct (H2 i Hi Hst); [auto | right; lia].
Qed.

Lemma only_all (F F' : list (nat * string * bool)) :
  textLen F = textLen F' -> styledOnlyIn F F' 0 (textLen F).
Proof.
  intros H. split; [exact H |]. intros i Hi Hst. right.
  apply styledAt_bound in Hst. lia.
Qed.

Lemma only_app (A A' B B' : list (nat * string * bool)) (lo hi : Z) :
  styledOnlyIn A A' lo hi ->
  styledOnlyIn B B' (lo - textLen A) (hi - textLen A) ->
  styledOnlyIn (A ++ B) (A' ++ B') lo hi.
Proof.
  intros [HA1 HA2] [HB1 HB2]. split.
  - rewrite !textLen_app. lia.
  - intros i Hi. destruct (Z.lt_ge_cases i (textLen A)) as [Hlt | Hge].
    + rewrite !styledAt_app_l by lia. auto.
    + rewrite !styledAt_app_r by lia. rewrite <- HA1. intros Hst.
      assert (Hi' : 0 <= i - textLen A) by lia.
      destruct (HB2 _ Hi' Hst); [auto | right; lia].
Qed.

Lemma only_trans (F1 F2 F3 : list (nat * string * bool)) (lo hi : Z) :
  styledOnlyIn F1 F2 lo hi -> styledOnlyIn F2 F3 lo hi ->
  styledOnlyIn F1 F3 lo hi.
Proof.
  intros [H1 H2] [H3 H4]. split; [congruence |].
  intros i Hi Hst. destruct (H4 i Hi Hst) as [H | H]; auto.
Qed.

Lemma leafPieces_only (k n : nat) (v : string) (b : bool) (s e : Z) :
  0 <= s <= e -> e <= JsString.length v ->
  styledOnlyIn [(n, v, b)] (leafPieces k n v b s e) s e.
Proof.
  intros Hs He. split.
  - now rewrite leafPieces_textLen, textLen_single.
  - intros i Hi Hst. destruct b.
    + left. apply styledAt_bound in Hst.
      rewrite leafPieces_textLen in Hst by assumption. simpl.
      destruct (Z.ltb_spec i (JsString.length v)); [reflexivity | lia].
    + right. revert Hst. unfold leafPieces.
      destruct (Z.eqb_spec s e); [simpl; destruct (_ <? _); discriminate |].
      destruct (Z.eqb_spec s 0); destruct (Z.eqb_spec e (JsString.length v));
        cbn [andb]; try destruct (Z.ltb_spec e (JsString.length v));
        try lia; simpl; rewrite ?substring_length by lia;
        repeat (match goal with
                | |- context [?x <? ?y] => destruct (Z.ltb_spec x y); try lia
                end); try discriminate; intros _; lia.
Qed.

Section GroupSteps.

Variable className : string.
Variable F0 : list (nat * string * bool).

Lemma head_op (d : document) (P3 S3 Q : list (nat * string * bool))
      (n : nat) (v v' : string) (b0 b' : bool) (so eo : Z) :
  good d ->
  F0 = (P3 ++ (n, v, b0) :: S3)%list ->
  leaves className d = (P3 ++ (n, v', b') :: Q)%list ->
  0 <= so < eo -> eo <= JsString.length v' ->
  JsString.length v' <= JsString.length v ->
  exists d' aff pieces,
    _applyToNode className d n so eo = Some (d', aff) /\ good d' /\
    leaves className d' = (P3 ++ pieces ++ Q)%list /\
    monotone [(n, v', b')] pieces /\ covers pieces so eo /\
    front F0 (leaves className d') (textLen P3 + so) /\
    styledOnlyIn [(n, v', b')] pieces so eo.
Proof.
  intros [Hwf Hroot] HF0 Hl Hso Heo Hv.
  destruct (applyToNode_leaves className d P3 Q n v' b' Hwf Hroot Hl so eo)
    as (d' & aff & Heq & Hwf' & Hroot' & _ & _ & Hl').
  exists d', aff, (leafPieces (nextId d) n v' b' so eo).
  split; [exact Heq |]. split; [split; assumption |].
  split; [exact Hl' |].
  split; [apply leafPieces_monotone; lia |].
  split; [apply leafPieces_covers; lia |].
  split; [| apply leafPieces_only; lia].
  destruct (leafPieces_front (nextId d) n v' b' so eo) as (rest & Hrest);
    try lia.
  rewrite Hl', Hrest.
  exists P3, ((n, v, b0) :: S3),
         (if 0 <? so then [(n, JsString.substring v' 0 so, b')] else []),
         (rest ++ Q)%list.
  split; [exact HF0 |]. split; [now rewrite <- !app_assoc |].
  split; [| split; [simpl; lia |]].
  - destruct (Z.ltb_spec 0 so).
    + rewrite textLen_single, substring_length by lia. lia.
    + rewrite textLen_nil. lia.
  - destruct (Z.ltb_spec 0 so); [right | left; reflexivity].
    exists n, v, b0, (JsString.substring v' 0 so), b', S3.
    split; [reflexivity |]. split; [reflexivity |].
    rewrite substring_length by lia. lia.
Qed.

Lemma wrapInterior_leaves :
  forall (Ms : list (nat * string * bool)) (d : document)
         (Pre Q : list (nat * string * bool)) (acc : list nat),
    good d ->
    leaves className d = (Pre ++ Ms ++ Q)%list ->
    exists d' acc',
      wrapInterior className (rev (pairs0 (map fst Ms))) d acc =
      Some (d', acc') /\ good d' /\
      leaves className d' = (Pre ++ map wrapWhole Ms ++ Q)%list.
Proof.
  induction Ms as [|[[x vx] bx] Ms IH] using rev_ind;
    intros d Pre Q acc Hgood Hl.
  - exists d, acc. simpl. auto.
  - rewrite map_app, pairs0_app, rev_app_distr. cbn [map fst pairs0 rev app].
    rewrite <- app_assoc in Hl. cbn [app] in Hl.
    destruct Hgood as [Hwf Hroot].
    assert (Hl2 : leaves className d =
                  ((Pre ++ Ms) ++ (x, vx, bx) :: Q)%list)
      by now rewrite <- app_assoc.
    cbn [wrapInterior node]. unfold isLineBreak.
    rewrite (leaf_nodeValue className d _ _ x vx bx Hwf Hroot Hl2).
    rewrite map_app. cbn [map wrapWhole].
    destruct (String.eqb_spec vx JsString.newline) as [-> | Hne].
    + destruct (IH d Pre ((x, JsString.newline, bx) :: Q) acc)
        as (d' & acc' & Heq & Hg' & Hl'); [split; assumption | exact Hl |].
      exists d', acc'. split; [exact Heq |]. split; [exact Hg' |].
      rewrite Hl', <- app_assoc. cbn [app negb]. now rewrite orb_false_r.
    + destruct (applyToWholeNode_leaves className d _ _ x vx bx
                  Hwf Hroot Hl2)
        as (d1 & m & Heq1 & Hwf1 & Hroot1 & _ & _ & Hl1).
      rewrite Heq1. rewrite <- app_assoc in Hl1.
      destruct (IH d1 Pre ((x, vx, true) :: Q) (acc ++ [m])%list)
        as (d' & acc' & Heq & Hg' & Hl'); [split; assumption | exact Hl1 |].
      exists d', acc'. split; [exact Heq |]. split; [exact Hg' |].
      rewrite Hl', <- app_assoc. cbn [app negb]. now rewrite orb_true_r.
Qed.

Lemma middle_and_head (d : document) (P3 S3 Ms Q : list (nat * string * bool))
      (n : nat) (v : string) (bn : bool) (so : Z) (acc : list nat) :
  good d ->
  F0 = (P3 ++ (n, v, bn) :: S3)%list ->
  leaves className d = (P3 ++ (n, v, bn) :: Ms ++ Q)%list ->
  0 <= so < JsString.length v ->
  exists d2 a2 d3 a3 pieces,
    wrapInterior className (rev (pairs0 (map fst Ms))) d acc =
    Some (d2, a2) /\
    Dom.nodeValue d2 n = Some v /\
    _applyToNode className d2 n so (JsString.length v) = Some (d3, a3) /\
    good d3 /\
    leaves className d3 = (P3 ++ pieces ++ map wrapWhole Ms ++ Q)%list /\
    monotone [(n, v, bn)] pieces /\
    covers pieces so (JsString.length v) /\
    front F0 (leaves className d3) (textLen P3 + so) /\
    styledOnlyIn [(n, v, bn)] pieces so (JsString.length v).
Proof.
  intros Hgood HF0 Hl Hso.
  destruct (wrapInterior_leaves Ms d (P3 ++ [(n, v, bn)]) Q acc Hgood)
    as (d2 & a2 & Heq2 & Hg2 & Hl2);
    [now rewrite <- app_assoc |].
  rewrite <- app_assoc in Hl2. cbn [app] in Hl2.
  destruct (head_op d2 P3 S3 (map wrapWhole Ms ++ Q) n v v bn bn so
              (JsString.length v) Hg2 HF0 Hl2)
    as (d3 & a3 & pieces & Heq3 & Hg3 & Hl3 & Hm & Hc & Hf & Ho); try lia.
  exists d2, a2, d3, a3, pieces.
  split; [exact Heq2 |]. split; [| auto 8].
  destruct Hg2 as [Hwf2 Hroot2].
  exact (leaf_nodeValue className d2 _ _ n v bn Hwf2 Hroot2 Hl2).
Qed.

End GroupSteps.

(* ================================================================== *)
(** ** One group covers its range *)

Section GroupCoverage.

Variable className : string.
Variable F0 : list (nat * string * bool).
Hypothesis Hdistinct : NoDup (map leafId F0).

Lemma group_same (d : document) (T s e : Z) (P S : list (nat * string))
      (n : nat) (v : string) :
  good d -> front F0 (leaves className d) T ->
  map fst F0 = (P ++ (n, v) :: S)%list ->
  totalLength P <= s -> s <= e ->
  e <= totalLength P + JsString.length v - 1 ->
  (e <= T \/ textLen F0 <= T) ->
  groupExact className F0 d
            [mkNodeAndOffset n (s - totalLength P);
             mkNodeAndOffset n (e - totalLength P)] s e.
Proof.
  intros Hgood Hfront HW Hs Hse He HT.
  destruct (leaves_split _ _ _ _ _ HW) as (P3 & b0 & S3 & HF0 & HP & HS).
  assert (HoP : totalLength P = textLen P3)
    by (unfold textLen; now rewrite HP).
  assert (Htot : textLen F0 =
                 textLen P3 + (JsString.length v + textLen S3))
    by (rewrite HF0, textLen_app, textLen_cons; reflexivity).
  pose proof (textLen_nonneg S3) as HS3.
  rewrite HoP in *.
  assert (HeT : e <= T) by lia.
  unfold groupExact, applyToGroup.
  cbn [List.length Nat.eqb nth node offset nth_error].
  rewrite Nat.eqb_refl. cbn [andb].
  destruct (Z.eq_dec s e) as [<- | Hne].
  - exists d, [], T. unfold _applyToNode. rewrite Z.eqb_refl.
    split; [reflexivity |]. split; [exact Hgood |].
    split; [exact Hfront |]. split; [lia |].
    split; [apply monotone_refl |].
    split; [intros i Hi; lia | apply only_refl].
  - destruct (front_locate F0 _ T P3 ((n, v, b0) :: S3) Hfront HF0)
      as (Q & HF & Hnext); [lia |].
    destruct (Hnext n v b0 S3 eq_refl) as (v' & b' & Q' & -> & Hv');
      [lia |].
    destruct (head_op className F0 d P3 S3 Q' n v v' b0 b'
                (s - textLen P3) (e - textLen P3) Hgood HF0 HF)
      as (d' & aff & pieces & Heq & Hg' & Hl' & Hm & Hc & Hf & Ho);
      try (destruct Hv' as [[-> ?] | [? ?]]; lia).
    assert (Honly : styledOnlyIn (leaves className d) (leaves className d')
                                 s e).
    { rewrite HF, Hl'. apply only_app; [apply only_refl |].
      apply (only_app [_] pieces Q' Q'); [exact Ho | apply only_refl]. }
    exists d', aff, (textLen P3 + (s - textLen P3)).
    split; [exact Heq |]. split; [exact Hg' |]. split; [exact Hf |].
    split; [lia |]. split; [| split; [| exact Honly]].
    + rewrite HF, Hl'. apply monotone_app; [apply monotone_refl |].
      apply (monotone_app [_] pieces Q' Q'); [exact Hm | apply monotone_refl].
    + intros i Hi _. left. rewrite Hl'.
      apply (covers_at P3 pieces Q' _ _ Hc); try lia.
      destruct Hm as [Hlen _]. rewrite <- Hlen, textLen_single.
      destruct Hv' as [[-> ?] | [? ?]]; lia.
Qed.

Lemma group_end_same (d : document) (T s e : Z) (P : list (nat * string))
      (n : nat) (v : string) :
  good d -> front F0 (leaves className d) T ->
  map fst F0 = (P ++ [(n, v)])%list ->
  totalLength P <= s -> s <= totalLength P + JsString.length v - 1 ->
  totalLength (map fst F0) <= e ->
  (e <= T \/ textLen F0 <= T) ->
  groupExact className F0 d
            [mkNodeAndOffset n (s - totalLength P);
             mkNodeAndOffset n (JsString.length v)] s e.
Proof.
  intros Hgood Hfront HW Hs Hs' He HT.
  destruct (leaves_split _ _ _ _ _ HW) as (P3 & b0 & S3 & HF0 & HP & HS).
  apply map_eq_nil in HS. subst S3.
  assert (HoP : totalLength P = textLen P3)
    by (unfold textLen; now rewrite HP).
  assert (Htot : textLen F0 = textLen P3 + JsString.length v)
    by (rewrite HF0, textLen_app, textLen_single; reflexivity).
  change (totalLength (map fst F0)) with (textLen F0) in He.
  rewrite HoP in *.
  destruct (front_whole F0 _ T Hfront) as (Q & HF); [lia |].
  rewrite HF0, <- app_assoc in HF. cbn [app] in HF.
  unfold groupExact, applyToGroup.
  cbn [List.length Nat.eqb nth node offset nth_error].
  rewrite Nat.eqb_refl. cbn [andb].
  destruct (head_op className F0 d P3 [] Q n v v b0 b0
              (s - textLen P3) (JsString.length v) Hgood HF0 HF)
    as (d' & aff & pieces & Heq & Hg' & Hl' & Hm & Hc & Hf & Ho); try lia.
  assert (Honly : styledOnlyIn (leaves className d) (leaves className d')
                               s e).
  { rewrite HF, Hl'. apply only_app; [apply only_refl |].
    apply (only_app [_] pieces Q Q); [| apply only_refl].
    eapply only_weaken; [exact Ho | lia | lia]. }
  exists d', aff, (textLen P3 + (s - textLen P3)).
  split; [exact Heq |]. split; [exact Hg' |]. split; [exact Hf |].
  split; [lia |]. split; [| split; [| exact Honly]].
  + rewrite HF, Hl'. apply monotone_app; [apply monotone_refl |].
    apply (monotone_app [_] pieces Q Q); [exact Hm | apply monotone_refl].
  + intros i Hi Hi'. left. rewrite Hl'.
    destruct Hm as [Hlen _]. rewrite textLen_single in Hlen.
    assert (Hcov : covers (P3 ++ pieces ++ Q)%list
                          (textLen P3 + (s - textLen P3))
                          (textLen P3 + JsString.length v))
      by (apply covers_at; [exact Hc | lia | lia]).
    apply Hcov. lia.
Qed.

Lemma group_multi (d : document) (T s e : Z) (P M S : list (nat * string))
      (n m : nat) (v w : string) :
  good d -> front F0 (leaves className d) T ->
  map fst F0 = (P ++ (n, v) :: M ++ (m, w) :: S)%list ->
  totalLength P <= s -> s <= totalLength P + JsString.length v - 1 ->
  totalLength (P ++ (n, v) :: M) <= e ->
  e <= totalLength (P ++ (n, v) :: M) + JsString.length w - 1 ->
  (e <= T \/ textLen F0 <= T) ->
  groupExact className F0 d
            (mkNodeAndOffset n (s - totalLength P) :: pairs0 M ++
             [mkNodeAndOffset m (e - totalLength (P ++ (n, v) :: M))]) s e.
Proof.
  intros Hgood Hfront HW Hs Hs' He He' HT.
  destruct (leaves_split _ _ _ _ _ HW) as (P3 & bn & S3' & HF0 & HP & HS').
  destruct (leaves_split _ _ _ _ _ HS') as (M3 & bm & S3 & HS3' & HM & HS).
  subst S3'.
  assert (HoP : totalLength P = textLen P3)
    by (unfold textLen; now rewrite HP).
  assert (HoM : totalLength (P ++ (n, v) :: M) =
                textLen (P3 ++ (n, v, bn) :: M3)).
  { unfold textLen. rewrite map_app. cbn [map fst]. now rewrite HP, HM. }
  assert (HoM' : textLen (P3 ++ (n, v, bn) :: M3) =
                 textLen P3 + (JsString.length v + textLen M3))
    by now rewrite textLen_app, textLen_cons.
  assert (Htot : textLen F0 =
                 textLen (P3 ++ (n, v, bn) :: M3) +
                 (JsString.length w + textLen S3)).
  { rewrite HF0.
    change (P3 ++ (n, v, bn) :: M3 ++ (m, w, bm) :: S3)%list
      with (P3 ++ ((n, v, bn) :: M3) ++ (m, w, bm) :: S3)%list.
    now rewrite app_assoc, textLen_app, textLen_cons. }
  pose proof (textLen_nonneg S3) as HS3.
  pose proof (textLen_nonneg M3) as HM3.
  pose proof (textLen_nonneg P3) as HP3.
  rewrite HoM, HoP in *.
  set (om := textLen (P3 ++ (n, v, bn) :: M3)) in *.
  assert (HeT : e <= T) by lia.
  assert (Hnm : n <> m).
  { intros <-. pose proof Hdistinct as Hnd. rewrite HF0, map_app in Hnd.
    cbn [map] in Hnd. apply NoDup_remove_2 in Hnd. apply Hnd.
    rewrite in_app_iff. right. rewrite map_app, in_app_iff. right.
    left. reflexivity. }
  assert (HF0' : F0 = ((P3 ++ (n, v, bn) :: M3) ++ (m, w, bm) :: S3)%list).
  { rewrite HF0, <- app_assoc. reflexivity. }
  destruct (front_locate F0 _ T _ _ Hfront HF0') as (Q & HF & Hnext);
    [fold om; lia |].
  fold om in Hnext.
  (* the tail *)
  assert (Htail : exists d1 a1 Q1,
    (if 0 <? e - om
     then _applyToNode className d m 0 (e - om)
     else Some (d, [])) = Some (d1, a1) /\ good d1 /\
    leaves className d1 = ((P3 ++ (n, v, bn) :: M3) ++ Q1)%list /\
    monotone Q Q1 /\ covers Q1 0 (e - om) /\
    styledOnlyIn Q Q1 0 (e - om)).
  { destruct (Z.ltb_spec 0 (e - om)) as [Hpos | Hzero].
    - destruct (Hnext m w bm S3 eq_refl) as (w' & b' & Q' & -> & Hw');
        [lia |].
      destruct Hgood as [Hwf Hroot].
      destruct (applyToNode_leaves className d _ Q' m w' b' Hwf Hroot HF
                  0 (e - om))
        as (d1 & a1 & Heq & Hwf1 & Hroot1 & _ & _ & Hl1).
      assert (Hlen : e - om <= JsString.length w')
        by (destruct Hw' as [[-> ?] | [? ?]]; lia).
      exists d1, a1, (leafPieces (nextId d) m w' b' 0 (e - om) ++ Q')%list.
      split; [exact Heq |]. split; [split; assumption |].
      split; [exact Hl1 |]. split; [| split].
      + apply (monotone_app [_] _ Q' Q'); [| apply monotone_refl].
        apply leafPieces_monotone; lia.
      + intros i Hi. rewrite styledAt_app_l
          by (rewrite leafPieces_textLen; lia).
        apply leafPieces_covers; lia.
      + apply (only_app [_] _ Q' Q'); [| apply only_refl].
        apply leafPieces_only; lia.
    - exists d, [], Q. split; [reflexivity |]. split; [exact Hgood |].
      split; [exact HF |]. split; [apply monotone_refl |].
      split; [intros i Hi; lia | apply only_refl]. }
  destruct Htail as (d1 & a1 & Q1 & Heq1 & Hg1 & Hl1 & HmQ & HcQ & HoQ).
  rewrite <- app_assoc in Hl1. cbn [app] in Hl1.
  destruct (middle_and_head className F0 d1 P3 _ M3 Q1 n v bn
              (s - textLen P3) a1 Hg1 HF0 Hl1)
    as (d2 & a2 & d3 & a3 & pieces & Heq2 & Hnv & Heq3 & Hg3 & Hl3 & Hm
        & Hc & Hf & Ho); [lia |].
  assert (Honly : styledOnlyIn (leaves className d) (leaves className d3)
                               s e).
  { rewrite HF, Hl3, <- app_assoc. cbn [app].
    apply only_app; [apply only_refl |].
    apply (only_app [_] pieces);
      [eapply only_weaken; [exact Ho | lia | lia] |].
    rewrite textLen_single.
    apply only_app.
    - eapply only_weaken;
        [apply only_all; symmetry; apply textLen_wrap | lia | lia].
    - eapply only_weaken; [exact HoQ | lia | lia]. }
  exists d3, (a2 ++ a3)%list, (textLen P3 + (s - textLen P3)).
  split.
  { rewrite applyToGroup_multi by (right; exact Hnm).
    cbn [node offset]. rewrite Heq1. cbn beta iota.
    rewrite applyToMiddleNodes_lastToFirst, <- HM, Heq2. cbn beta iota.
    rewrite Hnv. cbn beta iota. rewrite Heq3. reflexivity. }
  split; [exact Hg3 |]. split; [exact Hf |]. split; [lia |].
  assert (Hpl : textLen pieces = JsString.length v)
    by (destruct Hm as [Hlen _]; now rewrite <- Hlen, textLen_single).
  split; [| split; [| exact Honly]].
  - rewrite HF, Hl3, <- app_assoc. cbn [app].
    apply monotone_app; [apply monotone_refl |].
    apply (monotone_app [_] pieces); [exact Hm |].
    apply monotone_app; [apply monotone_wrap | exact HmQ].
  - intros i Hi Hi'. rewrite Hl3.
    destruct (Z.lt_ge_cases i (textLen P3 + JsString.length v)) as [Hh | Hh].
    + left.
      assert (Hcov : covers (P3 ++ pieces ++ map wrapWhole M3 ++ Q1)%list
                            (textLen P3 + (s - textLen P3))
                            (textLen P3 + JsString.length v))
        by (apply covers_at; [exact Hc | lia | lia]).
      apply Hcov. lia.
    + rewrite styledAt_app_r by lia.
      rewrite styledAt_app_r by lia. rewrite Hpl.
      destruct (Z.lt_ge_cases i om) as [Hmid | Htl].
      * rewrite styledAt_app_l by (rewrite textLen_wrap; lia).
        destruct (wrap_covers M3 (i - textLen P3 - JsString.length v))
          as [Hst | Hnl]; [lia | left; exact Hst |].
        right. split; [| lia].
        rewrite HW.
        change (P ++ (n, v) :: M ++ (m, w) :: S)%list
          with (P ++ [(n, v)] ++ M ++ (m, w) :: S)%list.
        rewrite valueAt_app_r by lia.
        rewrite valueAt_app_r by (simpl; lia).
        rewrite valueAt_app_l.
        -- rewrite <- HM, <- Hnl. f_equal. simpl. lia.
        -- rewrite <- HM. fold (textLen M3). simpl. lia.
      * left. rewrite styledAt_app_r by (rewrite textLen_wrap; lia).
        apply HcQ. rewrite textLen_wrap. lia.
Qed.

Lemma group_end_multi (d : document) (T s e : Z) (P M : list (nat * string))
      (n m : nat) (v w : string) :
  good d -> front F0 (leaves className d) T ->
  map fst F0 = (P ++ (n, v) :: M ++ [(m, w)])%list ->
  totalLength P <= s -> s <= totalLength P + JsString.length v - 1 ->
  totalLength (map fst F0) <= e ->
  (e <= T \/ textLen F0 <= T) ->
  groupExact className F0 d
            (mkNodeAndOffset n (s - totalLength P) ::
             pairs0 (M ++ [(m, w)]) ++
             [mkNodeAndOffset m (JsString.length w)]) s e.
Proof.
  intros Hgood Hfront HW Hs Hs' He HT.
  destruct (leaves_split _ _ _ _ _ HW) as (P3 & bn & S3' & HF0 & HP & HS').
  destruct (leaves_split _ _ _ _ _ HS') as (M3 & bm & S3 & HS3' & HM & HS).
  apply map_eq_nil in HS. subst S3 S3'.
  assert (HoP : totalLength P = textLen P3)
    by (unfold textLen; now rewrite HP).
  assert (Htot : textLen F0 =
                 textLen P3 + (JsString.length v +
                               (textLen M3 + JsString.length w)))
    by now rewrite HF0, textLen_app, textLen_cons, textLen_app, textLen_single.
  change (totalLength (map fst F0)) with (textLen F0) in He.
  pose proof (textLen_nonneg M3) as HM3.
  pose proof (textLen_nonneg P3) as HP3.
  pose proof (jsLength_nonneg w) as Hw.
  rewrite HoP in *.
  destruct (front_whole F0 _ T Hfront) as (Q & HF); [lia |].
  assert (HF' : leaves className d =
                ((P3 ++ (n, v, bn) :: M3) ++ (m, w, bm) :: Q)%list).
  { rewrite HF, HF0, <- !app_assoc. cbn [app]. rewrite <- app_assoc.
    reflexivity. }
  (* the tail *)
  assert (Htail : exists d1 a1 bm1,
    (if 0 <? JsString.length w
     then _applyToNode className d m 0 (JsString.length w)
     else Some (d, [])) = Some (d1, a1) /\ good d1 /\
    leaves className d1 =
    (P3 ++ (n, v, bn) :: (M3 ++ [(m, w, bm1)]) ++ Q)%list /\
    (bm = true -> bm1 = true)).
  { destruct (Z.ltb_spec 0 (JsString.length w)) as [Hpos | Hzero].
    - destruct Hgood as [Hwf Hroot].
      destruct (applyToNode_leaves className d _ Q m w bm Hwf Hroot HF'
                  0 (JsString.length w))
        as (d1 & a1 & Heq & Hwf1 & Hroot1 & _ & _ & Hl1).
      exists d1, a1, true.
      split; [exact Heq |]. split; [split; assumption |]. split; [| auto].
      rewrite Hl1. unfold leafPieces.
      destruct (Z.eqb_spec 0 (JsString.length w)); [lia |].
      rewrite !Z.eqb_refl. cbn [andb].
      rewrite <- !app_assoc. reflexivity.
    - exists d, [], bm. split; [reflexivity |]. split; [exact Hgood |].
      split; [| auto]. rewrite HF', <- !app_assoc. reflexivity. }
  destruct Htail as (d1 & a1 & bm1 & Heq1 & Hg1 & Hl1 & Hbm).
  destruct (middle_and_head className F0 d1 P3 _ (M3 ++ [(m, w, bm1)]) Q
              n v bn (s - textLen P3) a1 Hg1 HF0 Hl1)
    as (d2 & a2 & d3 & a3 & pieces & Heq2 & Hnv & Heq3 & Hg3 & Hl3 & Hm
        & Hc & Hf & Ho); [lia |].
  assert (Honly : styledOnlyIn (leaves className d) (leaves className d3)
                               s e).
  { rewrite HF', Hl3, <- app_assoc. cbn [app].
    apply only_app; [apply only_refl |].
    apply (only_app [_] pieces);
      [eapply only_weaken; [exact Ho | lia | lia] |].
    rewrite textLen_single.
    change (M3 ++ (m, w, bm) :: Q)%list
      with (M3 ++ [(m, w, bm)] ++ Q)%list.
    rewrite app_assoc.
    apply only_app; [| apply only_refl].
    assert (Hlen : textLen (M3 ++ [(m, w, bm)]) =
                   textLen M3 + JsString.length w)
      by now rewrite textLen_app, textLen_single.
    eapply only_weaken; [apply only_all | lia | lia].
    now rewrite textLen_wrap, !textLen_app, !textLen_single. }
  assert (Hfst : map fst (M3 ++ [(m, w, bm1)]) = (M ++ [(m, w)])%list)
    by (rewrite map_app, HM; reflexivity).
  exists d3, (a2 ++ a3)%list, (textLen P3 + (s - textLen P3)).
  split.
  { rewrite applyToGroup_multi
      by (left; intros Hnil; rewrite pairs0_app in Hnil;
          apply app_eq_nil in Hnil; destruct Hnil as [_ Hnil];
          discriminate).
    cbn [node offset]. rewrite Heq1. cbn beta iota.
    rewrite applyToMiddleNodes_lastToFirst, <- Hfst, Heq2. cbn beta iota.
    rewrite Hnv. cbn beta iota. rewrite Heq3. reflexivity. }
  split; [exact Hg3 |]. split; [exact Hf |]. split; [lia |].
  assert (Hpl : textLen pieces = JsString.length v)
    by (destruct Hm as [Hlen _]; now rewrite <- Hlen, textLen_single).
  split; [| split; [| exact Honly]].
  - rewrite HF', Hl3, <- app_assoc. cbn [app].
    apply monotone_app; [apply monotone_refl |].
    apply (monotone_app [_] pieces); [exact Hm |].
    change (M3 ++ (m, w, bm) :: Q)%list
      with (M3 ++ [(m, w, bm)] ++ Q)%list.
    rewrite app_assoc.
    apply monotone_app; [| apply monotone_refl].
    eapply monotone_trans; [| apply monotone_wrap].
    apply monotone_app; [apply monotone_refl |].
    apply monotone_flag. exact Hbm.
  - intros i Hi Hi'. rewrite Hl3.
    destruct (Z.lt_ge_cases i (textLen P3 + JsString.length v)) as [Hh | Hh].
    + left.
      assert (Hcov : covers (P3 ++ pieces ++
                             map wrapWhole (M3 ++ [(m, w, bm1)]) ++ Q)%list
                            (textLen P3 + (s - textLen P3))
                            (textLen P3 + JsString.length v))
        by (apply covers_at; [exact Hc | lia | lia]).
      apply Hcov. lia.
    + rewrite styledAt_app_r by lia.
      rewrite styledAt_app_r by lia. rewrite Hpl.
      assert (Hms : textLen (M3 ++ [(m, w, bm1)]) =
                    textLen M3 + JsString.length w)
        by now rewrite textLen_app, textLen_single.
      rewrite styledAt_app_l by (rewrite textLen_wrap; lia).
      destruct (wrap_covers (M3 ++ [(m, w, bm1)])
                            (i - textLen P3 - JsString.length v))
        as [Hst | Hnl]; [lia | left; exact Hst |].
      right. split; [| lia].
      rewrite HW.
      change (P ++ (n, v) :: M ++ [(m, w)])%list
        with (P ++ [(n, v)] ++ M ++ [(m, w)])%list.
      rewrite valueAt_app_r by lia.
      rewrite valueAt_app_r by (simpl; lia).
      rewrite <- Hfst, <- Hnl. f_equal. simpl. lia.
Qed.

(** Whatever the shape of the group of a range, applying it styles the
    range, nothing but the range, and moves the front to its start. *)
Lemma applyToGroup_exact (d : document) (T s e : Z) (g : NodeGroup) :
  good d -> front F0 (leaves className d) T ->
  GroupAt (map fst F0) s e g ->
  (e <= T \/ textLen F0 <= T) ->
  groupExact className F0 d g s e.
Proof.
  intros Hgood Hfront Hg HT.
  destruct Hg as [P S n v HW H1 H2 H3 | P M S n m v w HW H1 H2 H3 H4
                 | P n v HW H1 H2 H3 | P M n m v w HW H1 H2 H3].
  - eapply group_same; eauto.
  - eapply group_multi; eauto.
  - eapply group_end_same; eauto.
  - eapply group_end_multi; eauto.
Qed.

Lemma applyToGroup_covers (d : document) (T s e : Z) (g : NodeGroup) :
  good d -> front F0 (leaves className d) T ->
  GroupAt (map fst F0) s e g ->
  (e <= T \/ textLen F0 <= T) ->
  groupDone className F0 d g s e.
Proof.
  intros Hgood Hfront Hg HT.
  destruct (applyToGroup_exact d T s e g Hgood Hfront Hg HT)
    as (d' & aff & T' & H1 & H2 & H3 & H4 & H5 & H6 & _).
  exists d', aff, T'. auto 7.
Qed.

End GroupCoverage.

(* ================================================================== *)
(** ** All groups, from last to first *)

Lemma ascendingTo_snoc2 (ps : list Z) (a b hi : Z) :
  forall lo, ascendingTo lo (ps ++ [a; b]) hi ->
             ascendingTo lo ps a /\ a <= b /\ b <= hi.
Proof.
  induction ps as [|p ps IH]; intros lo H; simpl in *; [tauto |].
  destruct H as [H1 H2]. apply IH in H2. tauto.
Qed.

Lemma ascending_prefix (ps qs : list Z) :
  forall lo, ascending lo (ps ++ qs) -> exists hi, ascendingTo lo ps hi.
Proof.
  induction ps as [|p ps IH]; intros lo H; simpl in *.
  - exists lo. lia.
  - destruct H as [H1 H2]. destruct (IH _ H2) as (hi & Hhi). eauto.
Qed.

Lemma positionsOf_app (a b : list TextSelection) :
  positionsOf (a ++ b) = (positionsOf a ++ positionsOf b)%list.
Proof. induction a as [|r a IH]; simpl; [reflexivity | now rewrite IH]. Qed.

Lemma jsLength_append (a b : string) :
  JsString.length (a ++ b) = JsString.length a + JsString.length b.
Proof.
  unfold JsString.length.
  induction a as [|c a IH]; cbn [String.append String.length]; lia.
Qed.

Lemma length_leafText (F : list (nat * string * bool)) :
  JsString.length (leafText F) = textLen F.
Proof.
  unfold leafText.
  induction F as [|[[n v] b] F IH]; [reflexivity |].
  cbn [map fold_right leafValue fst snd].
  now rewrite jsLength_append, textLen_cons, IH.
Qed.

Lemma leafIds_distinct (cls : string) (d : document) :
  wellFormed d -> isText (rootElement d) = false ->
  NoDup (map leafId (leaves cls d)).
Proof.
  intros [Hnd _] Hroot. rewrite <- (leafIds_leaves cls d Hroot).
  destruct (rootElement d) as [|i tg cl ch]; [discriminate |].
  apply (proj2 (textNodes_ids (Element i tg cl ch))). exact Hnd.
Qed.

Section GroupsLoop.

Variable className : string.

Lemma applyToGroup_short (d : document) (g : NodeGroup) :
  (List.length g <= 1)%nat -> applyToGroup className d g = Some (d, []).
Proof.
  destruct g as [|a [|b g]]; simpl; intros H; try reflexivity. lia.
Qed.

Lemma applyToGroups_prefix (gs extra : list NodeGroup) :
  forall (k : nat) (d : document) (acc : list (list nat)),
    (k <= List.length gs)%nat ->
    applyToGroups className d (gs ++ extra) k acc =
    applyToGroups className d gs k acc.
Proof.
  induction k as [|k IH]; intros d acc Hk; [reflexivity |].
  cbn [applyToGroups]. rewrite nth_error_app1 by lia.
  destruct (nth_error gs k) as [g |]; [| reflexivity].
  cbn beta iota.
  destruct (applyToGroup className d g) as [[d1 a1] |]; [| reflexivity].
  apply IH. lia.
Qed.

Lemma applyToGroups_leftovers (gs : list NodeGroup) (d : document) :
  forall (junk : list NodeGroup) (acc : list (list nat)),
    Forall (fun g => (List.length g <= 1)%nat) junk ->
    exists acc',
      applyToGroups className d (gs ++ junk) (List.length (gs ++ junk)) acc =
      applyToGroups className d gs (List.length gs) acc'.
Proof.
  induction junk as [|j js IH] using rev_ind; intros acc Hj.
  - exists acc. now rewrite app_nil_r.
  - apply Forall_app in Hj. destruct Hj as [Hjs Hj].
    inversion Hj as [|? ? Hlen _]; subst.
    rewrite app_assoc, length_app, Nat.add_comm. cbn [List.length plus].
    cbn [applyToGroups].
    rewrite nth_error_app2 by lia. rewrite Nat.sub_diag. cbn [nth_error].
    cbn beta iota. rewrite (applyToGroup_short d j Hlen). cbn beta iota.
    rewrite applyToGroups_prefix by lia.
    apply IH. exact Hjs.
Qed.

Variable F0 : list (nat * string * bool).
Hypothesis Hdistinct : NoDup (map leafId F0).

Lemma applyToGroups_covers :
  forall (realGroups : list NodeGroup) (realSels : list TextSelection)
         (d : document) (T hi : Z) (acc : list (list nat)),
    good d -> front F0 (leaves className d) T ->
    Forall2 (fun r g => GroupAt (map fst F0) (selStart r) (selEnd r) g)
            realSels realGroups ->
    ascendingTo 0 (positionsOf realSels) hi ->
    (hi <= T \/ textLen F0 <= T) ->
    exists d' acc',
      applyToGroups className d realGroups (List.length realGroups) acc =
      Some (d', acc') /\
      good d' /\ monotone (leaves className d) (leaves className d') /\
      forall r, In r realSels ->
                coveredButLineBreaks F0 (leaves className d')
                                     (selStart r) (selEnd r).
Proof.
  induction realGroups as [|g gs IH] using rev_ind;
    intros realSels d T hi acc Hgood Hfront Hall Hasc HT.
  - inversion Hall; subst. exists d, acc.
    split; [reflexivity |]. split; [exact Hgood |].
    split; [apply monotone_refl |]. intros r [].
  - apply Forall2_app_inv_r in Hall.
    destruct Hall as (rs & rl & Hrs & Hrl & ->).
    inversion Hrl as [|r ? rl' ? Hg Hnil]; subst.
    inversion Hnil; subst.
    rewrite positionsOf_app in Hasc. cbn [positionsOf] in Hasc.
    apply ascendingTo_snoc2 in Hasc. destruct Hasc as (Hasc & Hse & Hhi).
    destruct (applyToGroup_covers className F0 Hdistinct d T
                (selStart r) (selEnd r) g Hgood Hfront Hg)
      as (d1 & a1 & T1 & Heq1 & Hg1 & Hf1 & HT1 & Hm1 & Hc1); [lia |].
    destruct (IH rs d1 T1 (selStart r) (acc ++ [rev a1])%list Hg1 Hf1 Hrs Hasc)
      as (d' & acc' & Heq & Hg' & Hm & Hc); [lia |].
    exists d', acc'. split; [| split; [exact Hg' | split]].
    + rewrite length_app, Nat.add_comm. cbn [List.length plus].
      cbn [applyToGroups].
      rewrite nth_error_app2 by lia. rewrite Nat.sub_diag. cbn [nth_error].
      cbn beta iota. rewrite Heq1. cbn beta iota.
      rewrite applyToGroups_prefix by lia. exact Heq.
    + eapply monotone_trans; eauto.
    + intros r' Hin. apply in_app_iff in Hin.
      destruct Hin as [Hin | [<- | []]]; [now apply Hc |].
      intros i Hi Hi'. destruct (Hc1 i Hi Hi') as [Hst | Hnl]; [| now right].
      left. apply Hm; [| exact Hst].
      pose proof (styledAt_bound _ _ Hst).
      destruct (Z.lt_ge_cases i 0) as [Hneg | Hpos]; [| exact Hpos].
      exfalso.
      assert (H0 : forall rs' lo hi', ascendingTo lo (positionsOf rs') hi' ->
                                     lo <= hi').
      { induction rs' as [|x rs' IHr]; intros lo hi' Ha; simpl in Ha;
          [exact Ha |].
        destruct Ha as (Ha1 & Ha2 & Ha3). apply IHr in Ha3. lia. }
      apply H0 in Hasc. lia.
Qed.

End GroupsLoop.

(* ================================================================== *)
(** ** Coverage of the requested ranges *)

Lemma wellFormed_lineBreak : wellFormed lineBreakDocument.
Proof.
  split; simpl.
  - repeat constructor; simpl; intuition discriminate.
  - repeat constructor.
Qed.

Lemma ascending_ordered (sels : list TextSelection) :
  forall lo, ascending lo (positionsOf sels) ->
             Forall (fun r => selStart r <= selEnd r) sels.
Proof.
  induction sels as [|r sels IH]; intros lo H; [constructor |].
  simpl in H. destruct H as (_ & H1 & H2). constructor; eauto.
Qed.

Lemma applyToRanges_covers :
  forall (className : string) (d : document)
         (textSelections : list TextSelection),
    wellFormed d ->
    isText (rootElement d) = false ->
    ascending 0 (positionsOf textSelections) ->
    exists d' affectedNodeGroups,
      applyToRanges className d textSelections =
      Some (d', affectedNodeGroups) /\
      forall r i,
        In r textSelections -> selStart r <= i < selEnd r ->
        i < JsString.length (textContent (rootElement d)) ->
        styledAt (leaves className d') i = true \/
        (valueAt (treeWalker (rootElement d)) i = Some JsString.newline /\
         selStart r < i).
Proof.
  intros className d sels Hwf Hroot Hasc.
  destruct sels as [|r0 sels0].
  { exists d, []. split; [reflexivity |]. intros r i []. }
  remember (r0 :: sels0) as sels eqn:Hsels.
  assert (Hne : sels <> []) by (rewrite Hsels; discriminate).
  assert (Hunfold :
    applyToRanges className d sels =
    ('(d1, affectedNodeGroups) <-
        applyToGroups className d (_findNodeAndOffsetGroups d sels)
          (List.length (_findNodeAndOffsetGroups d sels)) [] ;;
      Some (d1, rev affectedNodeGroups))).
  { rewrite Hsels. reflexivity. }
  rewrite Hunfold. clear Hunfold Hsels.
  destruct (findNodeAndOffsetGroups_resolved d sels Hne Hasc)
    as (realSels & dropped & realGroups & junk & Hs & -> & Hall & Hjunk
        & Hdrop).
  rewrite (treeWalker_leaves className d Hroot) in *.
  set (F0 := leaves className d) in *.
  fold (textLen F0) in Hdrop.
  rewrite (textContent_leaves className), length_leafText. fold F0.
  destruct (applyToGroups_leftovers className realGroups d junk [] Hjunk)
    as (acc0 & ->).
  rewrite Hs, positionsOf_app in Hasc.
  destruct (ascending_prefix _ _ _ Hasc) as (hi & Hhi).
  destruct (applyToGroups_covers className F0
              (leafIds_distinct className d Hwf Hroot)
              realGroups realSels d (textLen F0) hi acc0
              (conj Hwf Hroot) (front_initial F0) Hall Hhi)
    as (d' & acc' & -> & _ & _ & Hc); [right; lia |].
  exists d', (rev acc'). split; [reflexivity |].
  intros r i Hin Hi Hi'. rewrite Hs in Hin. apply in_app_iff in Hin.
  destruct Hin as [Hin | Hin].
  - exact (Hc r Hin i Hi Hi').
  - rewrite Forall_forall in Hdrop. specialize (Hdrop r Hin). lia.
Qed.

(** C2, as the code has it: for a well-formed document under an element root
    and ranges given in ascending order ([0 <= start_1 <= end_1 <= start_2
    <= ...]), [applyToRanges] returns and keeps the text, and afterwards
    every character of the text at an index in [[start, end)] of a requested
    range lies in a leaf under an element that carries the class, except
    possibly a character whose leaf has the line break as its whole payload
    and comes after the leaf in which the range starts: the interior nodes
    of a group that are line breaks are skipped. *)
Theorem ranges_covered_but_line_breaks :
  forall (className : string) (d : document)
         (textSelections : list TextSelection),
    wellFormed d ->
    isText (rootElement d) = false ->
    ascending 0 (positionsOf textSelections) ->
    exists d' affectedNodeGroups,
      applyToRanges className d textSelections =
      Some (d', affectedNodeGroups) /\
      textContent (rootElement d') = textContent (rootElement d) /\
      forall r i,
        In r textSelections -> selStart r <= i < selEnd r ->
        i < JsString.length (textContent (rootElement d)) ->
        styledAt (leaves className d') i = true \/
        (valueAt (treeWalker (rootElement d)) i = Some JsString.newline /\
         selStart r < i).
Proof.
  intros className d sels Hwf Hroot Hasc.
  destruct (applyToRanges_covers className d sels Hwf Hroot Hasc)
    as (d' & gs & Heq & Hc).
  destruct (applyToRanges_preserved className d sels Hwf Hroot
              (ascending_ordered sels 0 Hasc)) as (dp & gp & Heqp & Hp).
  rewrite Heq in Heqp. injection Heqp as <- <-.
  exists d', gs. split; [exact Heq |]. split; [| exact Hc].
  rewrite !(textContent_leaves className). apply Hp.
Qed.

Lemma ranges_covered_but_line_breaks_witness :
  wellFormed lineBreakDocument /\
  isText (rootElement lineBreakDocument) = false /\
  ascending 0 (positionsOf [mkTextSelection 1 7]) /\
  exists d' affectedNodeGroups,
    applyToRanges "foo" lineBreakDocument [mkTextSelection 1 7] =
    Some (d', affectedNodeGroups) /\
    textContent (rootElement d') =
    textContent (rootElement lineBreakDocument) /\
    forall r i,
      In r [mkTextSelection 1 7] -> selStart r <= i < selEnd r ->
      i < JsString.length (textContent (rootElement lineBreakDocument)) ->
      styledAt (leaves "foo" d') i = true \/
      (valueAt (treeWalker (rootElement lineBreakDocument)) i =
       Some JsString.newline /\ selStart r < i).
Proof.
  assert (H : ascending 0 (positionsOf [mkTextSelection 1 7]))
    by (simpl; lia).
  split; [exact wellFormed_lineBreak |]. split; [reflexivity |].
  split; [exact H |].
  exact (ranges_covered_but_line_breaks "foo" lineBreakDocument _
           wellFormed_lineBreak eq_refl H).
Defined.

(** C2, as the specification words it, fails: the range [[0, 7)] is the
    whole text of [<div><span>abc</span>\n<span>def</span></div>], and the
    line break at index 3 is left unstyled. *)
Lemma line_break_left_unstyled :
  ~ everyCharacterStyled "foo" lineBreakDocument [mkTextSelection 0 7].
Proof.
  intros (d' & gs & Heq & H).
  vm_compute in Heq. injection Heq as <- _.
  specialize (H (mkTextSelection 0 7) 3 (or_introl eq_refl)).
  assert (Hi : selStart (mkTextSelection 0 7) <= 3 <
               selEnd (mkTextSelection 0 7)) by (simpl; lia).
  apply H in Hi. vm_compute in Hi. discriminate.
Qed.

(* ================================================================== *)
(** ** Further properties of the engine *)

Lemma wellFormed_styled : wellFormed styledDocument.
Proof.
  split; simpl.
  - repeat constructor; simpl; intuition discriminate.
  - repeat constructor.
Qed.

Lemma wellFormed_twoStyles : wellFormed twoStylesDocument.
Proof.
  split; simpl.
  - repeat constructor; simpl; intuition discriminate.
  - repeat constructor.
Qed.

(* ------------------------------------------------------------------ *)
(** *** The resolver, range by range *)

(** X1: for ranges given in ascending order, [_findNodeAndOffsetGroups]
    returns, in order, one group for every range that starts inside the
    text: its first entry is the leaf that holds the start with the local
    offset of the start, then come the leaves passed with offset 0, and its
    last entry is the leaf that holds the end with the local offset of the
    end, or the last leaf with its payload length when the end is at or
    beyond the end of the text.  What follows these groups has at most one
    entry each, and the ranges without a group start at or after the end of
    the text. *)
Theorem resolver_groups_by_range :
  forall (d : document) (textSelections : list TextSelection),
    textSelections <> [] ->
    ascending 0 (positionsOf textSelections) ->
    Resolved (treeWalker (rootElement d)) textSelections
             (_findNodeAndOffsetGroups d textSelections).
Proof.
  intros d sels Hne Hasc.
  destruct (findNodeAndOffsetGroups_resolved d sels Hne Hasc)
    as (realSels & dropped & realGroups & junk & H).
  exists realSels, dropped, realGroups, junk. exact H.
Qed.

Lemma resolver_groups_by_range_witness :
  [mkTextSelection 1 5; mkTextSelection 6 9] <> [] /\
  ascending 0 (positionsOf [mkTextSelection 1 5; mkTextSelection 6 9]) /\
  Resolved (treeWalker (rootElement lineBreakDocument))
           [mkTextSelection 1 5; mkTextSelection 6 9]
           (_findNodeAndOffsetGroups lineBreakDocument
              [mkTextSelection 1 5; mkTextSelection 6 9]).
Proof.
  assert (Hne : [mkTextSelection 1 5; mkTextSelection 6 9] <> [])
    by discriminate.
  assert (Hasc : ascending 0
                   (positionsOf [mkTextSelection 1 5; mkTextSelection 6 9]))
    by (simpl; lia).
  split; [exact Hne |]. split; [exact Hasc |].
  exact (resolver_groups_by_range lineBreakDocument _ Hne Hasc).
Defined.

(* ------------------------------------------------------------------ *)
(** *** The mutator on one leaf and on the whole tree *)

(** X5: [_applyToNode] on a text leaf of a well-formed document returns
    whatever the two offsets are (equal, reversed or out of bounds: the
    payload is cut with [substring]); the document stays well-formed, no
    identity is reused, and in the list of leaves only that leaf changes:
    it becomes the pieces of its payload, the other leaves keep their
    identity, payload and styling. *)
Theorem applyToNode_on_leaf :
  forall (className : string) (d : document)
         (A B : list (nat * string * bool)) (n : nat) (v : string) (b : bool)
         (startOffset endOffset : Z),
    wellFormed d ->
    isText (rootElement d) = false ->
    leaves className d = (A ++ (n, v, b) :: B)%list ->
    exists d' affectedNodes,
      _applyToNode className d n startOffset endOffset =
      Some (d', affectedNodes) /\
      wellFormed d' /\ (nextId d <= nextId d')%nat /\
      leaves className d' =
      (A ++ leafPieces (nextId d) n v b startOffset endOffset ++ B)%list.
Proof.
  intros className d A B n v b s e Hwf Hroot Hl.
  destruct (applyToNode_leaves className d A B n v b Hwf Hroot Hl s e)
    as (d' & aff & Heq & Hwf' & _ & Hnext & _ & Hl').
  exists d', aff. auto.
Qed.

Lemma applyToNode_on_leaf_witness :
  wellFormed exampleDocument /\
  isText (rootElement exampleDocument) = false /\
  leaves "foo" exampleDocument =
  ([] ++ (1%nat, "0123456789abcdefghij"%string, false) :: [])%list /\
  exists d' affectedNodes,
    _applyToNode "foo" exampleDocument 1 25 17 = Some (d', affectedNodes) /\
    wellFormed d' /\ (nextId exampleDocument <= nextId d')%nat /\
    leaves "foo" d' =
    ([] ++ leafPieces (nextId exampleDocument) 1
             "0123456789abcdefghij" false 25 17 ++ [])%list.
Proof.
  split; [exact wellFormed_example |]. split; [reflexivity |].
  split; [reflexivity |].
  exact (applyToNode_on_leaf "foo" exampleDocument [] [] 1
           "0123456789abcdefghij" false 25 17
           wellFormed_example eq_refl eq_refl).
Defined.

(** X7: [applyToRanges] keeps the tree in order: the document stays
    well-formed, every text node of the original is still a text node of
    the result, a tree without two text nodes side by side stays so, and a
    tree with only text and [span] elements under the root stays so. *)
Theorem apply_keeps_tree :
  forall (className : string) (d : document)
         (textSelections : list TextSelection),
    wellFormed d ->
    isText (rootElement d) = false ->
    Forall (fun r => selStart r <= selEnd r) textSelections ->
    exists d' affectedNodeGroups,
      applyToRanges className d textSelections =
      Some (d', affectedNodeGroups) /\
      wellFormed d' /\
      incl (map fst (treeWalker (rootElement d)))
           (map fst (treeWalker (rootElement d'))) /\
      (normalized (rootElement d) = true ->
       normalized (rootElement d') = true) /\
      (spansUnder (rootElement d) = true ->
       spansUnder (rootElement d') = true).
Proof.
  intros className d sels Hwf Hroot Hsels.
  destruct (applyToRanges_preserved className d sels Hwf Hroot Hsels)
    as (d' & gs & Heq & Hwf' & Hroot' & Hincl & _ & Hnorm & Hspans).
  exists d', gs. split; [exact Heq |]. split; [exact Hwf' |].
  split; [| split; assumption].
  rewrite (leafIds_leaves className d Hroot),
          (leafIds_leaves className d' Hroot').
  exact Hincl.
Qed.

Lemma apply_keeps_tree_witness :
  wellFormed lineBreakDocument /\
  isText (rootElement lineBreakDocument) = false /\
  Forall (fun r => selStart r <= selEnd r)
         [mkTextSelection 5 7; mkTextSelection 1 2] /\
  exists d' affectedNodeGroups,
    applyToRanges "foo" lineBreakDocument
      [mkTextSelection 5 7; mkTextSelection 1 2] =
    Some (d', affectedNodeGroups) /\
    wellFormed d' /\
    incl (map fst (treeWalker (rootElement lineBreakDocument)))
         (map fst (treeWalker (rootElement d'))) /\
    (normalized (rootElement lineBreakDocument) = true ->
     normalized (rootElement d') = true) /\
    (spansUnder (rootElement lineBreakDocument) = true ->
     spansUnder (rootElement d') = true).
Proof.
  assert (H : Forall (fun r => selStart r <= selEnd r)
                [mkTextSelection 5 7; mkTextSelection 1 2])
    by (repeat constructor; simpl; lia).
  split; [exact wellFormed_lineBreak |]. split; [reflexivity |].
  split; [exact H |].
  exact (apply_keeps_tree "foo" lineBreakDocument _
           wellFormed_lineBreak eq_refl H).
Defined.

(* ------------------------------------------------------------------ *)
(** *** The remover on its own *)





(* ------------------------------------------------------------------ *)
(** *** Requests that touch no text *)

Lemma searchNodes_beyond :
  forall (nodes : list (nat * string)) (lastNode : nat)
         (lastLength ws : Z) (s : Search),
    isFindingTextSelectionEndPos s = false ->
    ws + totalLength nodes <= position s ->
    exists x,
      searchNodes nodes lastNode lastLength ws s =
      (groups s ++ [nodeAndOffsets s ++ [x]])%list.
Proof.
  induction nodes as [|[c v] rest IH]; intros lastNode lastLength ws s Hend Hpos.
  - eexists. reflexivity.
  - simpl in Hpos. pose proof (totalLength_nonneg rest) as Hrest.
    cbn [searchNodes]. rewrite Hend. cbn [andb].
    rewrite searchInNode_miss by lia.
    destruct (IH c (JsString.length v) (ws + JsString.length v)
                 (mkSearch (position s) (positions s) false (groups s)
                           (nodeAndOffsets s)))
      as (x & Hx); [reflexivity | simpl; lia |].
    exists x. exact Hx.
Qed.

(** X4: requests that touch no text change nothing.  An empty list of
    ranges returns an empty list; a list whose first range starts at or
    after the end of the text the walker sees (in particular any list on a
    tree without text) leaves the document as it is and returns one empty
    group, whatever the other ranges are. *)
Theorem ranges_beyond_text_are_ignored :
  forall (className : string) (d : document),
    applyToRanges className d [] = Some (d, []) /\
    forall (r : TextSelection) (textSelections : list TextSelection),
      totalLength (treeWalker (rootElement d)) <= selStart r ->
      applyToRanges className d (r :: textSelections) = Some (d, [[]]).
Proof.
  intros className d. split; [reflexivity |].
  intros r sels Hr. unfold applyToRanges, _findNodeAndOffsetGroups.
  cbn [positionsOf].
  destruct (searchNodes_beyond (treeWalker (rootElement d))
              (nodeId (rootElement d)) (rootLength (rootElement d)) 0
              (mkSearch (selStart r) (selEnd r :: positionsOf sels)
                        false [] []))
    as (x & ->); [reflexivity | simpl; lia |].
  reflexivity.
Qed.

Lemma ranges_beyond_text_are_ignored_witness :
  totalLength (treeWalker (rootElement exampleDocument)) <=
  selStart (mkTextSelection 20 25) /\
  applyToRanges "foo" exampleDocument
    [mkTextSelection 20 25; mkTextSelection 3 6] =
  Some (exampleDocument, [[]]).
Proof.
  assert (H : totalLength (treeWalker (rootElement exampleDocument)) <=
              selStart (mkTextSelection 20 25))
    by (vm_compute; discriminate).
  split; [exact H |].
  exact (proj2 (ranges_beyond_text_are_ignored "foo" exampleDocument)
               (mkTextSelection 20 25) [mkTextSelection 3 6] H).
Defined.

(* ------------------------------------------------------------------ *)
(** *** Wrapping a leaf that is wrapped already *)

Lemma tokenAdd_idem (c : string) (cl : list string) :
  tokenAdd c (tokenAdd c cl) = tokenAdd c cl.
Proof.
  pose proof (carries_tokenAdd c cl) as H. unfold carries in H.
  unfold tokenAdd at 1. now rewrite H.
Qed.

(** X6: [_applyToWholeNode] is idempotent.  Once a text leaf has been
    wrapped whole, wrapping it again changes nothing and returns the same
    element: the leaf is then the only child of an element that carries the
    class, so no second container is created. *)
Theorem whole_node_wrap_idempotent :
  forall (className : string) (d : document) (C : list Frame) (p : nat)
         (tg : string) (cl : list string) (pre post : list Node)
         (n : nat) (v : string) (d1 : document) (affectedNode : nat),
    wellFormed d ->
    focused d C p tg cl (pre ++ Text n v :: post) ->
    _applyToWholeNode className d n = Some (d1, affectedNode) ->
    _applyToWholeNode className d1 n = Some (d1, affectedNode).
Proof.
  intros className d C p tg cl pre post n v d1 m Hwf Hfocus H.
  destruct (applyToWholeNode_focus className d C p tg cl pre post n v
              Hwf Hfocus) as [Heq Hwf1].
  rewrite Heq in H. unfold wholeWrap in *.
  destruct (pre ++ post)%list as [|q rest] eqn:Hsib;
    injection H as <- <-; cbn [fst] in Hwf1.
  - destruct (applyToWholeNode_focus className _ C p tg
                (tokenAdd className cl) [] [] n v Hwf1 eq_refl) as [Heq1 _].
    rewrite Heq1. unfold wholeWrap. cbn [app].
    rewrite tokenAdd_idem. reflexivity.
  - destruct (applyToWholeNode_focus className _
                (mkFrame p tg cl pre post :: C) (nextId d) "span"
                [className] [] [] n v Hwf1 eq_refl) as [Heq1 _].
    rewrite Heq1. unfold wholeWrap. cbn [app].
    assert (Hcl : tokenAdd className [className] = [className]).
    { unfold tokenAdd. simpl. now rewrite String.eqb_refl. }
    rewrite Hcl. reflexivity.
Qed.

Lemma whole_node_wrap_idempotent_witness :
  wellFormed styledDocument /\
  focused styledDocument [] 0 "div" []
          ([Text 1 "012"; Element 2 "span" ["foo"%string] [Text 3 "345"]] ++
           Text 4 "6789abcdefghij" :: []) /\
  _applyToWholeNode "bar" styledDocument 4 =
  Some (mkDocument
          (Element 0 "div" []
             [Text 1 "012"; Element 2 "span" ["foo"%string] [Text 3 "345"];
              Element 5 "span" ["bar"%string] [Text 4 "6789abcdefghij"]]) 6,
        5%nat) /\
  _applyToWholeNode "bar"
    (mkDocument
       (Element 0 "div" []
          [Text 1 "012"; Element 2 "span" ["foo"%string] [Text 3 "345"];
           Element 5 "span" ["bar"%string] [Text 4 "6789abcdefghij"]]) 6) 4 =
  Some (mkDocument
          (Element 0 "div" []
             [Text 1 "012"; Element 2 "span" ["foo"%string] [Text 3 "345"];
              Element 5 "span" ["bar"%string] [Text 4 "6789abcdefghij"]]) 6,
        5%nat).
Proof.
  split; [exact wellFormed_styled |]. split; [reflexivity |].
  split; [reflexivity |].
  exact (whole_node_wrap_idempotent "bar" styledDocument [] 0 "div" []
           [Text 1 "012"; Element 2 "span" ["foo"%string] [Text 3 "345"]] []
           4 "6789abcdefghij" _ 5%nat wellFormed_styled eq_refl eq_refl).
Defined.

(* ------------------------------------------------------------------ *)
(** *** The whole text of the root *)



(* ------------------------------------------------------------------ *)
(** *** How many groups the resolver returns *)

Lemma length_positionsOf (textSelections : list TextSelection) :
  List.length (positionsOf textSelections) =
  (2 * List.length textSelections)%nat.
Proof.
  induction textSelections as [|r sels IH]; simpl; [reflexivity | lia].
Qed.

Lemma ascendingTo_le (ps : list Z) :
  forall lo hi, ascendingTo lo ps hi -> lo <= hi.
Proof.
  induction ps as [|p ps IH]; intros lo hi H; simpl in H; [exact H |].
  destruct H as [H1 H2]. apply IH in H2. lia.
Qed.

(** One leaf of the search, counting: [N] ranges were asked for, and two
    offsets are used up for every finished group. *)
Lemma searchInNode_counts (N : nat) (c : nat) (ws we : Z) :
  forall (poss : list Z) (pos : Z) (isEnd : bool) (gs : list NodeGroup)
         (cur : NodeGroup),
    (2 * List.length gs + (if isEnd then 1 else 0) + 1 + List.length poss =
     2 * N)%nat ->
    match searchInNode c ws we pos poss isEnd gs cur with
    | inl result => List.length result = S N /\ last result [] = []
    | inr s =>
        (2 * List.length (groups s) +
         (if isFindingTextSelectionEndPos s then 1 else 0) + 1 +
         List.length (positions s) = 2 * N)%nat /\
        forall hi, ws <= pos -> ascendingTo pos poss hi ->
                   we < position s /\
                   ascendingTo (position s) (positions s) hi
    end.
Proof.
  induction poss as [|p ps IH]; intros pos isEnd gs cur HK;
    rewrite searchInNode_unfold;
    destruct ((ws <=? pos) && (pos <=? we)) eqn:Hin.
  - destruct isEnd; cbn beta iota zeta.
    + split; [rewrite !length_app; simpl in *; lia | apply last_last].
    + simpl in HK. lia.
  - split; [exact HK |]. intros hi Hws Hasc. split; [| exact Hasc].
    apply andb_false_iff in Hin. destruct Hin as [Hin | Hin].
    * apply Z.leb_gt in Hin. lia.
    * apply Z.leb_gt in Hin. cbn [position]. lia.
  - apply andb_true_iff in Hin. destruct Hin as [Hlo Hhi].
    apply Z.leb_le in Hlo.
    destruct isEnd; cbn beta iota zeta.
    + specialize (IH p false (gs ++ [cur ++ [mkNodeAndOffset c (pos - ws)]])%list
                     []).
      destruct (searchInNode c ws we p ps false _ _) as [result | s].
      * apply IH. rewrite length_app. simpl in *. lia.
      * destruct IH as [HK' Hnext]; [rewrite length_app; simpl in *; lia |].
        split; [exact HK' |]. intros hi Hws [Hp Hasc].
        apply Hnext; [lia | exact Hasc].
    + specialize (IH p true gs (cur ++ [mkNodeAndOffset c (pos - ws)])%list).
      destruct (searchInNode c ws we p ps true _ _) as [result | s].
      * apply IH. simpl in *. lia.
      * destruct IH as [HK' Hnext]; [simpl in *; lia |].
        split; [exact HK' |]. intros hi Hws [Hp Hasc].
        apply Hnext; [lia | exact Hasc].
  - split; [exact HK |]. intros hi Hws Hasc. split; [| exact Hasc].
    apply andb_false_iff in Hin. destruct Hin as [Hin | Hin].
    * apply Z.leb_gt in Hin. lia.
    * apply Z.leb_gt in Hin. cbn [position]. lia.
Qed.

Lemma searchNodes_counts (N : nat) :
  forall (nodes : list (nat * string)) (lastNode : nat)
         (lastLength ws : Z) (s : Search),
    (2 * List.length (groups s) +
     (if isFindingTextSelectionEndPos s then 1 else 0) + 1 +
     List.length (positions s) = 2 * N)%nat ->
    (1 <= List.length (searchNodes nodes lastNode lastLength ws s) <= S N)%nat
    /\
    forall hi,
      ws <= position s -> ascendingTo (position s) (positions s) hi ->
      hi < ws + totalLength nodes ->
      List.length (searchNodes nodes lastNode lastLength ws s) = S N /\
      last (searchNodes nodes lastNode lastLength ws s) [] = [].
Proof.
  induction nodes as [|[c v] rest IH]; intros lastNode lastLength ws s HK.
  - cbn [searchNodes]. split.
    + rewrite length_app. simpl. destruct (isFindingTextSelectionEndPos s); lia.
    + intros hi Hws Hasc Hhi. apply ascendingTo_le in Hasc. simpl in Hhi. lia.
  - cbn [searchNodes].
    pose proof (searchInNode_counts N c ws (ws + JsString.length v - 1)
                  (positions s) (position s)
                  (isFindingTextSelectionEndPos s) (groups s)
                  (if isFindingTextSelectionEndPos s &&
                      (ws + JsString.length v - 1 <? position s)
                   then (nodeAndOffsets s ++ [mkNodeAndOffset c 0])%list
                   else nodeAndOffsets s) HK) as Hin.
    destruct (searchInNode c ws (ws + JsString.length v - 1) (position s)
                (positions s) (isFindingTextSelectionEndPos s) (groups s) _)
      as [result | s'].
    + destruct Hin as [Hlen Hlast]. split; [lia | auto].
    + destruct Hin as [HK' Hnext].
      destruct (IH c (JsString.length v) (ws + JsString.length v) s' HK')
        as [Hbounds Hexact].
      split; [exact Hbounds |]. intros hi Hws Hasc Hhi.
      destruct (Hnext hi Hws Hasc) as [Hpos Hasc'].
      apply (Hexact hi); [lia | exact Hasc' |].
      simpl in Hhi. lia.
Qed.

(** X3: the number of groups that [_findNodeAndOffsetGroups] returns.  For
    any list of [N] ranges it returns at least one group and at most
    [N + 1].  When the offsets are in ascending order and all lie inside the
    text, it returns exactly [N + 1] groups, the last of them empty: a new
    group is opened as soon as the end of a range is found, also after the
    last range. *)
Theorem resolver_group_count :
  (forall (d : document) (textSelections : list TextSelection),
      (1 <= List.length (_findNodeAndOffsetGroups d textSelections)
       <= S (List.length textSelections))%nat) /\
  (forall (d : document) (textSelections : list TextSelection) (hi : Z),
      textSelections <> [] ->
      ascendingTo 0 (positionsOf textSelections) hi ->
      hi < totalLength (treeWalker (rootElement d)) ->
      List.length (_findNodeAndOffsetGroups d textSelections) =
      S (List.length textSelections) /\
      last (_findNodeAndOffsetGroups d textSelections) [] = []).
Proof.
  split.
  - intros d sels. unfold _findNodeAndOffsetGroups.
    destruct sels as [|r sels]; [simpl; lia |].
    cbn [positionsOf].
    apply (searchNodes_counts (S (List.length sels))).
    cbn [groups isFindingTextSelectionEndPos positions List.length].
    rewrite length_positionsOf. lia.
  - intros d sels hi Hne Hasc Hhi. unfold _findNodeAndOffsetGroups.
    destruct sels as [|r sels]; [contradiction |].
    cbn [positionsOf] in *. destruct Hasc as [H0 Hasc].
    apply (proj2 (searchNodes_counts (S (List.length sels)) _ _ _ 0
                    (mkSearch (selStart r) (selEnd r :: positionsOf sels)
                              false [] [])
                    ltac:(cbn [groups isFindingTextSelectionEndPos positions
                               List.length];
                          rewrite length_positionsOf; lia)) hi);
      cbn [position positions]; [exact H0 | exact Hasc | lia].
Qed.

Lemma resolver_group_count_witness :
  [mkTextSelection 0 2; mkTextSelection 7 11] <> [] /\
  ascendingTo 0 (positionsOf [mkTextSelection 0 2; mkTextSelection 7 11]) 11 /\
  11 < totalLength (treeWalker (rootElement exampleDocument)) /\
  List.length (_findNodeAndOffsetGroups exampleDocument
                 [mkTextSelection 0 2; mkTextSelection 7 11]) = 3%nat /\
  last (_findNodeAndOffsetGroups exampleDocument
          [mkTextSelection 0 2; mkTextSelection 7 11]) [] = [].
Proof.
  assert (H1 : [mkTextSelection 0 2; mkTextSelection 7 11] <> [])
    by discriminate.
  assert (H2 : ascendingTo 0
                 (positionsOf [mkTextSelection 0 2; mkTextSelection 7 11]) 11)
    by (simpl; lia).
  assert (H3 : 11 < totalLength (treeWalker (rootElement exampleDocument)))
    by reflexivity.
  split; [exact H1 |]. split; [exact H2 |]. split; [exact H3 |].
  exact (proj2 resolver_group_count exampleDocument _ 11 H1 H2 H3).
Defined.

(* ------------------------------------------------------------------ *)
(** *** Every entry is a boundary point of the tree *)

Lemma searchInNode_bounds (W : list (nat * string)) (c : nat) (v : string)
      (ws : Z) :
  In (c, v) W ->
  let ok := fun x : NodeAndOffset =>
              exists w, In (node x, w) W /\
                        0 <= offset x <= JsString.length w in
  forall (poss : list Z) (pos : Z) (isEnd : bool) (gs : list NodeGroup)
         (cur : NodeGroup),
    Forall (Forall ok) gs -> Forall ok cur ->
    match searchInNode c ws (ws + JsString.length v - 1) pos poss isEnd
                       gs cur with
    | inl result => Forall (Forall ok) result
    | inr s => Forall (Forall ok) (groups s) /\ Forall ok (nodeAndOffsets s)
    end.
Proof.
  intros Hc ok.
  induction poss as [|p ps IH]; intros pos isEnd gs cur Hgs Hcur;
    rewrite searchInNode_unfold;
    destruct ((ws <=? pos) && (pos <=? ws + JsString.length v - 1)) eqn:Hin;
    try (split; assumption);
    apply andb_true_iff in Hin; destruct Hin as [Hlo Hhi];
    apply Z.leb_le in Hlo, Hhi;
    assert (Hnew : Forall ok (cur ++ [mkNodeAndOffset c (pos - ws)]))
      by (apply Forall_app; split; [exact Hcur |];
          constructor; [exists v; simpl; split; [exact Hc | lia] |
                        constructor]).
  - destruct isEnd; cbn beta iota zeta.
    + apply Forall_app. split; [| repeat constructor].
      apply Forall_app. split; [exact Hgs | repeat constructor; exact Hnew].
    + apply Forall_app. split; [exact Hgs | repeat constructor; exact Hnew].
  - destruct isEnd; cbn beta iota zeta; apply IH; auto.
    apply Forall_app. split; [exact Hgs | repeat constructor; exact Hnew].
Qed.

Lemma searchNodes_bounds (d : document) :
  let W := treeWalker (rootElement d) in
  let ok := fun x : NodeAndOffset =>
              exists w, In (node x, w) W /\
                        0 <= offset x <= JsString.length w in
  forall (nodes : list (nat * string)) (lastNode : nat)
         (lastLength ws : Z) (s : Search),
    incl nodes W ->
    (nodes = [] -> entryOk d (mkNodeAndOffset lastNode lastLength)) ->
    Forall (Forall ok) (groups s) -> Forall ok (nodeAndOffsets s) ->
    Forall (Forall (entryOk d)) (searchNodes nodes lastNode lastLength ws s).
Proof.
  intros W ok.
  assert (Hweak : forall g, Forall ok g -> Forall (entryOk d) g).
  { intros g Hg. eapply Forall_impl; [| exact Hg]. intros x Hx. left.
    exact Hx. }
  induction nodes as [|[c v] rest IH];
    intros lastNode lastLength ws s Hincl Hlast Hgs Hcur.
  - cbn [searchNodes]. apply Forall_app. split.
    + eapply Forall_impl; [| exact Hgs]. exact Hweak.
    + constructor; [| constructor]. apply Forall_app. split; [auto |].
      constructor; [auto | constructor].
  - cbn [searchNodes].
    assert (Hc : In (c, v) W) by (apply Hincl; left; reflexivity).
    assert (Hcur' : Forall ok
              (if isFindingTextSelectionEndPos s &&
                  (ws + JsString.length v - 1 <? position s)
               then (nodeAndOffsets s ++ [mkNodeAndOffset c 0])%list
               else nodeAndOffsets s)).
    { destruct (_ && _); [| exact Hcur].
      apply Forall_app. split; [exact Hcur |].
      constructor; [| constructor]. exists v. simpl.
      pose proof (jsLength_nonneg v). split; [exact Hc | lia]. }
    pose proof (searchInNode_bounds W c v ws Hc (positions s) (position s)
                  (isFindingTextSelectionEndPos s) (groups s) _ Hgs Hcur')
      as Hin.
    destruct (searchInNode c ws (ws + JsString.length v - 1) (position s)
                (positions s) (isFindingTextSelectionEndPos s) (groups s) _)
      as [result | s'].
    + eapply Forall_impl; [| exact Hin]. exact Hweak.
    + destruct Hin as [Hgs' Hcur''].
      apply IH; auto.
      * intros x Hx. apply Hincl. right. exact Hx.
      * intros _. left. exists v. simpl.
        pose proof (jsLength_nonneg v). split; [exact Hc | lia].
Qed.

(** X2: every entry of every group that [_findNodeAndOffsetGroups] returns
    is a boundary point of the tree, whatever the ranges are (unsorted,
    negative or beyond the text): a text leaf under the root with an offset
    between 0 and the length of its payload, or, on a tree without text, the
    root with its own length, which is 0 for an element. *)
Theorem resolver_offsets_in_bounds :
  forall (d : document) (textSelections : list TextSelection),
    Forall (Forall (entryOk d)) (_findNodeAndOffsetGroups d textSelections).
Proof.
  intros d sels. unfold _findNodeAndOffsetGroups.
  destruct (positionsOf sels) as [|p ps].
  - constructor; [| constructor]. constructor; [| constructor].
    unfold entryOk.
    destruct (treeWalker (rootElement d)) as [|x W] eqn:HW using rev_ind.
    + right. split; reflexivity.
    + clear IHW. left. destruct x as [n v]. exists v.
      rewrite !map_app. cbn [map]. rewrite !last_last. simpl.
      pose proof (jsLength_nonneg v).
      split; [apply in_or_app; right; left; reflexivity | lia].
  - apply searchNodes_bounds; cbn [groups nodeAndOffsets]; auto.
    + apply incl_refl.
    + intros Hnil. right. split; [exact Hnil | reflexivity].
Qed.

(* ------------------------------------------------------------------ *)
(** *** Styling is added inside the ranges and nowhere else *)

Section GroupsExact.

Variable className : string.
Variable F0 : list (nat * string * bool).
Hypothesis Hdistinct : NoDup (map leafId F0).

Lemma applyToGroups_only :
  forall (realGroups : list NodeGroup) (realSels : list TextSelection)
         (d : document) (T hi : Z) (acc : list (list nat)),
    good d -> front F0 (leaves className d) T ->
    Forall2 (fun r g => GroupAt (map fst F0) (selStart r) (selEnd r) g)
            realSels realGroups ->
    ascendingTo 0 (positionsOf realSels) hi ->
    (hi <= T \/ textLen F0 <= T) ->
    exists d' acc',
      applyToGroups className d realGroups (List.length realGroups) acc =
      Some (d', acc') /\
      monotone (leaves className d) (leaves className d') /\
      forall i, 0 <= i -> styledAt (leaves className d') i = true ->
                styledAt (leaves className d) i = true \/
                exists r, In r realSels /\ selStart r <= i < selEnd r.
Proof.
  induction realGroups as [|g gs IH] using rev_ind;
    intros realSels d T hi acc Hgood Hfront Hall Hasc HT.
  - inversion Hall; subst. exists d, acc.
    split; [reflexivity |]. split; [apply monotone_refl | auto].
  - apply Forall2_app_inv_r in Hall.
    destruct Hall as (rs & rl & Hrs & Hrl & ->).
    inversion Hrl as [|r ? rl' ? Hg Hnil]; subst.
    inversion Hnil; subst.
    rewrite positionsOf_app in Hasc. cbn [positionsOf] in Hasc.
    apply ascendingTo_snoc2 in Hasc. destruct Hasc as (Hasc & Hse & Hhi).
    destruct (applyToGroup_exact className F0 Hdistinct d T
                (selStart r) (selEnd r) g Hgood Hfront Hg)
      as (d1 & a1 & T1 & Heq1 & Hg1 & Hf1 & HT1 & Hm1 & _ & Ho1); [lia |].
    destruct (IH rs d1 T1 (selStart r) (acc ++ [rev a1])%list Hg1 Hf1 Hrs Hasc)
      as (d' & acc' & Heq & Hm & Ho); [lia |].
    exists d', acc'. split; [| split].
    + rewrite length_app, Nat.add_comm. cbn [List.length plus].
      cbn [applyToGroups].
      rewrite nth_error_app2 by lia. rewrite Nat.sub_diag. cbn [nth_error].
      cbn beta iota. rewrite Heq1. cbn beta iota.
      rewrite applyToGroups_prefix by lia. exact Heq.
    + eapply monotone_trans; eauto.
    + intros i Hi Hst. destruct (Ho i Hi Hst) as [Hst1 | (r' & Hin & Hr')].
      * destruct Ho1 as [_ Ho1].
        destruct (Ho1 i Hi Hst1) as [Hst0 | Hr]; [auto |].
        right. exists r. split; [apply in_or_app; right; left |]; auto.
      * right. exists r'. split; [apply in_or_app; left |]; auto.
Qed.

End GroupsExact.

Lemma applyToRanges_styling :
  forall (className : string) (d : document)
         (textSelections : list TextSelection),
    wellFormed d ->
    isText (rootElement d) = false ->
    ascending 0 (positionsOf textSelections) ->
    exists d' affectedNodeGroups,
      applyToRanges className d textSelections =
      Some (d', affectedNodeGroups) /\
      monotone (leaves className d) (leaves className d') /\
      forall i, 0 <= i -> styledAt (leaves className d') i = true ->
                styledAt (leaves className d) i = true \/
                exists r, In r textSelections /\
                          selStart r <= i < selEnd r.
Proof.
  intros className d sels Hwf Hroot Hasc.
  destruct sels as [|r0 sels0].
  { exists d, []. split; [reflexivity |].
    split; [apply monotone_refl | auto]. }
  remember (r0 :: sels0) as sels eqn:Hsels.
  assert (Hne : sels <> []) by (rewrite Hsels; discriminate).
  assert (Hunfold :
    applyToRanges className d sels =
    ('(d1, affectedNodeGroups) <-
        applyToGroups className d (_findNodeAndOffsetGroups d sels)
          (List.length (_findNodeAndOffsetGroups d sels)) [] ;;
      Some (d1, rev affectedNodeGroups))).
  { rewrite Hsels. reflexivity. }
  rewrite Hunfold. clear Hunfold Hsels.
  destruct (findNodeAndOffsetGroups_resolved d sels Hne Hasc)
    as (realSels & dropped & realGroups & junk & Hs & -> & Hall & Hjunk
        & Hdrop).
  rewrite (treeWalker_leaves className d Hroot) in *.
  set (F0 := leaves className d) in *.
  destruct (applyToGroups_leftovers className realGroups d junk [] Hjunk)
    as (acc0 & ->).
  rewrite Hs, positionsOf_app in Hasc.
  destruct (ascending_prefix _ _ _ Hasc) as (hi & Hhi).
  destruct (applyToGroups_only className F0
              (leafIds_distinct className d Hwf Hroot)
              realGroups realSels d (textLen F0) hi acc0
              (conj Hwf Hroot) (front_initial F0) Hall Hhi)
    as (d' & acc' & -> & Hm & Ho); [right; lia |].
  exists d', (rev acc'). split; [reflexivity |]. split; [exact Hm |].
  intros i Hi Hst. destruct (Ho i Hi Hst) as [H | (r & Hin & Hr)]; [auto |].
  right. exists r. split; [| exact Hr]. rewrite Hs.
  apply in_or_app. left. exact Hin.
Qed.

(** X8: [applyToRanges] changes the styling inside the requested ranges and
    nowhere else.  For ranges given in ascending order, a character that
    lay under an element carrying the class still does afterwards, and a
    character that does afterwards either did before or has its index in
    [[start, end)] of one of the ranges. *)
Theorem apply_styles_only_ranges :
  forall (className : string) (d : document)
         (textSelections : list TextSelection),
    wellFormed d ->
    isText (rootElement d) = false ->
    ascending 0 (positionsOf textSelections) ->
    exists d' affectedNodeGroups,
      applyToRanges className d textSelections =
      Some (d', affectedNodeGroups) /\
      (forall i, 0 <= i -> styledAt (leaves className d) i = true ->
                 styledAt (leaves className d') i = true) /\
      (forall i, 0 <= i -> styledAt (leaves className d') i = true ->
                 styledAt (leaves className d) i = true \/
                 exists r, In r textSelections /\
                           selStart r <= i < selEnd r).
Proof.
  intros className d sels Hwf Hroot Hasc.
  destruct (applyToRanges_styling className d sels Hwf Hroot Hasc)
    as (d' & gs & Heq & [_ Hm] & Ho).
  exists d', gs. auto.
Qed.

Lemma apply_styles_only_ranges_witness :
  wellFormed styledDocument /\
  isText (rootElement styledDocument) = false /\
  ascending 0 (positionsOf [mkTextSelection 1 4; mkTextSelection 10 12]) /\
  exists d' affectedNodeGroups,
    applyToRanges "foo" styledDocument
      [mkTextSelection 1 4; mkTextSelection 10 12] =
    Some (d', affectedNodeGroups) /\
    (forall i, 0 <= i -> styledAt (leaves "foo" styledDocument) i = true ->
               styledAt (leaves "foo" d') i = true) /\
    (forall i, 0 <= i -> styledAt (leaves "foo" d') i = true ->
               styledAt (leaves "foo" styledDocument) i = true \/
               exists r, In r [mkTextSelection 1 4; mkTextSelection 10 12] /\
                         selStart r <= i < selEnd r).
Proof.
  assert (H : ascending 0
                (positionsOf [mkTextSelection 1 4; mkTextSelection 10 12]))
    by (simpl; lia).
  split; [exact wellFormed_styled |]. split; [reflexivity |].
  split; [exact H |].
  exact (apply_styles_only_ranges "foo" styledDocument _
           wellFormed_styled eq_refl H).
Defined.

(* ------------------------------------------------------------------ *)
(** *** The nodes that [applyToRanges] returns *)

Lemma carriers_plug_mono (cls : string) (C : list Frame) :
  forall x x' : Node,
    (forall i, In i (carriersOf cls x) -> In i (carriersOf cls x')) ->
    forall i, In i (carriersOf cls (plug C x)) ->
              In i (carriersOf cls (plug C x')).
Proof.
  induction C as [|f C IH]; intros x x' H; simpl; [exact H |].
  apply IH. intros i. unfold fill. simpl.
  rewrite !in_app_iff, !flat_map_app. simpl. rewrite !in_app_iff.
  intuition.
Qed.

Lemma carriers_plug_in (cls : string) (C : list Frame) :
  forall (x : Node) (i : nat),
    In i (carriersOf cls x) -> In i (carriersOf cls (plug C x)).
Proof.
  induction C as [|f C IH]; intros x i H; simpl; [exact H |].
  apply IH. unfold fill. simpl.
  rewrite in_app_iff, flat_map_app. simpl. rewrite !in_app_iff. auto.
Qed.

Lemma carriers_replace_leaf (cls : string) (pre post pieces : list Node)
      (n : nat) (v : string) (i : nat) :
  In i (flat_map (carriersOf cls) (pre ++ Text n v :: post)) ->
  In i (flat_map (carriersOf cls) (pre ++ pieces ++ post)).
Proof.
  rewrite !flat_map_app. simpl. rewrite !in_app_iff. intuition.
Qed.

Lemma carriersGrow_refl (cls : string) (d : document) : carriersGrow cls d d.
Proof. intros i H. exact H. Qed.

Lemma carriersGrow_trans (cls : string) (d1 d2 d3 : document) :
  carriersGrow cls d1 d2 -> carriersGrow cls d2 d3 -> carriersGrow cls d1 d3.
Proof. intros H1 H2 i H. apply H2, H1, H. Qed.

Lemma carriersGrow_all (cls : string) (d d' : document) (l : list nat) :
  carriersGrow cls d d' -> Forall (carrier cls d) l -> Forall (carrier cls d') l.
Proof. intros H Hl. eapply Forall_impl; [| exact Hl]. exact H. Qed.

Section CarriersOfOneLeaf.

Variable className : string.
Variables (d : document) (A B : list (nat * string * bool))
          (n : nat) (v : string) (b : bool).
Hypothesis Hwf : wellFormed d.
Hypothesis Hroot : isText (rootElement d) = false.
Hypothesis Hleaves : leaves className d = (A ++ (n, v, b) :: B)%list.

Lemma applyToWholeNode_carriers (d' : document) (m : nat) :
  _applyToWholeNode className d n = Some (d', m) ->
  carriersGrow className d d' /\ carrier className d' m.
Proof.
  destruct (styledLeaves_focus className _ _ _ _ _ _ _ Hroot Hleaves)
    as (C & p & tg & cl & pre & post & L & R & b0 & Hx & _).
  destruct (applyToWholeNode_focus className d C p tg cl pre post n v Hwf Hx)
    as [Heq _].
  rewrite Heq. unfold wholeWrap, carriersGrow, carrier. rewrite Hx.
  destruct (pre ++ post)%list as [|q rest] eqn:Hsib; intros H;
    injection H as <- <-; cbn [rootElement withRoot].
  - apply app_eq_nil in Hsib. destruct Hsib as [-> ->]. split.
    + apply carriers_plug_mono. intros i. simpl.
      rewrite !in_app_iff. intros [Hi | Hi]; [| auto].
      left. rewrite carries_tokenAdd.
      destruct (carries className cl); [exact Hi | destruct Hi].
    + apply carriers_plug_in. simpl. rewrite carries_tokenAdd. now left.
  - split.
    + apply carriers_plug_mono. intros i. simpl.
      rewrite !in_app_iff. intros [Hi | Hi]; [auto | right].
      apply (carriers_replace_leaf className pre post
               [Element (nextId d) "span" [className] [Text n v]] n v i Hi).
    + apply carriers_plug_in. simpl. rewrite in_app_iff. right.
      rewrite flat_map_app. simpl.
      rewrite carries_single, !in_app_iff. right. left. left. simpl. auto.
Qed.

Lemma applyToNode_carriers (s e : Z) (d' : document) (aff : list nat) :
  _applyToNode className d n s e = Some (d', aff) ->
  carriersGrow className d d' /\ Forall (carrier className d') aff.
Proof.
  destruct (Z.eqb_spec s e) as [-> | Hse].
  - unfold _applyToNode. rewrite Z.eqb_refl. intros H. injection H as <- <-.
    split; [apply carriersGrow_refl | constructor].
  - destruct ((s =? 0) && (e =? JsString.length v)) eqn:Hwhole.
    + unfold _applyToNode.
      destruct (Z.eqb_spec s e); [contradiction |].
      rewrite (leaf_nodeValue className d A B n v b Hwf Hroot Hleaves), Hwhole.
      destruct (_applyToWholeNode className d n) as [[d1 m] |] eqn:Hw;
        [| discriminate].
      intros H. injection H as <- <-.
      destruct (applyToWholeNode_carriers d1 m Hw) as [Hg Hm].
      split; [exact Hg | constructor; [exact Hm | constructor]].
    + destruct (styledLeaves_focus className _ _ _ _ _ _ _ Hroot Hleaves)
        as (C & p & tg & cl & pre & post & L & R & b0 & Hx & _).
      assert (Hnot : ~ (s = 0 /\ e = JsString.length v)).
      { intros [-> ->]. now rewrite !Z.eqb_refl in Hwhole. }
      destruct (applyToNode_partial className d C p tg cl pre post n v
                  Hwf Hx s e Hse Hnot) as [Heq _].
      rewrite Heq. intros H. injection H as <- <-.
      unfold carriersGrow, carrier. rewrite Hx. cbn [rootElement]. split.
      * apply carriers_plug_mono. intros i. simpl.
        rewrite !in_app_iff. intros [Hi | Hi]; [auto | right].
        apply (carriers_replace_leaf className pre post _ n v i Hi).
      * constructor; [| constructor].
        apply carriers_plug_in. simpl. rewrite in_app_iff. right.
        rewrite !flat_map_app, !in_app_iff. right. left.
        unfold splitPieces, styledSpan.
        destruct (s =? 0); [| destruct (e <? JsString.length v)]; simpl;
          rewrite carries_single; simpl; auto.
Qed.

End CarriersOfOneLeaf.

Section CarriersReturned.

Variable className : string.
Variable d0 : document.

Lemma returned_applyToNode (d : document) (n : nat) (s e : Z) :
  preserved className d0 d ->
  In n (map leafId (leaves className d0)) ->
  (s <= e \/
   exists v, Dom.nodeValue d n = Some v /\ e = JsString.length v) ->
  exists d' affected,
    _applyToNode className d n s e = Some (d', affected) /\
    preserved className d0 d' /\ carriersGrow className d d' /\
    Forall (carrier className d') affected.
Proof.
  intros Hp Hn Hse.
  destruct (preserved_applyToNode className d0 d n s e Hp Hn Hse)
    as (d' & aff & Heq & Hp').
  destruct Hp as (Hwf & Hroot & Hincl & _).
  destruct (leaf_split className d n (Hincl n Hn)) as (A & v & b & B & Hl).
  destruct (applyToNode_carriers className d A B n v b Hwf Hroot Hl
              s e d' aff Heq) as [Hg Ha].
  exists d', aff. auto.
Qed.

Lemma returned_applyToWholeNode (d : document) (n : nat) :
  preserved className d0 d ->
  In n (map leafId (leaves className d0)) ->
  exists d' m,
    _applyToWholeNode className d n = Some (d', m) /\
    preserved className d0 d' /\ carriersGrow className d d' /\
    carrier className d' m.
Proof.
  intros Hp Hn.
  destruct (preserved_applyToWholeNode className d0 d n Hp Hn)
    as (d' & m & Heq & Hp').
  destruct Hp as (Hwf & Hroot & Hincl & _).
  destruct (leaf_split className d n (Hincl n Hn)) as (A & v & b & B & Hl).
  destruct (applyToWholeNode_carriers className d A B n v b Hwf Hroot Hl
              d' m Heq) as [Hg Hm].
  exists d', m. auto.
Qed.

Lemma returned_applyToMiddleNodes (g : NodeGroup) :
  Forall (fun x => In (node x) (map leafId (leaves className d0))) g ->
  forall (k : nat) (d : document) (acc : list nat),
    (k <= List.length g)%nat ->
    preserved className d0 d ->
    Forall (carrier className d) acc ->
    exists d' acc',
      applyToMiddleNodes className d g k acc = Some (d', acc') /\
      preserved className d0 d' /\ carriersGrow className d d' /\
      Forall (carrier className d') acc'.
Proof.
  intros Hg. induction k as [|k IH]; intros d acc Hk Hp Hacc.
  - exists d, acc. simpl. auto using carriersGrow_refl.
  - destruct k as [|k];
      [exists d, acc; simpl; auto using carriersGrow_refl |].
    cbn [applyToMiddleNodes].
    destruct (nth_error g (S k)) as [x |] eqn:Hx.
    2:{ apply nth_error_None in Hx. lia. }
    assert (Hin : In (node x) (map leafId (leaves className d0))).
    { rewrite Forall_forall in Hg. eapply Hg, nth_error_In; eauto. }
    cbn beta iota.
    destruct (isLineBreak d (node x)).
    + apply IH; [lia | assumption | assumption].
    + destruct (returned_applyToWholeNode d (node x) Hp Hin)
        as (d1 & m & -> & Hp1 & Hg1 & Hm). cbn beta iota.
      destruct (IH d1 (acc ++ [m])%list) as (d' & acc' & Heq & Hp' & Hg' & Ha');
        [lia | assumption | |].
      { apply Forall_app. split; [eapply carriersGrow_all; eauto |].
        constructor; [exact Hm | constructor]. }
      exists d', acc'. split; [exact Heq |]. split; [exact Hp' |].
      split; [eapply carriersGrow_trans; eauto | exact Ha'].
Qed.

Lemma returned_applyToGroup (d : document) (g : NodeGroup) :
  preserved className d0 d ->
  groupOk (map leafId (leaves className d0)) g ->
  exists d' affected,
    applyToGroup className d g = Some (d', affected) /\
    preserved className d0 d' /\ carriersGrow className d d' /\
    Forall (carrier className d') affected.
Proof.
  intros Hp [Hnodes Hsame]. unfold applyToGroup.
  destruct (Nat.eqb (List.length g) 2 && _) eqn:Hpair.
  - apply andb_true_iff in Hpair. destruct Hpair as [Hlen Heq].
    apply Nat.eqb_eq in Hlen, Heq.
    destruct g as [|a [|b [|c g]]]; try discriminate. simpl in *.
    apply returned_applyToNode; auto.
    assert (Hf : Forall (fun x => In (node x) (map leafId (leaves className d0)))
                        [a; b]) by (apply Hnodes; lia).
    now inversion Hf.
  - destruct (Nat.leb_spec 2 (List.length g)) as [Hlen | _].
    2:{ exists d, []. auto using carriersGrow_refl. }
    specialize (Hnodes Hlen).
    destruct (nth_error g (List.length g - 1)) as [t |] eqn:Ht.
    2:{ apply nth_error_None in Ht. lia. }
    assert (Htin : In (node t) (map leafId (leaves className d0))).
    { rewrite Forall_forall in Hnodes. eapply Hnodes, nth_error_In; eauto. }
    assert (Hstep1 : exists d1 a1,
      (if 0 <? offset t
       then _applyToNode className d (node t) 0 (offset t)
       else Some (d, [])) = Some (d1, a1) /\ preserved className d0 d1 /\
      carriersGrow className d d1 /\ Forall (carrier className d1) a1).
    { destruct (Z.ltb_spec 0 (offset t)).
      - apply returned_applyToNode; auto. left. lia.
      - exists d, []. auto using carriersGrow_refl. }
    destruct Hstep1 as (d1 & a1 & -> & Hp1 & Hg1 & Ha1). cbn beta iota.
    destruct (returned_applyToMiddleNodes g Hnodes (List.length g - 1) d1 a1)
      as (d2 & a2 & -> & Hp2 & Hg2 & Ha2); [lia | assumption | assumption |].
    cbn beta iota.
    destruct g as [|h g]; [simpl in Hlen; lia |]. cbn [nth_error].
    cbn beta iota.
    assert (Hhin : In (node h) (map leafId (leaves className d0)))
      by now inversion Hnodes.
    destruct (preserved_nodeValue className d0 d2 (node h) Hp2 Hhin)
      as (hv & Hhv).
    rewrite Hhv. cbn beta iota.
    destruct (returned_applyToNode d2 (node h) (offset h)
                (JsString.length hv) Hp2 Hhin)
      as (d3 & a3 & -> & Hp3 & Hg3 & Ha3); [eauto |].
    cbn beta iota. exists d3, (a2 ++ a3)%list.
    split; [reflexivity |]. split; [exact Hp3 |]. split.
    + eapply carriersGrow_trans; [| exact Hg3].
      eapply carriersGrow_trans; eauto.
    + apply Forall_app. split; [eapply carriersGrow_all; eauto | exact Ha3].
Qed.

Lemma returned_applyToGroups (gs : list NodeGroup) :
  Forall (groupOk (map leafId (leaves className d0))) gs ->
  forall (k : nat) (d : document) (acc : list (list nat)),
    (k <= List.length gs)%nat ->
    preserved className d0 d ->
    Forall (Forall (carrier className d)) acc ->
    exists d' acc',
      applyToGroups className d gs k acc = Some (d', acc') /\
      Forall (Forall (carrier className d')) acc' /\
      List.length acc' = (List.length acc + k)%nat.
Proof.
  intros Hgs. induction k as [|k IH]; intros d acc Hk Hp Hacc.
  - exists d, acc. simpl. auto.
  - cbn [applyToGroups].
    destruct (nth_error gs k) as [g |] eqn:Hg.
    2:{ apply nth_error_None in Hg. lia. }
    assert (Hok : groupOk (map leafId (leaves className d0)) g).
    { rewrite Forall_forall in Hgs. eapply Hgs, nth_error_In; eauto. }
    cbn beta iota.
    destruct (returned_applyToGroup d g Hp Hok)
      as (d1 & a1 & -> & Hp1 & Hg1 & Ha1). cbn beta iota.
    destruct (IH d1 (acc ++ [rev a1])%list) as (d' & acc' & Heq & Ha' & Hlen);
      [lia | assumption | |].
    { apply Forall_app. split.
      - eapply Forall_impl; [| exact Hacc]. intros l Hl.
        eapply carriersGrow_all; eauto.
      - constructor; [| constructor]. now apply Forall_rev. }
    exists d', acc'. split; [exact Heq |]. split; [exact Ha' |].
    rewrite Hlen, length_app. simpl. lia.
Qed.

End CarriersReturned.

(** X9: what [applyToRanges] returns.  For ranges with [start <= end] it
    returns one list of nodes for each group of the resolver, and every
    node in these lists is an element of the resulting tree that carries
    the class: the container created for a range, or the parent that
    received the class when a leaf was its only child. *)
Theorem affected_nodes_carry_class :
  forall (className : string) (d : document)
         (textSelections : list TextSelection),
    wellFormed d ->
    isText (rootElement d) = false ->
    textSelections <> [] ->
    Forall (fun r => selStart r <= selEnd r) textSelections ->
    exists d' affectedNodeGroups,
      applyToRanges className d textSelections =
      Some (d', affectedNodeGroups) /\
      List.length affectedNodeGroups =
      List.length (_findNodeAndOffsetGroups d textSelections) /\
      Forall (Forall (carrier className d')) affectedNodeGroups.
Proof.
  intros className d sels Hwf Hroot Hne Hsels. unfold applyToRanges.
  destruct sels as [|r sels]; [contradiction |].
  assert (Hp : preserved className d d).
  { split; [exact Hwf |]. split; [exact Hroot |].
    split; [apply incl_refl |]. split; [reflexivity | apply shapeKept_refl]. }
  destruct (returned_applyToGroups className d _
              (findNodeAndOffsetGroups_ok className d (r :: sels)
                 Hwf Hroot Hsels)
              (List.length (_findNodeAndOffsetGroups d (r :: sels))) d []
              (le_n _) Hp (Forall_nil _)) as (d' & acc & -> & Ha & Hlen).
  exists d', (rev acc). split; [reflexivity |].
  split; [now rewrite length_rev, Hlen | now apply Forall_rev].
Qed.

Lemma affected_nodes_carry_class_witness :
  wellFormed exampleDocument /\
  isText (rootElement exampleDocument) = false /\
  [mkTextSelection 0 2; mkTextSelection 7 11] <> [] /\
  Forall (fun r => selStart r <= selEnd r)
         [mkTextSelection 0 2; mkTextSelection 7 11] /\
  exists d' affectedNodeGroups,
    applyToRanges "foo" exampleDocument
      [mkTextSelection 0 2; mkTextSelection 7 11] =
    Some (d', affectedNodeGroups) /\
    List.length affectedNodeGroups =
    List.length (_findNodeAndOffsetGroups exampleDocument
                   [mkTextSelection 0 2; mkTextSelection 7 11]) /\
    Forall (Forall (carrier "foo" d')) affectedNodeGroups.
Proof.
  assert (H1 : [mkTextSelection 0 2; mkTextSelection 7 11] <> [])
    by discriminate.
  assert (H2 : Forall (fun r => selStart r <= selEnd r)
                 [mkTextSelection 0 2; mkTextSelection 7 11])
    by (repeat constructor; simpl; lia).
  split; [exact wellFormed_example |]. split; [reflexivity |].
  split; [exact H1 |]. split; [exact H2 |].
  exact (affected_nodes_carry_class "foo" exampleDocument _
           wellFormed_example eq_refl H1 H2).
Defined.

(* ------------------------------------------------------------------ *)
(** *** Relations that every step of [applyToRanges] keeps *)

Section ApplyStepwise.

Variable className : string.
Variable d0 : document.
Variable R : document -> document -> Prop.
Hypothesis R_refl : forall d, R d d.
Hypothesis R_trans : forall d1 d2 d3, R d1 d2 -> R d2 d3 -> R d1 d3.
Hypothesis R_node :
  forall (d : document) (A B : list (nat * string * bool)) (n : nat)
         (v : string) (b : bool) (s e : Z) (d' : document) (aff : list nat),
    wellFormed d -> isText (rootElement d) = false ->
    leaves className d = (A ++ (n, v, b) :: B)%list ->
    s <= e \/ e = JsString.length v ->
    _applyToNode className d n s e = Some (d', aff) -> R d d'.
Hypothesis R_whole :
  forall (d : document) (A B : list (nat * string * bool)) (n : nat)
         (v : string) (b : bool) (d' : document) (m : nat),
    wellFormed d -> isText (rootElement d) = false ->
    leaves className d = (A ++ (n, v, b) :: B)%list ->
    _applyToWholeNode className d n = Some (d', m) -> R d d'.

Lemma stepwise_applyToNode (d : document) (n : nat) (s e : Z) :
  preserved className d0 d ->
  In n (map leafId (leaves className d0)) ->
  (s <= e \/
   exists v, Dom.nodeValue d n = Some v /\ e = JsString.length v) ->
  exists d' affected,
    _applyToNode className d n s e = Some (d', affected) /\
    preserved className d0 d' /\ R d d'.
Proof.
  intros Hp Hn Hse.
  destruct (preserved_applyToNode className d0 d n s e Hp Hn Hse)
    as (d' & aff & Heq & Hp').
  destruct Hp as (Hwf & Hroot & Hincl & _).
  destruct (leaf_split className d n (Hincl n Hn)) as (A & v & b & B & Hl).
  exists d', aff. split; [exact Heq |]. split; [exact Hp' |].
  apply (R_node d A B n v b s e d' aff Hwf Hroot Hl); [| exact Heq].
  destruct Hse as [? | (v' & Hv & ->)]; [auto | right].
  rewrite (leaf_nodeValue className d A B n v b Hwf Hroot Hl) in Hv.
  now injection Hv as <-.
Qed.

Lemma stepwise_applyToMiddleNodes (g : NodeGroup) :
  Forall (fun x => In (node x) (map leafId (leaves className d0))) g ->
  forall (k : nat) (d : document) (acc : list nat),
    (k <= List.length g)%nat ->
    preserved className d0 d ->
    exists d' acc',
      applyToMiddleNodes className d g k acc = Some (d', acc') /\
      preserved className d0 d' /\ R d d'.
Proof.
  intros Hg. induction k as [|k IH]; intros d acc Hk Hp.
  - exists d, acc. simpl. auto.
  - destruct k as [|k]; [exists d, acc; simpl; auto |].
    cbn [applyToMiddleNodes].
    destruct (nth_error g (S k)) as [x |] eqn:Hx.
    2:{ apply nth_error_None in Hx. lia. }
    assert (Hin : In (node x) (map leafId (leaves className d0))).
    { rewrite Forall_forall in Hg. eapply Hg, nth_error_In; eauto. }
    cbn beta iota.
    destruct (isLineBreak d (node x)).
    + apply IH; [lia | assumption].
    + destruct (preserved_applyToWholeNode className d0 d (node x) Hp Hin)
        as (d1 & m & Heq1 & Hp1).
      assert (HR : R d d1).
      { destruct Hp as (Hwf & Hroot & Hincl & _).
        destruct (leaf_split className d (node x) (Hincl _ Hin))
          as (A & v & b & B & Hl).
        exact (R_whole d A B (node x) v b d1 m Hwf Hroot Hl Heq1). }
      rewrite Heq1. cbn beta iota.
      destruct (IH d1 (acc ++ [m])%list) as (d' & acc' & Heq & Hp' & HR');
        [lia | assumption |].
      exists d', acc'. eauto.
Qed.

Lemma stepwise_applyToGroup (d : document) (g : NodeGroup) :
  preserved className d0 d ->
  groupOk (map leafId (leaves className d0)) g ->
  exists d' affected,
    applyToGroup className d g = Some (d', affected) /\
    preserved className d0 d' /\ R d d'.
Proof.
  intros Hp [Hnodes Hsame]. unfold applyToGroup.
  destruct (Nat.eqb (List.length g) 2 && _) eqn:Hpair.
  - apply andb_true_iff in Hpair. destruct Hpair as [Hlen Heq].
    apply Nat.eqb_eq in Hlen, Heq.
    destruct g as [|a [|b [|c g]]]; try discriminate. simpl in *.
    apply stepwise_applyToNode; auto.
    assert (Hf : Forall (fun x => In (node x) (map leafId (leaves className d0)))
                        [a; b]) by (apply Hnodes; lia).
    now inversion Hf.
  - destruct (Nat.leb_spec 2 (List.length g)) as [Hlen | _];
      [| exists d, []; auto].
    specialize (Hnodes Hlen).
    destruct (nth_error g (List.length g - 1)) as [t |] eqn:Ht.
    2:{ apply nth_error_None in Ht. lia. }
    assert (Htin : In (node t) (map leafId (leaves className d0))).
    { rewrite Forall_forall in Hnodes. eapply Hnodes, nth_error_In; eauto. }
    assert (Hstep1 : exists d1 a1,
      (if 0 <? offset t
       then _applyToNode className d (node t) 0 (offset t)
       else Some (d, [])) = Some (d1, a1) /\ preserved className d0 d1 /\
      R d d1).
    { destruct (Z.ltb_spec 0 (offset t)); [| exists d, []; auto].
      apply stepwise_applyToNode; auto. left. lia. }
    destruct Hstep1 as (d1 & a1 & -> & Hp1 & HR1). cbn beta iota.
    destruct (stepwise_applyToMiddleNodes g Hnodes (List.length g - 1) d1 a1)
      as (d2 & a2 & -> & Hp2 & HR2); [lia | assumption |].
    cbn beta iota.
    destruct g as [|h g]; [simpl in Hlen; lia |]. cbn [nth_error].
    cbn beta iota.
    assert (Hhin : In (node h) (map leafId (leaves className d0)))
      by now inversion Hnodes.
    destruct (preserved_nodeValue className d0 d2 (node h) Hp2 Hhin)
      as (hv & Hhv).
    rewrite Hhv. cbn beta iota.
    destruct (stepwise_applyToNode d2 (node h) (offset h)
                (JsString.length hv) Hp2 Hhin)
      as (d3 & a3 & -> & Hp3 & HR3); [eauto |].
    cbn beta iota. exists d3, (a2 ++ a3)%list. eauto.
Qed.

Lemma stepwise_applyToGroups (gs : list NodeGroup) :
  Forall (groupOk (map leafId (leaves className d0))) gs ->
  forall (k : nat) (d : document) (acc : list (list nat)),
    (k <= List.length gs)%nat ->
    preserved className d0 d ->
    exists d' acc',
      applyToGroups className d gs k acc = Some (d', acc') /\ R d d'.
Proof.
  intros Hgs. induction k as [|k IH]; intros d acc Hk Hp.
  - exists d, acc. simpl. auto.
  - cbn [applyToGroups].
    destruct (nth_error gs k) as [g |] eqn:Hg.
    2:{ apply nth_error_None in Hg. lia. }
    assert (Hok : groupOk (map leafId (leaves className d0)) g).
    { rewrite Forall_forall in Hgs. eapply Hgs, nth_error_In; eauto. }
    cbn beta iota.
    destruct (stepwise_applyToGroup d g Hp Hok) as (d1 & a1 & -> & Hp1 & HR1).
    cbn beta iota.
    destruct (IH d1 (acc ++ [rev a1])%list) as (d' & acc' & Heq & HR');
      [lia | assumption |].
    exists d', acc'. eauto.
Qed.

Lemma applyToRanges_stepwise (textSelections : list TextSelection) :
  wellFormed d0 -> isText (rootElement d0) = false ->
  Forall (fun r => selStart r <= selEnd r) textSelections ->
  exists d' affectedNodeGroups,
    applyToRanges className d0 textSelections =
    Some (d', affectedNodeGroups) /\ R d0 d'.
Proof.
  intros Hwf Hroot Hsels. unfold applyToRanges.
  destruct textSelections as [|r sels]; [exists d0, []; auto |].
  assert (Hp : preserved className d0 d0).
  { split; [exact Hwf |]. split; [exact Hroot |].
    split; [apply incl_refl |]. split; [reflexivity | apply shapeKept_refl]. }
  destruct (stepwise_applyToGroups _
              (findNodeAndOffsetGroups_ok className d0 (r :: sels)
                 Hwf Hroot Hsels)
              (List.length (_findNodeAndOffsetGroups d0 (r :: sels))) d0 []
              (le_n _) Hp) as (d' & acc & -> & HR).
  exists d', (rev acc). auto.
Qed.

End ApplyStepwise.

(* ------------------------------------------------------------------ *)
(** *** One style does not disturb another *)

Lemma same_refl (F : list (nat * string * bool)) : sameStyling F F.
Proof. split; auto. Qed.

Lemma same_trans (F1 F2 F3 : list (nat * string * bool)) :
  sameStyling F1 F2 -> sameStyling F2 F3 -> sameStyling F1 F3.
Proof.
  intros [H1 H2] [H3 H4]. split; [congruence |].
  intros i Hi. now rewrite H2, H4.
Qed.

Lemma same_app (A A' B B' : list (nat * string * bool)) :
  sameStyling A A' -> sameStyling B B' -> sameStyling (A ++ B) (A' ++ B').
Proof.
  intros [HA1 HA2] [HB1 HB2]. split.
  - rewrite !textLen_app. lia.
  - intros i Hi. destruct (Z.lt_ge_cases i (textLen A)) as [Hlt | Hge].
    + rewrite !styledAt_app_l by lia. auto.
    + rewrite !styledAt_app_r by lia. rewrite <- HA1. apply HB2. lia.
Qed.

Lemma styledAt_uniform (b : bool) (ls : list (nat * string * bool)) :
  Forall (fun l => snd l = b) ls ->
  forall i, 0 <= i ->
            styledAt ls i = if i <? textLen ls then b else false.
Proof.
  induction 1 as [|[[n v] b'] ls Hb _ IH]; intros i Hi.
  - rewrite textLen_nil. simpl. destruct (Z.ltb_spec i 0); [lia | reflexivity].
  - simpl in Hb. subst b'. rewrite textLen_cons. simpl.
    pose proof (textLen_nonneg ls). pose proof (jsLength_nonneg v).
    destruct (Z.ltb_spec i (JsString.length v)).
    + destruct (Z.ltb_spec i (JsString.length v + textLen ls)); [auto | lia].
    + rewrite IH by lia.
      destruct (Z.ltb_spec (i - JsString.length v) (textLen ls));
        destruct (Z.ltb_spec i (JsString.length v + textLen ls));
        auto; lia.
Qed.

Lemma same_uniform (b : bool) (ls ls' : list (nat * string * bool)) :
  Forall (fun l => snd l = b) ls -> Forall (fun l => snd l = b) ls' ->
  textLen ls = textLen ls' -> sameStyling ls ls'.
Proof.
  intros H H' Hlen. split; [exact Hlen |]. intros i Hi.
  now rewrite (styledAt_uniform b ls H), (styledAt_uniform b ls' H'), Hlen.
Qed.

Lemma textLen_recolor (b : bool) (ls : list (nat * string * bool)) :
  textLen (map (recolor b) ls) = textLen ls.
Proof.
  induction ls as [|[[n v] b'] ls IH]; [reflexivity |].
  change (map (recolor b) ((n, v, b') :: ls))
    with ((n, v, b) :: map (recolor b) ls).
  now rewrite !textLen_cons, IH.
Qed.

Lemma flags_recolor (b : bool) (ls : list (nat * string * bool)) :
  Forall (fun l => snd l = b) (map (recolor b) ls).
Proof. induction ls; simpl; constructor; auto. Qed.

Section OtherClass.

Variables other className : string.
Hypothesis Hdiff : other <> className.

Lemma carries_other_single : carries other [className] = false.
Proof.
  unfold carries. simpl. rewrite orb_false_r. now apply String.eqb_neq.
Qed.

Lemma carries_other_add (cl : list string) :
  carries other (tokenAdd className cl) = carries other cl.
Proof.
  unfold carries, tokenAdd.
  destruct (existsb (String.eqb className) cl); [reflexivity |].
  rewrite existsb_app. fold (carries other [className]).
  now rewrite carries_other_single, orb_false_r.
Qed.

Lemma carries_other_remove (cl : list string) :
  carries other (tokenRemove className cl) = carries other cl.
Proof.
  unfold carries, tokenRemove.
  induction cl as [|x cl IH]; simpl; [reflexivity |].
  destruct (String.eqb_spec className x) as [<- | Hne]; simpl.
  - rewrite IH. apply String.eqb_neq in Hdiff. now rewrite Hdiff.
  - now rewrite IH.
Qed.

Lemma splitPieces_other (k n : nat) (v : string) (b : bool) (s e : Z) :
  s <> e -> ~ (s = 0 /\ e = JsString.length v) ->
  flat_map (styledLeaves other b) (fst (splitPieces className k n v s e)) =
  map (recolor b) (leafPieces k n v b s e).
Proof.
  intros Hse Hwhole. unfold splitPieces, leafPieces, styledSpan.
  destruct (Z.eqb_spec s e); [contradiction |].
  destruct (Z.eqb_spec s 0) as [-> | Hs].
  - destruct (Z.eqb_spec e (JsString.length v)); [tauto |].
    simpl. now rewrite carries_other_single, orb_false_r.
  - cbn [andb].
    destruct (e <? JsString.length v); simpl;
      now rewrite carries_other_single, orb_false_r.
Qed.

Lemma other_whole (d : document) (X Y : list (nat * string * bool))
      (n : nat) (v : string) (b : bool) (d' : document) (m : nat) :
  wellFormed d -> isText (rootElement d) = false ->
  leaves className d = (X ++ (n, v, b) :: Y)%list ->
  _applyToWholeNode className d n = Some (d', m) ->
  leaves other d' = leaves other d.
Proof.
  intros Hwf Hroot Hl.
  destruct (styledLeaves_focus className _ _ _ _ _ _ _ Hroot Hl)
    as (C & p & tg & cl & pre & post & L & R & b0 & Hx & _).
  destruct (applyToWholeNode_focus className d C p tg cl pre post n v Hwf Hx)
    as [Heq _].
  rewrite Heq. unfold wholeWrap, leaves. rewrite Hx.
  destruct (styledLeaves_plug other C false) as (L' & R' & b1 & Hplug).
  destruct (pre ++ post)%list as [|q rest] eqn:Hsib; intros H;
    injection H as <- <-; cbn [rootElement withRoot]; rewrite !Hplug;
    do 2 f_equal.
  - apply app_eq_nil in Hsib. destruct Hsib as [-> ->]. simpl.
    now rewrite carries_other_add.
  - simpl. rewrite !flat_map_app. simpl.
    now rewrite carries_other_single, orb_false_r.
Qed.

Lemma other_node (d : document) (X Y : list (nat * string * bool))
      (n : nat) (v : string) (b : bool) (s e : Z)
      (d' : document) (aff : list nat) :
  wellFormed d -> isText (rootElement d) = false ->
  leaves className d = (X ++ (n, v, b) :: Y)%list ->
  s <= e \/ e = JsString.length v ->
  _applyToNode className d n s e = Some (d', aff) ->
  sameStyling (leaves other d) (leaves other d').
Proof.
  intros Hwf Hroot Hl Hse.
  destruct (Z.eqb_spec s e) as [-> | Hne].
  - unfold _applyToNode. rewrite Z.eqb_refl. intros H. injection H as <- <-.
    apply same_refl.
  - destruct ((s =? 0) && (e =? JsString.length v)) eqn:Hwhole.
    + unfold _applyToNode.
      destruct (Z.eqb_spec s e); [contradiction |].
      rewrite (leaf_nodeValue className d X Y n v b Hwf Hroot Hl), Hwhole.
      destruct (_applyToWholeNode className d n) as [[d1 m] |] eqn:Hw;
        [| discriminate].
      intros H. injection H as <- <-.
      rewrite (other_whole d X Y n v b d1 m Hwf Hroot Hl Hw).
      apply same_refl.
    + destruct (styledLeaves_focus className _ _ _ _ _ _ _ Hroot Hl)
        as (C & p & tg & cl & pre & post & L & R & b0 & Hx & _).
      assert (Hnot : ~ (s = 0 /\ e = JsString.length v)).
      { intros [-> ->]. now rewrite !Z.eqb_refl in Hwhole. }
      destruct (applyToNode_partial className d C p tg cl pre post n v
                  Hwf Hx s e Hne Hnot) as [Heq _].
      rewrite Heq. intros H. injection H as <- <-.
      unfold leaves. rewrite Hx. cbn [rootElement].
      destruct (styledLeaves_plug other C false) as (L' & R' & b1 & Hplug).
      rewrite !Hplug.
      apply same_app; [apply same_refl |].
      apply same_app; [| apply same_refl].
      simpl. rewrite !flat_map_app. simpl.
      apply same_app; [apply same_refl |].
      apply (same_app [_] _ _ _); [| apply same_refl].
      rewrite splitPieces_other by assumption.
      apply (same_uniform (b1 || carries other cl)).
      * repeat constructor.
      * apply flags_recolor.
      * rewrite textLen_recolor, textLen_single, <- length_leafText.
        now rewrite leafPieces_text.
Qed.

End OtherClass.

(** X13: one style does not disturb another.  [applyToRanges] for a class
    leaves the styling of every other class as it is, character by
    character: a character lies under an element carrying the other class
    afterwards exactly when it did before. *)
Theorem apply_keeps_other_styles :
  forall (other className : string) (d : document)
         (textSelections : list TextSelection),
    other <> className ->
    wellFormed d ->
    isText (rootElement d) = false ->
    Forall (fun r => selStart r <= selEnd r) textSelections ->
    exists d' affectedNodeGroups,
      applyToRanges className d textSelections =
      Some (d', affectedNodeGroups) /\
      forall i, 0 <= i ->
                styledAt (leaves other d') i = styledAt (leaves other d) i.
Proof.
  intros other className d sels Hdiff Hwf Hroot Hsels.
  destruct (applyToRanges_stepwise className d
              (fun d1 d2 => sameStyling (leaves other d1) (leaves other d2)))
    with (textSelections := sels) as (d' & gs & Heq & [_ Hsame]); auto.
  - intros. apply same_refl.
  - intros. eapply same_trans; eauto.
  - intros d1 A B n v b s e d2 aff Hwf1 Hroot1 Hl Hse Heq.
    exact (other_node other className Hdiff d1 A B n v b s e d2 aff
             Hwf1 Hroot1 Hl Hse Heq).
  - intros d1 A B n v b d2 m Hwf1 Hroot1 Hl Heq.
    rewrite (other_whole other className Hdiff d1 A B n v b d2 m
               Hwf1 Hroot1 Hl Heq).
    apply same_refl.
  - exists d', gs. split; [exact Heq |]. intros i Hi. symmetry. auto.
Qed.

Lemma apply_keeps_other_styles_witness :
  "foo"%string <> "bar"%string /\
  wellFormed styledDocument /\
  isText (rootElement styledDocument) = false /\
  Forall (fun r => selStart r <= selEnd r) [mkTextSelection 2 5] /\
  exists d' affectedNodeGroups,
    applyToRanges "bar" styledDocument [mkTextSelection 2 5] =
    Some (d', affectedNodeGroups) /\
    forall i, 0 <= i ->
              styledAt (leaves "foo" d') i =
              styledAt (leaves "foo" styledDocument) i.
Proof.
  assert (H1 : "foo"%string <> "bar"%string) by discriminate.
  assert (H2 : Forall (fun r => selStart r <= selEnd r)
                 [mkTextSelection 2 5])
    by (repeat constructor; simpl; lia).
  split; [exact H1 |]. split; [exact wellFormed_styled |].
  split; [reflexivity |]. split; [exact H2 |].
  exact (apply_keeps_other_styles "foo" "bar" styledDocument _ H1
           wellFormed_styled eq_refl H2).
Defined.

(* ------------------------------------------------------------------ *)
(** *** Relations that every step of [clear] keeps *)

Section ClearStepwise.

Variable className : string.
Variable R : document -> document -> Prop.
Hypothesis R_refl : forall d, R d d.
Hypothesis R_trans : forall d1 d2 d3, R d1 d2 -> R d2 d3 -> R d1 d3.
Hypothesis R_step :
  forall (d : document) (C : list Frame) (p : nat) (tg : string)
         (cl : list string) (pre post : list Node) (e : nat)
         (cle : list string) (che : list Node),
    wellFormed d ->
    focused d C p tg cl (pre ++ Element e "span" cle che :: post) ->
    carries className cle = true ->
    R d (withRoot d
           (plug C (Element p tg cl
              (clearedChildren className pre post e "span" cle che)))).

Lemma clearElement_rel (d : document) (e : nat) (d' : document) :
  wellFormed d ->
  In e (selected "span" className (rootElement d)) ->
  clearElement className d e = Some d' -> R d d'.
Proof.
  intros Hwf He.
  destruct (selected_focus "span" className e _ He)
    as (C & p & tg & cl & pre & post & cle & che & Hx & Hcar).
  destruct (clearElement_focus className d C p tg cl pre post e "span" cle che
              Hwf Hx) as [Heq _].
  rewrite Heq. intros H. injection H as <-.
  now apply R_step.
Qed.

Lemma clearElements_rel (spanElementList : list nat) :
  forall (k : nat) (d : document),
    wellFormed d -> isText (rootElement d) = false ->
    (k <= List.length spanElementList)%nat ->
    selected "span" className (rootElement d) = firstn k spanElementList ->
    exists d',
      clearElements className d spanElementList k = Some d' /\ R d d'.
Proof.
  induction k as [|k IH]; intros d Hwf Hroot Hk Hsel.
  - exists d. simpl. auto.
  - cbn [clearElements].
    destruct (nth_error spanElementList k) as [e |] eqn:He.
    2:{ apply nth_error_None in He. lia. }
    rewrite (firstn_snoc _ _ _ He) in Hsel.
    assert (Hin : In e (selected "span" className (rootElement d)))
      by (rewrite Hsel, in_app_iff; simpl; auto).
    destruct (clearElement_step className d e Hwf Hroot Hin)
      as (d1 & Heq1 & Hwf1 & Hroot1 & (QA & QB & HQ & HQ1) & _).
    pose proof (clearElement_rel d e d1 Hwf Hin Heq1) as HR1.
    rewrite Heq1. cbn beta iota.
    pose proof (selected_NoDup "span" className d Hwf) as Hnd.
    rewrite HQ in Hnd, Hsel.
    destruct (NoDup_last_unique _ _ _ _ Hnd Hsel) as [-> ->].
    rewrite app_nil_r in HQ1.
    destruct (IH d1 Hwf1 Hroot1 ltac:(lia) HQ1) as (d' & Heq & HR').
    exists d'. eauto.
Qed.

Lemma clear_rel (d : document) :
  wellFormed d -> isText (rootElement d) = false ->
  exists d' count, clear className d = Some (d', count) /\ R d d'.
Proof.
  intros Hwf Hroot. unfold clear.
  destruct (clearElements_rel (Dom.querySelectorAll d "span" className)
              (List.length (Dom.querySelectorAll d "span" className)) d
              Hwf Hroot (le_n _))
    as (d' & -> & HR).
  { rewrite firstn_all. symmetry. apply querySelectorAll_selected. }
  eauto.
Qed.

End ClearStepwise.

Section OtherClassCleared.

Variables other className : string.
Hypothesis Hdiff : other <> className.

Lemma cleared_other (b : bool) (pre post : list Node) (e : nat)
      (cle : list string) (che : list Node) :
  sameStyling
    (flat_map (styledLeaves other b) (pre ++ Element e "span" cle che :: post))
    (flat_map (styledLeaves other b)
              (clearedChildren className pre post e "span" cle che)).
Proof.
  unfold clearedChildren.
  assert (Huntag :
    sameStyling
      (flat_map (styledLeaves other b)
                (pre ++ Element e "span" cle che :: post))
      (flat_map (styledLeaves other b)
                (pre ++ Element e "span" (tokenRemove className cle) che
                     :: post))).
  { rewrite !flat_map_app. simpl.
    rewrite (carries_other_remove other className Hdiff). apply same_refl. }
  destruct che as [|[t v | ? ? ? ?] [|c2 che']]; try exact Huntag.
  destruct (list_eq_dec string_dec cle [className]) as [-> | _];
    [| exact Huntag].
  clear Huntag. rewrite !flat_map_app. simpl.
  rewrite (carries_other_single other className Hdiff), orb_false_r.
  destruct (mergeBefore_cases pre) as [(-> & -> & _) | (i & pv & Hpre & ->)];
    destruct (mergeAfter_cases post) as [(-> & -> & _) | (j & nv & Hpost & ->)].
  - apply same_app; [apply same_refl |].
    apply (same_app [_] [_]); [| apply same_refl].
    apply (same_uniform b); try (repeat constructor).
    rewrite !textLen_single, !jsLength_append.
    change (JsString.length EmptyString) with 0. lia.
  - rewrite Hpost at 1. simpl.
    apply same_app; [apply same_refl |].
    apply (same_app [_; _] [_]); [| apply same_refl].
    apply (same_uniform b); try (repeat constructor).
    rewrite !textLen_cons, !textLen_nil, !jsLength_append.
    change (JsString.length EmptyString) with 0. lia.
  - rewrite Hpre at 1. rewrite flat_map_app, <- app_assoc. simpl.
    apply same_app; [apply same_refl |].
    apply (same_app [_; _] [_]); [| apply same_refl].
    apply (same_uniform b); try (repeat constructor).
    rewrite !textLen_cons, !textLen_nil, !jsLength_append.
    change (JsString.length EmptyString) with 0. lia.
  - rewrite Hpre at 1. rewrite Hpost at 1.
    rewrite flat_map_app, <- app_assoc. simpl.
    apply same_app; [apply same_refl |].
    apply (same_app [_; _; _] [_]); [| apply same_refl].
    apply (same_uniform b); try (repeat constructor).
    rewrite !textLen_cons, !textLen_nil, !jsLength_append. lia.
Qed.

End OtherClassCleared.



(* ------------------------------------------------------------------ *)
(** *** Carets *)

Lemma groupAt_caret (W : list (nat * string)) (s : Z) (g : NodeGroup) :
  GroupAt W s s g ->
  exists n o, g = [mkNodeAndOffset n o; mkNodeAndOffset n o].
Proof.
  intros H.
  destruct H as [P S n v HW H1 H2 H3 | P M S n m v w HW H1 H2 H3 H4
                | P n v HW H1 H2 H3 | P M n m v w HW H1 H2 H3].
  - eauto.
  - rewrite totalLength_app in H3. simpl in H3.
    pose proof (totalLength_nonneg M). lia.
  - rewrite HW, totalLength_app in H3. simpl in H3. lia.
  - rewrite HW, totalLength_app in H3. simpl in H3.
    rewrite totalLength_app in H3. simpl in H3.
    pose proof (totalLength_nonneg M). pose proof (jsLength_nonneg w). lia.
Qed.

Lemma applyToGroups_unchanged (className : string) (gs : list NodeGroup) :
  Forall (fun g => (List.length g <= 1)%nat \/
                   exists n o, g = [mkNodeAndOffset n o; mkNodeAndOffset n o])
         gs ->
  forall (k : nat) (d : document) (acc : list (list nat)),
    (k <= List.length gs)%nat ->
    exists acc', applyToGroups className d gs k acc = Some (d, acc').
Proof.
  intros Hgs. induction k as [|k IH]; intros d acc Hk.
  - exists acc. reflexivity.
  - cbn [applyToGroups].
    destruct (nth_error gs k) as [g |] eqn:Hg.
    2:{ apply nth_error_None in Hg. lia. }
    assert (Hnoop : applyToGroup className d g = Some (d, [])).
    { rewrite Forall_forall in Hgs.
      destruct (Hgs g (nth_error_In _ _ Hg)) as [Hlen | (n & o & ->)].
      - now apply applyToGroup_short.
      - unfold applyToGroup, _applyToNode. simpl.
        now rewrite Nat.eqb_refl, Z.eqb_refl. }
    cbn beta iota. rewrite Hnoop. cbn beta iota. apply IH. lia.
Qed.

(** X15: carets change nothing.  When every range of an ascending list is
    empty ([start = end]), [applyToRanges] returns and the document is
    exactly what it was: no node is split, created or given the class. *)
Theorem carets_change_nothing :
  forall (className : string) (d : document)
         (textSelections : list TextSelection),
    ascending 0 (positionsOf textSelections) ->
    Forall (fun r => selStart r = selEnd r) textSelections ->
    exists affectedNodeGroups,
      applyToRanges className d textSelections =
      Some (d, affectedNodeGroups).
Proof.
  intros className d sels Hasc Hcaret.
  destruct sels as [|r0 sels0]; [exists []; reflexivity |].
  remember (r0 :: sels0) as sels eqn:Hsels.
  assert (Hne : sels <> []) by (rewrite Hsels; discriminate).
  assert (Hunfold :
    applyToRanges className d sels =
    ('(d1, affectedNodeGroups) <-
        applyToGroups className d (_findNodeAndOffsetGroups d sels)
          (List.length (_findNodeAndOffsetGroups d sels)) [] ;;
      Some (d1, rev affectedNodeGroups))).
  { rewrite Hsels. reflexivity. }
  rewrite Hunfold. clear Hunfold Hsels.
  destruct (findNodeAndOffsetGroups_resolved d sels Hne Hasc)
    as (realSels & dropped & realGroups & junk & Hs & -> & Hall & Hjunk & _).
  rewrite Hs in Hcaret. apply Forall_app in Hcaret.
  destruct Hcaret as [Hcaret _].
  destruct (applyToGroups_unchanged className (realGroups ++ junk))
    with (k := List.length (realGroups ++ junk)) (d := d)
         (acc := @nil (list nat)) as (acc' & ->); [| lia |].
  - apply Forall_app. split.
    + clear Hs Hasc Hne. induction Hall as [|r g rs gs Hg _ IH];
        [constructor |].
      inversion Hcaret as [|? ? Hr Hrs]; subst.
      constructor; [| now apply IH].
      right. rewrite Hr in Hg. now apply groupAt_caret in Hg.
    + eapply Forall_impl; [| exact Hjunk]. intros g Hg. left. exact Hg.
  - eexists. reflexivity.
Qed.

Lemma carets_change_nothing_witness :
  ascending 0 (positionsOf [mkTextSelection 5 5; mkTextSelection 9 9]) /\
  Forall (fun r => selStart r = selEnd r)
         [mkTextSelection 5 5; mkTextSelection 9 9] /\
  exists affectedNodeGroups,
    applyToRanges "foo" styledDocument
      [mkTextSelection 5 5; mkTextSelection 9 9] =
    Some (styledDocument, affectedNodeGroups).
Proof.
  assert (H1 : ascending 0
                 (positionsOf [mkTextSelection 5 5; mkTextSelection 9 9]))
    by (simpl; lia).
  assert (H2 : Forall (fun r => selStart r = selEnd r)
                 [mkTextSelection 5 5; mkTextSelection 9 9])
    by (repeat constructor).
  split; [exact H1 |]. split; [exact H2 |].
  exact (carets_change_nothing "foo" styledDocument _ H1 H2).
Defined.
